(** * The Nanci block reformatter: a shallow embedding and its properties

    The development embeds two scripts of the repository:

    - [Nanci_reformat_example(xyz).py]: [make_output_name], [process_file]
      and [process_directory];
    - [Nanci_reformat&ingest_example(xyz).py]: the older [reformat].

    Text is a list of characters.  A character stands for a code point
    below 256; the bytes-to-text layer of the interpreter (decoding with
    replacement, translation of line endings to the newline character)
    sits below the model, so a stream is the text the program reads.
    Files live in a finite map from paths to their text, the log is a
    list of events, and the primitive file operations consult a schedule
    of faults so that any of them may raise [OSError].

    The first part holds the model, the second the vocabulary of the
    statements, the third the properties: the loop of [process_file]
    pass by pass, the shape of what it writes, the output names, the
    containment of failures, and the agreement with [reformat]. *)

From Stdlib Require Import Ascii String ZArith List Lia DecimalString DecimalPos
  Sorted.
From stdpp Require Import gmap list strings.

Import ListNotations.
Local Open Scope list_scope.

(** ** Text *)

Abbreviation text := (list ascii).

(** A literal of the source, as text. *)
Definition T (s : string) : text := list_ascii_of_string s.

Definition nl : ascii := ascii_of_nat 10.
Definition dot : ascii := ascii_of_nat 46.
Definition space : ascii := ascii_of_nat 32.
Definition slash : ascii := ascii_of_nat 47.

(** [str.isspace] on one character: the code points below 256 that the
    interpreter classes as whitespace. *)
Definition isspace (c : ascii) : bool :=
  let n := nat_of_ascii c in
  ((9 <=? n) && (n <=? 13)) || ((28 <=? n) && (n <=? 32)) ||
  (n =? 133) || (n =? 160).

Fixpoint lstrip_by (f : ascii -> bool) (s : text) : text :=
  match s with
  | [] => []
  | c :: s' => if f c then lstrip_by f s' else s
  end.

Definition rstrip_by (f : ascii -> bool) (s : text) : text :=
  rev (lstrip_by f (rev s)).

(** [s.strip()] *)
Definition strip (s : text) : text := rstrip_by isspace (lstrip_by isspace s).

Definition is_nl (c : ascii) : bool := bool_decide (c = nl).

(** [s.rstrip('\n')] *)
Definition rstrip_nl (s : text) : text := rstrip_by is_nl s.

(** [s.split(sep)] for a one-character separator: empty fields are kept,
    and the empty text gives one empty field. *)
Fixpoint split_on (sep : ascii) (s : text) : list text :=
  match s with
  | [] => [[]]
  | c :: s' =>
      if bool_decide (c = sep) then [] :: split_on sep s'
      else match split_on sep s' with
           | w :: ws => (c :: w) :: ws
           | [] => [[c]]
           end
  end.

(** [s.split()]: maximal runs of characters that are not whitespace. *)
Fixpoint split_ws (s : text) : list text :=
  match s with
  | [] => []
  | c :: s' =>
      if isspace c then split_ws s'
      else match s' with
           | [] => [[c]]
           | c' :: _ =>
               if isspace c' then [c] :: split_ws s'
               else match split_ws s' with
                    | w :: ws => (c :: w) :: ws
                    | [] => [[c]]
                    end
           end
  end.

(** [sep.join(ws)] *)
Fixpoint join (sep : text) (ws : list text) : text :=
  match ws with
  | [] => []
  | [w] => w
  | w :: ws' => w ++ sep ++ join sep ws'
  end.

(** One call of [readline] on a stream positioned at [s]: the line read,
    with its terminator when it has one, and the new position.  At the end
    of the stream the line is empty. *)
Fixpoint readline_at (s : text) : text * text :=
  match s with
  | [] => ([], [])
  | c :: s' =>
      if is_nl c then ([c], s')
      else let '(l, r) := readline_at s' in (c :: l, r)
  end.

(** ** Integers as [int] reads and [str] prints them *)

Definition digit_val (c : ascii) : option Z :=
  let n := nat_of_ascii c in
  if (48 <=? n) && (n <=? 57) then Some (Z.of_nat (n - 48)) else None.

Definition is_underscore (c : ascii) : bool := bool_decide (c = ascii_of_nat 95).

(** Decimal digits, single underscores allowed between two digits. *)
Fixpoint parse_digits (acc : Z) (after_digit : bool) (s : text) : option Z :=
  match s with
  | [] => if after_digit then Some acc else None
  | c :: s' =>
      match digit_val c with
      | Some d => parse_digits (10 * acc + d) true s'
      | None =>
          if is_underscore c && after_digit then parse_digits acc false s'
          else None
      end
  end.

(** The characters [int] drops around a literal: the whitespace of
    [isspace] without the separators 28 to 31. *)
Definition int_space (c : ascii) : bool :=
  let n := nat_of_ascii c in
  ((9 <=? n) && (n <=? 13)) || (n =? 32) || (n =? 133) || (n =? 160).

(** [int(s)]: [None] stands for [ValueError].  Surrounding whitespace is
    dropped, then an optional sign and the digits are read.  The
    interpreter's configurable cap on the number of digits is not part of
    the model. *)
Definition int_ (s : text) : option Z :=
  match rstrip_by int_space (lstrip_by int_space s) with
  | c :: r =>
      if bool_decide (c = ascii_of_nat 45) then Z.opp <$> parse_digits 0 false r
      else if bool_decide (c = ascii_of_nat 43) then parse_digits 0 false r
      else parse_digits 0 false (c :: r)
  | [] => None
  end.

(** [str(n)] *)
Definition str_Z (n : Z) : text :=
  list_ascii_of_string (NilZero.string_of_int (Z.to_int n)).

(** [sorted(names)], by code points. *)
Fixpoint text_leb (a b : text) : bool :=
  match a, b with
  | [], _ => true
  | _ :: _, [] => false
  | x :: a', y :: b' =>
      if nat_of_ascii x <? nat_of_ascii y then true
      else if nat_of_ascii x =? nat_of_ascii y then text_leb a' b'
      else false
  end.

Fixpoint insert_sorted (x : text) (l : list text) : list text :=
  match l with
  | [] => [x]
  | y :: l' => if text_leb x y then x :: l else y :: insert_sorted x l'
  end.

Definition sorted (l : list text) : list text := foldr insert_sorted [] l.

(** [s.endswith(p)] *)
Definition endswith (s p : text) : bool :=
  bool_decide (drop (length s - length p) s = p).

Definition startswith (s p : text) : bool :=
  bool_decide (take (length p) s = p).

(** [p in s] *)
Fixpoint contains (s p : text) : bool :=
  startswith s p || match s with [] => false | _ :: s' => contains s' p end.

(** ** Paths *)

(** A path, as [pathlib] sees it: the directory it lies in and its final
    component. *)
Record Path := mkPath { parent : text; name : text }.

#[global] Instance Path_eq_dec : EqDecision Path.
Proof. solve_decision. Defined.

#[global] Instance Path_countable : Countable Path :=
  inj_countable' (fun p => (parent p, name p)) (fun q => mkPath q.1 q.2)
    (fun p => match p with mkPath _ _ => eq_refl end).

(** [s.rfind(c)]: [None] stands for -1. *)
Fixpoint rfind (c : ascii) (s : text) : option nat :=
  match s with
  | [] => None
  | x :: s' =>
      match rfind c s' with
      | Some i => Some (S i)
      | None => if bool_decide (x = c) then Some 0 else None
      end
  end.

(** [Path(s)] for a text without repeated or final separators and
    without ['.'] components: the part after the last separator is the
    name, and a bare name lies in the directory ['.']. *)
Definition Path_of_str (s : text) : Path :=
  match rfind slash s with
  | Some i => mkPath (take i s) (drop (S i) s)
  | None => mkPath [dot] s
  end.

(** The exceptions the scripts can meet, all of them instances of
    [Exception]; interrupts from outside the program are not modelled. *)
Inductive exn := OSError | ValueError | IndexError | TypeError.

Section Names.

(** Where the last dot of a name splits it into stem and suffix.  Up to
    version 3.13 of the interpreter a dot that ends the name starts no
    suffix; from 3.14 on it does ([dot_suffix = true]), and a name is
    split unless only dots come before its last dot. *)
Variable dot_suffix : bool.

Definition splits_at (nm : text) (i : nat) : bool :=
  if dot_suffix then existsb (fun c => negb (bool_decide (c = dot))) (take i nm)
  else (0 <? i) && (i <? length nm - 1).

Definition suffix (p : Path) : text :=
  match rfind dot (name p) with
  | Some i => if splits_at (name p) i then drop i (name p) else []
  | None => []
  end.

Definition stem (p : Path) : text :=
  match rfind dot (name p) with
  | Some i => if splits_at (name p) i then take i (name p) else name p
  | None => name p
  end.

(** [p.with_name(nm)] for a name [nm] that is a single non-empty
    component; [None] stands for the [ValueError] of a path without a
    name. *)
Definition with_name (p : Path) (nm : text) : option Path :=
  match name p with
  | [] => None
  | _ => Some (mkPath (parent p) nm)
  end.

Definition REFORMAT : text := T "_reformat".

Definition make_output_name (in_path : Path) : option Path :=
  let name := name in_path in
  let parts := split_on dot name in
  let out_name :=
    if bool_decide (3 <= length parts) then
      let pre := join [dot] (take (length parts - 2) parts) in
      let mid := default [] (parts !! (length parts - 2)) in
      let suf := default [] (last parts) in
      pre ++ [dot] ++ mid ++ REFORMAT ++ [dot] ++ suf
    else
      stem in_path ++ REFORMAT ++ suffix in_path in
  with_name in_path out_name.

End Names.

(** ** The world: files, faults, log *)

Inductive event :=
  | InfoProcessing (file_path : Path)
  | WarnCount (first : text) (file_path : Path)
  | WarnMetaEOF (file_path : Path)
  | WarnTokens (have want : nat) (file_path : Path)
  | ExcExtract (e : exn)
  | WarnAtomsEOF (n_atoms : Z) (file_path : Path) (block_count : nat)
  | InfoFinished (file_path : Path) (block_count : nat) (out_path : Path)
  | ExcFatal (file_path : Path) (e : exn)
  | PrintError (file_address : text) (e : exn).

(** [fs] holds the regular files, [dirs] what [os.listdir] answers for a
    directory, [faults] decides for each file operation in turn whether
    it fails (an exhausted schedule means no more failures), and [stats]
    decides in the same way, for each query [is_file] in turn, whether
    the look at the file fails. *)
Record world := mkWorld {
  fs : gmap Path text;
  dirs : gmap text (list text);
  faults : list bool;
  log : list event;
  stats : list bool
}.

(** The outcome of a computation: a value, an exception on its way up, or
    [Diverge] when a loop has used up the steps the model grants it. *)
Inductive result (A : Type) :=
  | Ok (a : A)
  | Raise (e : exn)
  | Diverge.
Arguments Ok {A} a.
Arguments Raise {A} e.
Arguments Diverge {A}.

Definition M (A : Type) : Type := world -> result A * world.

Definition ret {A} (a : A) : M A := fun w => (Ok a, w).

Definition raise {A} (e : exn) : M A := fun w => (Raise e, w).

Definition bind {A B} (m : M A) (k : A -> M B) : M B :=
  fun w =>
    match m w with
    | (Ok a, w') => k a w'
    | (Raise e, w') => (Raise e, w')
    | (Diverge, w') => (Diverge, w')
    end.

(** [try: m except Exception as e: h e] *)
Definition try_except {A} (m : M A) (h : exn -> M A) : M A :=
  fun w =>
    match m w with
    | (Raise e, w') => h e w'
    | r => r
    end.

(** [try: m finally: release], as the end of a [with] block runs it:
    [release] runs however [m] ends, and an exception of [release] takes
    the place of the outcome of [m]. *)
Definition finally {A} (m : M A) (release : M unit) : M A :=
  fun w =>
    match m w with
    | (Diverge, w') => (Diverge, w')
    | (r, w') =>
        match release w' with
        | (Ok _, w'') => (r, w'')
        | (Raise e, w'') => (Raise e, w'')
        | (Diverge, w'') => (Diverge, w'')
        end
    end.

Declare Scope M_scope.
Delimit Scope M_scope with M.
Notation "x <- m ;; k" := (bind m (fun x => k))
  (at level 100, m at next level, right associativity) : M_scope.
Notation "m ;; k" := (bind m (fun _ => k))
  (at level 100, right associativity) : M_scope.
Local Open Scope M_scope.

Definition set_fs (f : gmap Path text) (w : world) : world :=
  mkWorld f (dirs w) (faults w) (log w) (stats w).

Definition add_log (e : event) (w : world) : world :=
  mkWorld (fs w) (dirs w) (faults w) (log w ++ [e]) (stats w).

(** The file at [p] with [s] added at its end. *)
Definition append_file (p : Path) (s : text) (w : world) : world :=
  set_fs (<[p := default [] (fs w !! p) ++ s]> (fs w)) w.

Definition logger (e : event) : M unit :=
  fun w => (Ok tt, add_log e w).

(** Every file operation starts here: the next entry of the schedule
    says whether it fails. *)
Definition io : M unit :=
  fun w =>
    match faults w with
    | true :: fl => (Raise OSError, mkWorld (fs w) (dirs w) fl (log w) (stats w))
    | false :: fl => (Ok tt, mkWorld (fs w) (dirs w) fl (log w) (stats w))
    | [] => (Ok tt, w)
    end.

(** [p.open('r')]: the text of the file, to be read from its start. *)
Definition open_r (p : Path) : M text :=
  io ;;
  fun w => match fs w !! p with
           | Some content => (Ok content, w)
           | None => (Raise OSError, w)
           end.

(** The listings once a file lies at [p]: the listing of its directory,
    when the world has one, holds its name, at the end when it is new. *)
Definition add_entry (p : Path) (d : gmap text (list text))
    : gmap text (list text) :=
  match d !! parent p with
  | Some names =>
      if bool_decide (name p ∈ names) then d
      else <[parent p := names ++ [name p]]> d
  | None => d
  end.

(** The world with an empty file at [p]. *)
Definition create (p : Path) (w : world) : world :=
  mkWorld (<[p := []]> (fs w)) (add_entry p (dirs w)) (faults w) (log w)
    (stats w).

(** [p.open('w')]: the file is created or emptied, and its directory
    lists it. *)
Definition open_w (p : Path) : M unit :=
  io ;;
  fun w => (Ok tt, create p w).

(** The close of a file at the end of its [with] block, which for a file
    written to flushes what is left to write. *)
Definition close : M unit := io.

(** [fin.readline()] at position [fin]: the line and the new position. *)
Definition readline (fin : text) : M (text * text) :=
  io ;; ret (readline_at fin).

(** [fout.write(s)] on the file opened at [p]. *)
Definition write (p : Path) (s : text) : M unit :=
  io ;;
  fun w => (Ok tt, append_file p s w).

(** [os.listdir(d)]: the names, or [OSError] when there is no such
    directory. *)
Definition listdir (d : text) : M (list text) :=
  fun w => match dirs w !! d with
           | Some names => (Ok names, w)
           | None => (Raise OSError, w)
           end.

(** [p.is_file()]: whether a regular file lies at [p].  The next entry
    of [stats] says whether the look at the file fails for another
    reason than its absence: then the [pathlib] before version 3.14
    raises [OSError], and the later one ([dot_suffix = true]) answers
    [False]. *)
Definition is_file (dot_suffix : bool) (p : Path) : M bool :=
  fun w =>
    let regular := bool_decide (is_Some (fs w !! p)) in
    match stats w with
    | true :: sl =>
        let w' := mkWorld (fs w) (dirs w) (faults w) (log w) sl in
        if dot_suffix then (Ok false, w') else (Raise OSError, w')
    | false :: sl => (Ok regular, mkWorld (fs w) (dirs w) (faults w) (log w) sl)
    | [] => (Ok regular, w)
    end.

(** ** String formatting *)

Inductive piece :=
  | Lit (s : text)
  | Field (i : nat).

(** [tpl.format( *args )]: [None] stands for [IndexError]. *)
Fixpoint format (tpl : list piece) (args : list text) : option text :=
  match tpl with
  | [] => Some []
  | Lit s :: tpl' => (fun r => s ++ r) <$> format tpl' args
  | Field i :: tpl' =>
      match args !! i with
      | Some a => (fun r => a ++ r) <$> format tpl' args
      | None => None
      end
  end.

(** [tpl % args] where every conversion is [%s], written [None]. *)
Fixpoint percent (tpl : list (option text)) (args : list text) : option text :=
  match tpl with
  | [] => match args with [] => Some [] | _ => None end
  | Some s :: tpl' => (fun r => s ++ r) <$> percent tpl' args
  | None :: tpl' =>
      match args with
      | a :: args' => (fun r => a ++ r) <$> percent tpl' args'
      | [] => None
      end
  end.

Definition PROPERTIES : text := T " Properties=species:S:1:pos:R:3".

(** The header template of [process_file], fields [{0}] to [{9}]. *)
Definition HEADER_TEMPLATE : list piece :=
  [Lit (T "CCSD(T)/CBS="); Field 0; Lit (T " CCSD(T)/haTZ="); Field 1;
   Lit (T " MP2/haTZ="); Field 2; Lit (T " MP2/CBS="); Field 3;
   Lit (T " MP2/aTZ="); Field 4; Lit (T " MP2/aQZ="); Field 5;
   Lit (T " HF/haTZ="); Field 6; Lit (T " HF/aTZ="); Field 7;
   Lit (T " HF/aQZ="); Field 8; Lit (T " SAPT2+/aDZTot="); Field 9;
   Lit (T " Properties=species:S:1:pos:R:3")].

(** The header template of [reformat], ten [%s] and a final newline. *)
Definition REFORMAT_TEMPLATE : list (option text) :=
  [Some (T "CCSD(T)/CBS="); None; Some (T " CCSD(T)/haTZ="); None;
   Some (T " MP2/haTZ="); None; Some (T " MP2/CBS="); None;
   Some (T " MP2/aTZ="); None; Some (T " MP2/aQZ="); None;
   Some (T " HF/haTZ="); None; Some (T " HF/aTZ="); None;
   Some (T " HF/aQZ="); None; Some (T " SAPT2+/aDZTot="); None;
   Some (T " Properties=species:S:1:pos:R:3" ++ [nl])].

(** The constant of the script. *)
Definition NANCI_INDICES : list nat := [16; 18; 20; 22; 24; 26; 28; 30; 32; 34].

Section Reformatter.

Variable dot_suffix : bool.

(** The token positions to select; the script fixes them to
    [NANCI_INDICES]. *)
Variable METADATA_INDICES : list nat.

(** [max(l)]: [ValueError] on the empty list. *)
Definition max_ (l : list nat) : M nat :=
  match l with
  | [] => raise ValueError
  | x :: l' => ret (foldl Nat.max x l')
  end.

(** [for _ in range(n): _ = fin.readline()] *)
Fixpoint skip_lines (n : nat) (fin : text) : M text :=
  match n with
  | 0 => ret fin
  | S n' => p <- readline fin ;; skip_lines n' p.2
  end.

(** The loop that reads the atom lines: [None] when the stream ended
    first ([read_ok = False]), after logging [eof]. *)
Fixpoint read_atom_lines (eof : event) (n : nat) (fin : text)
    (atom_lines : list text) : M (option (list text) * text) :=
  match n with
  | 0 => ret (Some atom_lines, fin)
  | S n' =>
      p <- readline fin ;;
      let '(line, fin) := p in
      match line with
      | [] => logger eof ;; ret (None, fin)
      | _ => read_atom_lines eof n' fin (atom_lines ++ [rstrip_nl line])
      end
  end.

(** [for al in atom_lines: fout.write(al + "\n")] *)
Fixpoint write_lines (out_path : Path) (atom_lines : list text) : M unit :=
  match atom_lines with
  | [] => ret tt
  | al :: rest => write out_path (al ++ [nl]) ;; write_lines out_path rest
  end.

(** The header of a block, with the fallback taken when formatting
    fails. *)
Definition make_header (meta_values : list text) : text :=
  match format HEADER_TEMPLATE meta_values with
  | Some header => header
  | None => join [space] (map (fun v => T "meta:" ++ v) meta_values) ++ PROPERTIES
  end.

(** [[meta_tokens[i] for i in METADATA_INDICES]] *)
Definition select (meta_tokens : list text) : option (list text) :=
  mapM (fun i => meta_tokens !! i) METADATA_INDICES.

(** How one pass through the body of [while True] ends. *)
Inductive ctl :=
  | Break (block_count : nat)
  | Continue (fin : text) (block_count : nat).

(** One pass through the body of the loop of [process_file], from the
    position [fin] of the input stream. *)
Definition body (file_path out_path : Path) (fin : text) (block_count : nat)
    : M ctl :=
  p <- readline fin ;;
  let '(first, fin) := p in
  match first with
  | [] => ret (Break block_count)
  | _ =>
  let first := strip first in
  match first with
  | [] => ret (Continue fin block_count)
  | _ =>
  match int_ first with
  | None => logger (WarnCount first file_path) ;; ret (Continue fin block_count)
  | Some n_atoms =>
  p <- readline fin ;;
  let '(meta_line, fin) := p in
  match meta_line with
  | [] => logger (WarnMetaEOF file_path) ;; ret (Break block_count)
  | _ =>
  let meta_tokens := split_ws (strip meta_line) in
  mx <- max_ METADATA_INDICES ;;
  if bool_decide (length meta_tokens <= mx) then
    logger (WarnTokens (length meta_tokens) (mx + 1) file_path) ;;
    fin <- skip_lines (Z.to_nat n_atoms) fin ;;
    ret (Continue fin block_count)
  else
  match select meta_tokens with
  | None =>
      logger (ExcExtract IndexError) ;;
      fin <- skip_lines (Z.to_nat n_atoms) fin ;;
      ret (Continue fin block_count)
  | Some meta_values =>
  p <- read_atom_lines (WarnAtomsEOF n_atoms file_path block_count)
         (Z.to_nat n_atoms) fin [] ;;
  let '(read, fin) := p in
  match read with
  | None => ret (Break block_count)
  | Some atom_lines =>
      let header := make_header meta_values in
      write out_path (str_Z n_atoms ++ [nl]) ;;
      write out_path (header ++ [nl]) ;;
      write_lines out_path atom_lines ;;
      ret (Continue fin (S block_count))
  end end end end end end.

(** [while True: body], granted [fuel] passes. *)
Fixpoint while_true (fuel : nat) (file_path out_path : Path) (fin : text)
    (block_count : nat) : M nat :=
  match fuel with
  | 0 => fun w => (Diverge, w)
  | S fuel' =>
      c <- body file_path out_path fin block_count ;;
      match c with
      | Break block_count => ret block_count
      | Continue fin block_count =>
          while_true fuel' file_path out_path fin block_count
      end
  end.

(** The loop of [process_file] from position [fin]: every pass but the
    last consumes a line, so one pass more than [fin] has characters is
    enough. *)
Definition process_blocks (file_path out_path : Path) (fin : text)
    (block_count : nat) : M nat :=
  while_true (S (length fin)) file_path out_path fin block_count.

Definition lift {A} (e : exn) (o : option A) : M A :=
  match o with
  | Some a => ret a
  | None => raise e
  end.

Definition process_file (file_path : Path) (out_dir : option text) : M unit :=
  logger (InfoProcessing file_path) ;;
  let out_dir := default (parent file_path) out_dir in
  out_path <- lift ValueError (make_output_name dot_suffix file_path) ;;
  let out_path :=
    if bool_decide (out_dir <> parent file_path)
    then mkPath out_dir (name out_path) else out_path in
  try_except
    (fin <- open_r file_path ;;
     finally
       (open_w out_path ;;
        finally
          (block_count <- process_blocks file_path out_path fin 0 ;;
           logger (InfoFinished file_path block_count out_path))
          close)
       close)
    (fun e => logger (ExcFatal file_path e)).

End Reformatter.

Section Directory.

Variable dot_suffix : bool.
Variable METADATA_INDICES : list nat.

(** [Path(__file__).name] *)
Variable script_name : text.

(** Whether the filter of [process_directory] lets a name through. *)
Definition selected (patterns : option (list text)) (fname : text) : bool :=
  match patterns with
  | None | Some [] => true
  | Some ps => existsb (fun p => endswith fname p || contains fname p) ps
  end.

(** The loop of [process_directory] over the sorted names. *)
Fixpoint for_each_name (target_dir : text) (patterns : option (list text))
    (out_dir : option text) (names : list text) : M unit :=
  match names with
  | [] => ret tt
  | fname :: rest =>
      let fpath := mkPath target_dir fname in
      regular <- is_file dot_suffix fpath ;;
      (if negb regular then ret tt
       else if bool_decide (fname = script_name) then ret tt
       else if negb (selected patterns fname) then ret tt
       else process_file dot_suffix METADATA_INDICES fpath out_dir) ;;
      for_each_name target_dir patterns out_dir rest
  end.

Definition process_directory (target_dir : text)
    (patterns : option (list text)) (out_dir : option text) : M unit :=
  names <- listdir target_dir ;;
  for_each_name target_dir patterns out_dir (sorted names).

End Directory.

(** ** The older [reformat] *)

(** [for i in range(n): atoms += f.readline()] *)
Fixpoint read_atoms (n : nat) (f : text) (atoms : text) : M (text * text) :=
  match n with
  | 0 => ret (atoms, f)
  | S n' => p <- readline f ;; read_atoms n' p.2 (atoms ++ p.1)
  end.

(** The body of the [try] in the loop of [reformat]; it returns the new
    position of the input stream. *)
Definition reformat_block (b : Path) (f : text) : M text :=
  p <- readline f ;;
  let '(line, f) := p in
  n <- lift ValueError (int_ line) ;;
  p <- readline f ;;
  let '(line, f) := p in
  let data := split_on space line in
  p <- read_atoms (Z.to_nat n) f [] ;;
  let '(atoms, f) := p in
  write b (str_Z n ++ [nl]) ;;
  values <- lift IndexError (mapM (fun i => data !! i) NANCI_INDICES) ;;
  header <- lift TypeError (percent REFORMAT_TEMPLATE values) ;;
  write b header ;;
  write b atoms ;;
  ret f.

(** [while do: try: ... except Exception as e: print(...); do = False] *)
Fixpoint reformat_loop (fuel : nat) (file_address : text) (b : Path)
    (f : text) : M unit :=
  match fuel with
  | 0 => fun w => (Diverge, w)
  | S fuel' =>
      r <- try_except (f <- reformat_block b f ;; ret (Some f))
             (fun e => logger (PrintError file_address e) ;; ret None) ;;
      match r with
      | Some f => reformat_loop fuel' file_address b f
      | None => ret tt
      end
  end.

Definition reformat (file_address : text) : M unit :=
  let a := split_on dot file_address in
  b <- lift IndexError
         (a0 ← a !! 0; a1 ← a !! 1; a2 ← a !! 2;
          Some (a0 ++ [dot] ++ a1 ++ REFORMAT ++ [dot] ++ a2)) ;;
  open_w (Path_of_str b) ;;
  finally
    (f <- open_r (Path_of_str file_address) ;;
     finally (reformat_loop (S (length f)) file_address (Path_of_str b) f)
       close)
    close.

(** ** Vocabulary of the statements *)

Definition nlfree (s : text) : Prop := nl ∉ s.

(** Every line of [ls] followed by a newline. *)
Definition unlines (ls : list text) : text :=
  concat (map (fun l => l ++ [nl]) ls).

(** A world whose file operations all succeed. *)
Definition quiet (w : world) : Prop := faults w = [].

(** The position of a stream after [n] calls of [readline]. *)
Fixpoint drop_lines (n : nat) (fin : text) : text :=
  match n with
  | 0 => fin
  | S n' => drop_lines n' (readline_at fin).2
  end.

(** What a computation may do to a world: listings only get longer,
    files are never removed, the log only gets longer. *)
Definition extends (w w' : world) : Prop :=
  (forall d names, dirs w !! d = Some names ->
     exists more, dirs w' !! d = Some (names ++ more)) /\
  (forall p, is_Some (fs w !! p) -> is_Some (fs w' !! p)) /\
  log w `prefix_of` log w'.

Definition grows {A} (m : M A) : Prop := forall w, extends w (m w).2.

(** The computation does not run out of the steps granted to its loops. *)
Definition safe {A} (m : M A) : Prop := forall w, (m w).1 <> Diverge.

(** What holds of the value a computation returns. *)
Definition post {A} (m : M A) (Q : A -> Prop) : Prop :=
  forall w a w', m w = (Ok a, w') -> Q a.

(** What the loop over the atom lines finds from position [fin]: the [n]
    lines without their terminators and the position after them, or
    nothing when the stream ends first. *)
Fixpoint lines_read (n : nat) (fin : text) (acc : list text)
    : option (list text) * text :=
  match n with
  | 0 => (Some acc, fin)
  | S n' =>
      let '(line, fin') := readline_at fin in
      match line with
      | [] => (None, fin')
      | _ => lines_read n' fin' (acc ++ [rstrip_nl line])
      end
  end.

(** The text of one block of the output. *)
Definition render_block (n : Z) (header : text) (atom_lines : list text) : text :=
  str_Z n ++ [nl] ++ header ++ [nl] ++ unlines atom_lines.

(** A block of the input: its count line and its metadata line, both
    without their terminators, and its atom lines. *)
Record block := mkBlock {
  count_line : text;
  meta_line : text;
  atoms : list text
}.

Definition block_text (b : block) : text :=
  count_line b ++ [nl] ++ meta_line b ++ [nl] ++ unlines (atoms b).

Definition input_text (bs : list block) : text := concat (map block_text bs).

(** The count line, stripped as [process_file] strips it, reads as the
    number of atom lines, the metadata line has a token at every selected
    position, and no line holds a newline. *)
Definition well_formed (idx : list nat) (b : block) : Prop :=
  nlfree (count_line b) /\
  int_ (strip (count_line b)) = Some (Z.of_nat (length (atoms b))) /\
  nlfree (meta_line b) /\
  Forall (fun i => i < length (split_ws (meta_line b))) idx /\
  Forall nlfree (atoms b).

(** The header [process_file] gives a block with metadata line [meta]. *)
Definition header_of (idx : list nat) (meta : text) : text :=
  make_header (default [] (select idx (split_ws meta))).

(** What [process_file] writes for a well-formed block. *)
Definition output_block (idx : list nat) (b : block) : text :=
  render_block (Z.of_nat (length (atoms b))) (header_of idx (meta_line b))
    (atoms b).

(** The path [process_file] writes to. *)
Definition out_path_of (dot_suffix : bool) (file_path : Path)
    (out_dir : option text) : option Path :=
  out_path ← make_output_name dot_suffix file_path;
  Some (if bool_decide (default (parent file_path) out_dir <> parent file_path)
        then mkPath (default (parent file_path) out_dir) (name out_path)
        else out_path).

(** The world when the loop of [process_file] starts. *)
Definition opened (file_path out_path : Path) (w : world) : world :=
  create out_path (add_log (InfoProcessing file_path) w).

(** The number of lines a stream still holds. *)
Fixpoint line_count (s : text) : nat :=
  match s with
  | [] => 0
  | c :: s' =>
      if is_nl c then S (line_count s')
      else match s' with
           | [] => 1
           | _ => line_count s'
           end
  end.

(** A count line that reads as [n], followed by the end of the stream or
    by a metadata line and fewer than [n] further lines. *)
Definition truncated (fin : text) : Prop :=
  exists first fin1 n,
    readline_at fin = (first, fin1) /\ int_ (strip first) = Some n /\
    (fin1 = [] \/
     exists meta fin2,
       readline_at fin1 = (meta, fin2) /\ meta <> [] /\
       line_count fin2 < Z.to_nat n).

(** ** Sample data *)

Definition sample_path : Path := mkPath (T "data") (T "nenci.xyz").
Definition sample_out : Path := mkPath (T "data") (T "nenci_reformat.xyz").

(** A world without faults that holds one file. *)
Definition one_file (p : Path) (content : text) : world :=
  mkWorld {[ p := content ]} ∅ [] [] [].

(** Metadata lines of 34, 35 and 36 tokens. *)
Definition meta34 : text :=
  T "0 1 2 3 4 5 6 7 8 9 10 11 12 13 14 15 16 17 18 19 20 21 22 23 24 25 26 27 28 29 30 31 32 33".
Definition meta35 : text := meta34 ++ T " 34".
Definition meta36 : text := meta35 ++ T " 35".

Definition sample_header : text :=
  T "CCSD(T)/CBS=16 CCSD(T)/haTZ=18 MP2/haTZ=20 MP2/CBS=22 MP2/aTZ=24 MP2/aQZ=26 HF/haTZ=28 HF/aTZ=30 HF/aQZ=32 SAPT2+/aDZTot=34 Properties=species:S:1:pos:R:3".

Definition water : block :=
  mkBlock (T "3") meta36 [T "O 0.0 0.0 0.0"; T "H 0.0 0.7 0.6"; T "H 0.0 -0.7 0.6"].

#[global] Instance nlfree_dec s : Decision (nlfree s).
Proof. unfold nlfree. apply _. Defined.

#[global] Instance well_formed_dec idx b : Decision (well_formed idx b).
Proof. unfold well_formed. apply _. Defined.

(** The input of the scenario with two selected positions, its only
    block, and the output expected for it. *)
Definition meta19 : text :=
  T "0 1 2 3 4 5 6 7 8 9 10 11 12 13 14 15 16 17 18".

Definition scenario_block : block :=
  mkBlock (T "3") meta19 [T "C 0 0 0"; T "H 1 0 0"; T "H 0 1 0"].

Definition scenario_input : text :=
  T "3" ++ [nl] ++ meta19 ++ [nl] ++
  T "C 0 0 0" ++ [nl] ++ T "H 1 0 0" ++ [nl] ++ T "H 0 1 0" ++ [nl].

Definition scenario_output : text :=
  T "3" ++ [nl] ++ T "meta:16 meta:18 Properties=species:S:1:pos:R:3" ++ [nl] ++
  T "C 0 0 0" ++ [nl] ++ T "H 1 0 0" ++ [nl] ++ T "H 0 1 0" ++ [nl].

(** The lines of a stream, each with its terminator when it has one. *)
Fixpoint lines (s : text) : list text :=
  match s with
  | [] => []
  | c :: s' =>
      if is_nl c then [c] :: lines s'
      else match lines s' with
           | [] => [[c]]
           | l :: ls => (c :: l) :: ls
           end
  end.

(** A block of the output: the count, the header and the atom lines. *)
Record written := mkWritten {
  w_count : Z;
  w_header : text;
  w_atoms : list text
}.

Definition render (b : written) : text :=
  render_block (w_count b) (w_header b) (w_atoms b).

(** The block [b] comes from the lines [k], [k + 1], ... of [content]:
    line [k], stripped, reads as its count, line [k + 1] gives its
    header, and its atom lines are the lines that follow, without their
    terminators. *)
Definition emitted_from (idx : list nat) (content : text) (b : written) : Prop :=
  nlfree (w_header b) /\ Forall nlfree (w_atoms b) /\
  length (w_atoms b) = Z.to_nat (w_count b) /\
  exists k first meta,
    lines content !! k = Some first /\
    int_ (strip first) = Some (w_count b) /\
    lines content !! S k = Some meta /\ w_header b = header_of idx meta /\
    w_atoms b =
      map rstrip_nl (take (Z.to_nat (w_count b)) (drop (S (S k)) (lines content))).

(** A literal piece of a template holds no newline. *)
Definition piece_nlfree (p : piece) : Prop :=
  match p with
  | Lit s => nlfree s
  | Field _ => True
  end.

(** The last entry of a log says that [file_path] was read to its end or
    that its processing failed. *)
Definition closes (file_path : Path) (e : event) : Prop :=
  (exists n out_path, e = InfoFinished file_path n out_path) \/
  (exists x, e = ExcFatal file_path x).

(** A world in which the first file operation fails and that holds, in
    the directory [data], the files [a.xyz] and [b.xyz]. *)
Definition faulty_world : world :=
  mkWorld {[ mkPath (T "data") (T "a.xyz") := input_text [water];
             mkPath (T "data") (T "b.xyz") := input_text [water] ]}
          {[ T "data" := [T "b.xyz"; T "a.xyz"] ]}
          [true] [] [].

(** A token: not empty and without whitespace. *)
Definition token (t : text) : Prop := t <> [] /\ Forall (fun c => isspace c = false) t.

(** A block as the older [reformat] expects it: [int] reads the count
    line as it stands, without [strip], as the number of atom lines, and
    the metadata line has at least 36 tokens separated by single spaces. *)
Definition plain_block (b : block) : Prop :=
  nlfree (count_line b) /\
  int_ (count_line b) = Some (Z.of_nat (length (atoms b))) /\
  Forall nlfree (atoms b) /\
  exists toks,
    meta_line b = join [space] toks /\ 36 <= length toks /\ Forall token toks.

#[global] Instance token_dec t : Decision (token t).
Proof. unfold token. apply _. Defined.

(** The file holds the blocks [bs]: it is their text, or their text
    without the final newline when its last line is not empty. *)
Definition holds_blocks (content : text) (bs : list block) : Prop :=
  content = input_text bs \/
  (content ++ [nl] = input_text bs /\ last content <> Some nl /\ content <> []).

(** The largest selected position. *)
Definition top (idx : list nat) : nat :=
  match idx with
  | [] => 0
  | i :: idx' => foldl Nat.max i idx'
  end.

(** What [process_file] meets in a file: a line that is blank or that
    [int] rejects once stripped, a block whose metadata line has too few
    tokens, or a well-formed block. *)
Inductive item :=
  | Filler (l : text)
  | Short (b : block)
  | Good (b : block).

Definition item_text (it : item) : text :=
  match it with
  | Filler l => l ++ [nl]
  | Short b | Good b => block_text b
  end.

(** A block [process_file] passes over: its count line reads as the
    number of its atom lines, and its metadata line has no token at the
    largest selected position. *)
Definition short_block (idx : list nat) (b : block) : Prop :=
  nlfree (count_line b) /\
  Z.to_nat <$> int_ (strip (count_line b)) = Some (length (atoms b)) /\
  nlfree (meta_line b) /\
  length (split_ws (meta_line b)) <= top idx /\
  Forall nlfree (atoms b).

Definition item_ok (idx : list nat) (it : item) : Prop :=
  match it with
  | Filler l => nlfree l /\ int_ (strip l) = None
  | Short b => short_block idx b
  | Good b => well_formed idx b
  end.

(** The well-formed blocks among the items. *)
Definition good_blocks (items : list item) : list block :=
  omap (fun it => match it with Good b => Some b | _ => None end) items.

(** The warnings an item costs. *)
Definition item_log (idx : list nat) (fp : Path) (it : item) : list event :=
  match it with
  | Filler l =>
      match strip l with
      | [] => []
      | first => [WarnCount first fp]
      end
  | Short b => [WarnTokens (length (split_ws (meta_line b))) (top idx + 1) fp]
  | Good _ => []
  end.

Definition add_logs (evs : list event) (w : world) : world :=
  mkWorld (fs w) (dirs w) (faults w) (log w ++ evs) (stats w).

#[global] Instance short_block_dec idx b : Decision (short_block idx b).
Proof. unfold short_block. apply _. Defined.

#[global] Instance item_ok_dec idx it : Decision (item_ok idx it).
Proof. destruct it; simpl; apply _. Defined.

(** A well-formed block as [process_file] writes it, read as a block
    again. *)
Definition written_block (idx : list nat) (b : block) : block :=
  mkBlock (str_Z (Z.of_nat (length (atoms b)))) (header_of idx (meta_line b))
    (atoms b).

(** The computation keeps every world it starts from in relation [R] with
    the world it leaves. *)
Definition within {A} (R : world -> world -> Prop) (m : M A) : Prop :=
  forall w, R w (m w).2.

(** The warnings of the loop of [process_file]. *)
Definition is_warning (e : event) : Prop :=
  match e with
  | WarnCount _ _ | WarnMetaEOF _ | WarnTokens _ _ _ | WarnAtomsEOF _ _ _ => True
  | _ => False
  end.

(** From [w] to [w'] no file but [out] has changed, the listings are
    the same or list [out] in addition, the schedule of [is_file] is the
    same, and the log has grown by entries that satisfy [P]. *)
Definition touches (out : Path) (P : event -> Prop) (w w' : world) : Prop :=
  (forall p, p <> out -> fs w' !! p = fs w !! p) /\
  (dirs w' = dirs w \/ dirs w' = add_entry out (dirs w)) /\
  stats w' = stats w /\
  exists evs, log w' = log w ++ evs /\ Forall P evs.

(** How the log of [process_file] ends: with the count of blocks, with
    the failure caught, or with both when closing a file fails after
    the count was logged. *)
Definition closing (file_path out_path : Path) (evs : list event) : Prop :=
  (exists n, evs = [InfoFinished file_path n out_path]) \/
  (exists x, evs = [ExcFatal file_path x]) \/
  (exists n, evs = [InfoFinished file_path n out_path; ExcFatal file_path OSError]).

(** The files on which [process_file] was started, as the log tells. *)
Definition started (evs : list event) : list Path :=
  omap (fun e => match e with InfoProcessing p => Some p | _ => None end) evs.

(** From [w] to [w'] no file outside the directory [d] has changed. *)
Definition outside (d : text) (w w' : world) : Prop :=
  forall p, parent p <> d -> fs w' !! p = fs w !! p.

(** A world without faults that holds, in the directory [data], the
    files [b.xyz], [a.xyz] and [notes.txt], listed in this order. *)
Definition listed_world : world :=
  mkWorld {[ mkPath (T "data") (T "a.xyz") := input_text [water];
             mkPath (T "data") (T "b.xyz") := input_text [water];
             mkPath (T "data") (T "notes.txt") := T "to do" ]}
          {[ T "data" := [T "b.xyz"; T "notes.txt"; T "a.xyz"] ]}
          [] [] [].

(** The address [reformat] writes to: [None] stands for [IndexError]. *)
Definition reformat_address (file_address : text) : option text :=
  let a := split_on dot file_address in
  a0 ← a !! 0; a1 ← a !! 1; a2 ← a !! 2;
  Some (a0 ++ [dot] ++ a1 ++ REFORMAT ++ [dot] ++ a2).

(** What the loop over the atom lines of [reformat] gathers from
    position [f]: the text of [n] calls of [readline], and the position
    after them. *)
Fixpoint atoms_read (n : nat) (f atoms : text) : text * text :=
  match n with
  | 0 => (atoms, f)
  | S n' => atoms_read n' (readline_at f).2 (atoms ++ (readline_at f).1)
  end.

(** From [w] to [w'] nothing has been logged. *)
Definition same_log (w w' : world) : Prop := log w' = log w.

(** A computation leaves a world without faults as it is in this
    respect. *)
Definition calm {A} (m : M A) : Prop := forall w, quiet w -> quiet (m w).2.

(** How the part of [process_file] under [try] ends, from a log [l0]:
    with the count logged, with an exception, or with an exception
    from closing a file after the count was logged. *)
Definition ends (file_path out_path : Path) (l0 : list event)
    (r : result unit) (l : list event) : Prop :=
  exists evs, Forall is_warning evs /\
    ((exists n, r = Ok tt /\ l = l0 ++ evs ++ [InfoFinished file_path n out_path]) \/
     (exists x, r = Raise x /\ l = l0 ++ evs) \/
     (exists n, r = Raise OSError /\
        l = l0 ++ evs ++ [InfoFinished file_path n out_path])).

(** A world without failing file operations that holds, in the
    directory [data], the files [a.xyz], [b.xyz] and [c.xyz], and in
    which the second look of [is_file] at a file fails. *)
Definition stat_fault_world : world :=
  mkWorld {[ mkPath (T "data") (T "a.xyz") := input_text [water];
             mkPath (T "data") (T "b.xyz") := input_text [water];
             mkPath (T "data") (T "c.xyz") := input_text [water] ]}
          {[ T "data" := [T "a.xyz"; T "b.xyz"; T "c.xyz"] ]}
          [] [] [false; true].

(** A world that holds one file and in which the first thirteen file
    operations succeed and the fourteenth fails. *)
Definition close_fault_world : world :=
  mkWorld {[ sample_path := input_text [water] ]} ∅
          (replicate 13 false ++ [true]) [] [].

(** How [reformat] ends, from a log [l0]: it returns and has printed
    one error, or it raises [OSError], from an open with nothing printed
    or from closing a file after the error was printed. *)
Definition printed_once (addr : text) (l0 : list event)
    (r : result unit) (l : list event) : Prop :=
  (r = Ok tt /\ exists e, l = l0 ++ [PrintError addr e]) \/
  (r = Raise OSError /\ (l = l0 \/ exists e, l = l0 ++ [PrintError addr e])).

(** * Properties *)

(** ** The model on small inputs *)

Example int_examples :
  int_ (T "3") = Some 3%Z /\ int_ (T " 12 ") = Some 12%Z /\
  int_ (T "-3") = Some (-3)%Z /\ int_ (T "+07") = Some 7%Z /\
  int_ (T "1_000") = Some 1000%Z /\ int_ (T "abc") = None /\
  int_ (T "1__0") = None /\ int_ (T "_1") = None /\ int_ (T "1_") = None /\
  int_ (T "-") = None /\ int_ (T "3.0") = None /\ int_ [] = None /\
  int_ (ascii_of_nat 28 :: T "3") = None /\
  int_ (strip (ascii_of_nat 28 :: T "3")) = Some 3%Z /\
  int_ (T "3" ++ [nl]) = Some 3%Z.
Proof. vm_compute. repeat split. Qed.

Example str_examples :
  str_Z 0 = T "0" /\ str_Z 35 = T "35" /\ str_Z (-3) = T "-3".
Proof. vm_compute. repeat split. Qed.

Example split_examples :
  split_on dot (T "a.b..c") = [T "a"; T "b"; []; T "c"] /\
  split_on dot [] = [[]] /\
  split_ws (T "  ab  c d ") = [T "ab"; T "c"; T "d"] /\
  split_ws (T "   ") = [] /\
  strip (T "  a b  ") = T "a b" /\
  readline_at (T "ab" ++ [nl] ++ T "cd") = (T "ab" ++ [nl], T "cd") /\
  readline_at (T "cd") = (T "cd", []) /\
  rstrip_nl (T "ab" ++ [nl]) = T "ab".
Proof. vm_compute. repeat split. Qed.

Example make_output_name_examples :
  make_output_name false (mkPath (T "d") (T "name.part.ext"))
    = Some (mkPath (T "d") (T "name.part_reformat.ext")) /\
  make_output_name false (mkPath (T "d") (T "a.b.c.d"))
    = Some (mkPath (T "d") (T "a.b.c_reformat.d")) /\
  make_output_name false (mkPath (T "d") (T "data.xyz"))
    = Some (mkPath (T "d") (T "data_reformat.xyz")) /\
  make_output_name false (mkPath (T "d") (T "data"))
    = Some (mkPath (T "d") (T "data_reformat")) /\
  make_output_name false (mkPath (T "d") (T ".hidden"))
    = Some (mkPath (T "d") (T ".hidden_reformat")) /\
  make_output_name false (mkPath (T "d") (T "data."))
    = Some (mkPath (T "d") (T "data._reformat")) /\
  make_output_name true (mkPath (T "d") (T "data."))
    = Some (mkPath (T "d") (T "data_reformat.")) /\
  make_output_name false (mkPath (T "d") []) = None /\
  Path_of_str (T "d.e/a.b.c") = mkPath (T "d.e") (T "a.b.c") /\
  Path_of_str (T "a.b.c") = mkPath (T ".") (T "a.b.c").
Proof. vm_compute. repeat split. Qed.

(** ** Text *)

Lemma is_nl_true c : is_nl c = true <-> c = nl.
Proof. unfold is_nl. apply bool_decide_eq_true. Qed.

Lemma is_nl_false c : is_nl c = false <-> c <> nl.
Proof. unfold is_nl. apply bool_decide_eq_false. Qed.

Lemma readline_at_line l r :
  nlfree l -> readline_at (l ++ nl :: r) = (l ++ [nl], r).
Proof.
  unfold nlfree. induction l as [|c l IH]; intros Hl; simpl.
  - reflexivity.
  - assert (c <> nl) as Hc by (intros ->; apply Hl; left).
    apply is_nl_false in Hc. rewrite Hc, IH; [reflexivity|].
    intros Hin. apply Hl. by right.
Qed.

Lemma readline_at_last l : nlfree l -> readline_at l = (l, []).
Proof.
  unfold nlfree. induction l as [|c l IH]; intros Hl; simpl.
  - reflexivity.
  - assert (c <> nl) as Hc by (intros ->; apply Hl; left).
    apply is_nl_false in Hc. rewrite Hc, IH; [reflexivity|].
    intros Hin. apply Hl. by right.
Qed.

Lemma readline_at_app s : (readline_at s).1 ++ (readline_at s).2 = s.
Proof.
  induction s as [|c s IH]; simpl; [reflexivity|].
  destruct (is_nl c); simpl; [reflexivity|].
  destruct (readline_at s) as [l r]. simpl in *. by rewrite IH.
Qed.

Lemma readline_at_nil s : (readline_at s).1 = [] -> s = [].
Proof.
  destruct s as [|c s]; simpl; [reflexivity|].
  destruct (is_nl c); simpl; [discriminate|].
  destruct (readline_at s). discriminate.
Qed.

(** A line read is free of newlines up to its last character. *)
Lemma readline_at_shape s :
  (exists l, nlfree l /\ (readline_at s).1 = l ++ [nl]) \/
  (nlfree (readline_at s).1 /\ (readline_at s).2 = []).
Proof.
  induction s as [|c s IH]; simpl.
  - right. split; [apply not_elem_of_nil | reflexivity].
  - destruct (is_nl c) eqn:Hc; simpl.
    + left. exists []. apply is_nl_true in Hc. subst.
      split; [apply not_elem_of_nil | reflexivity].
    + apply is_nl_false in Hc. destruct (readline_at s) as [l r]. simpl in *.
      destruct IH as [(l' & Hl' & ->) | [Hl ->]].
      * left. exists (c :: l'). split; [|reflexivity].
        apply not_elem_of_cons. split; [congruence | exact Hl'].
      * right. split; [|reflexivity].
        apply not_elem_of_cons. split; [congruence | exact Hl].
Qed.

Lemma lstrip_by_app_all f s t :
  forallb f s = true -> lstrip_by f (s ++ t) = lstrip_by f t.
Proof.
  induction s as [|c s IH]; simpl; [reflexivity|].
  intros H. apply andb_prop in H as [Hc Hs]. rewrite Hc. auto.
Qed.

Lemma rstrip_by_snoc f s c : f c = true -> rstrip_by f (s ++ [c]) = rstrip_by f s.
Proof.
  intros Hc. unfold rstrip_by. rewrite rev_app_distr. simpl. by rewrite Hc.
Qed.

Lemma rstrip_by_keep f s c : f c = false -> rstrip_by f (s ++ [c]) = s ++ [c].
Proof.
  intros Hc. unfold rstrip_by. rewrite rev_app_distr. simpl. rewrite Hc.
  simpl. by rewrite rev_involutive.
Qed.

Lemma isspace_nl : isspace nl = true.
Proof. reflexivity. Qed.

Lemma strip_snoc_space s c : isspace c = true -> strip (s ++ [c]) = strip s.
Proof.
  intros Hc. unfold strip.
  induction s as [|x s IH]; simpl.
  - by rewrite Hc.
  - destruct (isspace x) eqn:Hx; [exact IH|].
    change (x :: s ++ [c]) with ((x :: s) ++ [c]). by apply rstrip_by_snoc.
Qed.

Lemma strip_line l : strip (l ++ [nl]) = strip l.
Proof. apply strip_snoc_space, isspace_nl. Qed.

Lemma rstrip_nl_line l : nlfree l -> rstrip_nl (l ++ [nl]) = l.
Proof.
  intros Hl. unfold rstrip_nl. rewrite rstrip_by_snoc by (by apply is_nl_true).
  destruct l as [|c l _] using rev_ind; [reflexivity|].
  apply rstrip_by_keep, is_nl_false. intros ->. apply Hl. set_solver.
Qed.

Lemma rstrip_nl_nlfree l : nlfree l -> rstrip_nl l = l.
Proof.
  intros Hl. unfold rstrip_nl.
  destruct l as [|c l _] using rev_ind; [reflexivity|].
  apply rstrip_by_keep, is_nl_false. intros ->. apply Hl. set_solver.
Qed.

(** ** The monad *)

Local Open Scope M_scope.

Lemma bind_ret {A B} (a : A) (k : A -> M B) w : bind (ret a) k w = k a w.
Proof. reflexivity. Qed.

Lemma bind_logger {B} e (k : unit -> M B) w :
  bind (logger e) k w = k tt (add_log e w).
Proof. reflexivity. Qed.

Lemma bind_assoc {A B C} (m : M A) (f : A -> M B) (g : B -> M C) w :
  bind (bind m f) g w = bind m (fun a => bind (f a) g) w.
Proof. unfold bind. destruct (m w) as [[a|e|] w']; reflexivity. Qed.

Lemma bind_ok {A B} (m : M A) (k : A -> M B) w a w' :
  m w = (Ok a, w') -> bind m k w = k a w'.
Proof. unfold bind. by intros ->. Qed.

Lemma bind_inv_ok {A B} (m : M A) (k : A -> M B) w b w' :
  bind m k w = (Ok b, w') ->
  exists a w1, m w = (Ok a, w1) /\ k a w1 = (Ok b, w').
Proof.
  unfold bind. destruct (m w) as [[a|e|] w1]; intros H; try discriminate.
  by exists a, w1.
Qed.

Lemma quiet_add_log e w : quiet (add_log e w) <-> quiet w.
Proof. reflexivity. Qed.

Lemma quiet_append_file p s w : quiet (append_file p s w) <-> quiet w.
Proof. reflexivity. Qed.

Lemma io_quiet w : quiet w -> io w = (Ok tt, w).
Proof. unfold quiet, io. by intros ->. Qed.

Lemma bind_io {B} (k : unit -> M B) w : quiet w -> bind io k w = k tt w.
Proof. intros H. unfold bind. by rewrite io_quiet. Qed.

Lemma bind_readline {B} fin (k : text * text -> M B) w :
  quiet w -> bind (readline fin) k w = k (readline_at fin) w.
Proof. intros H. unfold readline. rewrite bind_assoc, bind_io by done. reflexivity. Qed.

Lemma bind_write {B} p s (k : unit -> M B) w :
  quiet w -> bind (write p s) k w = k tt (append_file p s w).
Proof. intros H. unfold write. rewrite bind_assoc, bind_io by done. reflexivity. Qed.

Lemma bind_open_w {B} p (k : unit -> M B) w :
  quiet w -> bind (open_w p) k w = k tt (create p w).
Proof. intros H. unfold open_w. rewrite bind_assoc, bind_io by done. reflexivity. Qed.

Lemma bind_open_r {B} p (k : text -> M B) w content :
  quiet w -> fs w !! p = Some content -> bind (open_r p) k w = k content w.
Proof.
  intros H Hp. unfold open_r. rewrite bind_assoc, bind_io by done.
  unfold bind. by rewrite Hp.
Qed.

Lemma bind_skip_lines {B} n fin (k : text -> M B) w :
  quiet w -> bind (skip_lines n fin) k w = k (drop_lines n fin) w.
Proof.
  intros H. revert fin. induction n as [|n IH]; intros fin; simpl; [reflexivity|].
  rewrite bind_assoc, bind_readline by done. apply IH.
Qed.

(** *** Worlds only grow *)

Lemma extends_same w w' :
  dirs w' = dirs w -> fs w' = fs w -> log w' = log w -> extends w w'.
Proof.
  intros Hd Hf Hl. split; [|split].
  - intros d names H. exists []. by rewrite Hd, app_nil_r.
  - intros p. by rewrite Hf.
  - by rewrite Hl.
Qed.

Lemma extends_refl w : extends w w.
Proof. by apply extends_same. Qed.

Lemma extends_trans w1 w2 w3 : extends w1 w2 -> extends w2 w3 -> extends w1 w3.
Proof.
  intros (Hd & Hf & Hl) (Hd' & Hf' & Hl'). split; [|split].
  - intros d names H. destruct (Hd d names H) as [more Hm].
    destruct (Hd' d _ Hm) as [more' Hm']. exists (more ++ more').
    by rewrite app_assoc.
  - auto.
  - by etrans.
Qed.

Lemma add_entry_grows p d dir names :
  d !! dir = Some names ->
  exists more, add_entry p d !! dir = Some (names ++ more).
Proof.
  intros H. unfold add_entry.
  destruct (d !! parent p) as [ns|] eqn:Ep; [|exists []; by rewrite app_nil_r].
  case_bool_decide as Hin.
  { exists []. by rewrite app_nil_r. }
  destruct (decide (parent p = dir)) as [<-|Hne].
  - rewrite lookup_insert_eq. rewrite H in Ep. injection Ep as <-. eauto.
  - rewrite lookup_insert_ne by done. exists []. by rewrite app_nil_r.
Qed.

Lemma add_entry_twice p d : add_entry p (add_entry p d) = add_entry p d.
Proof.
  unfold add_entry at 2.
  destruct (d !! parent p) as [ns|] eqn:Ep.
  - case_bool_decide as Hin.
    + unfold add_entry. by rewrite Ep, bool_decide_true.
    + unfold add_entry. rewrite lookup_insert_eq, Ep.
      rewrite bool_decide_true by (apply elem_of_app; right; by left).
      by rewrite bool_decide_false.
  - unfold add_entry. by rewrite Ep.
Qed.

Lemma grows_ret {A} (a : A) : grows (ret a).
Proof. intros w. apply extends_refl. Qed.

Lemma grows_raise {A} e : grows (@raise A e).
Proof. intros w. apply extends_refl. Qed.

Lemma grows_bind {A B} (m : M A) (k : A -> M B) :
  grows m -> (forall a, grows (k a)) -> grows (bind m k).
Proof.
  intros Hm Hk w. unfold bind. specialize (Hm w).
  destruct (m w) as [[a|e|] w1]; simpl in *; try done.
  eapply extends_trans; [exact Hm | apply Hk].
Qed.

Lemma grows_try {A} (m : M A) (h : exn -> M A) :
  grows m -> (forall e, grows (h e)) -> grows (try_except m h).
Proof.
  intros Hm Hh w. unfold try_except. specialize (Hm w).
  destruct (m w) as [[a|e|] w1]; simpl in *; try done.
  eapply extends_trans; [exact Hm | apply Hh].
Qed.

Lemma grows_logger e : grows (logger e).
Proof.
  intros w. split; [|split]; simpl; auto.
  - intros d names H. exists []. by rewrite app_nil_r.
  - by apply prefix_app_r.
Qed.

Lemma grows_io : grows io.
Proof.
  intros w. unfold io.
  destruct (faults w) as [|[] fl]; by apply extends_same.
Qed.

Lemma grows_open_r p : grows (open_r p).
Proof.
  apply grows_bind; [apply grows_io|]. intros _ w.
  destruct (fs w !! p); apply extends_refl.
Qed.

Lemma insert_is_Some (p q : Path) (s : text) (f : gmap Path text) :
  is_Some (f !! q) -> is_Some (<[p := s]> f !! q).
Proof.
  intros Hq. destruct (decide (p = q)) as [->|Hne].
  - rewrite lookup_insert_eq. eauto.
  - by rewrite lookup_insert_ne.
Qed.

Lemma grows_insert p s w : extends w (set_fs (<[p := s]> (fs w)) w).
Proof.
  split; [|split]; simpl; auto.
  - intros d names H. exists []. by rewrite app_nil_r.
  - intros q. apply insert_is_Some.
Qed.

Lemma grows_create p w : extends w (create p w).
Proof.
  split; [|split]; simpl; auto.
  - intros d names. apply add_entry_grows.
  - intros q. apply insert_is_Some.
Qed.

Lemma grows_open_w p : grows (open_w p).
Proof.
  apply grows_bind; [apply grows_io|]. intros _ w. apply grows_create.
Qed.

Lemma grows_finally {A} (m : M A) (r : M unit) :
  grows m -> grows r -> grows (finally m r).
Proof.
  intros Hm Hr w. unfold finally. specialize (Hm w).
  destruct (m w) as [[a|e|] w1]; simpl in *; try done;
    specialize (Hr w1); destruct (r w1) as [[[]|e'|] w2]; simpl in *;
    by eapply extends_trans.
Qed.

Lemma grows_close : grows close.
Proof. apply grows_io. Qed.

Lemma grows_readline fin : grows (readline fin).
Proof. apply grows_bind; [apply grows_io|]. intros _. apply grows_ret. Qed.

Lemma grows_write p s : grows (write p s).
Proof.
  apply grows_bind; [apply grows_io|]. intros _ w. apply grows_insert.
Qed.

Lemma grows_listdir d : grows (listdir d).
Proof. intros w. unfold listdir. destruct (dirs w !! d); apply extends_refl. Qed.

Lemma grows_is_file ds p : grows (is_file ds p).
Proof.
  intros w. unfold is_file.
  destruct (stats w) as [|[] sl]; [apply extends_refl | |];
    destruct ds; by apply extends_same.
Qed.

Lemma grows_lift {A} e (o : option A) : grows (lift e o).
Proof. destruct o; [apply grows_ret | apply grows_raise]. Qed.

Lemma grows_max_ l : grows (max_ l).
Proof. destruct l; [apply grows_raise | apply grows_ret]. Qed.

Lemma grows_diverge {A} : grows (fun w => (@Diverge A, w)).
Proof. intros w. apply extends_refl. Qed.

Create HintDb grows.

#[local] Hint Resolve grows_ret grows_raise grows_logger grows_io grows_open_r
  grows_open_w grows_readline grows_write grows_listdir grows_is_file
  grows_lift grows_max_ grows_diverge grows_close : grows.

(** Goes through a computation built from the primitives. *)
Ltac grows_step :=
  match goal with
  | |- grows (bind _ _) => apply grows_bind; [|intros]
  | |- grows (try_except _ _) => apply grows_try; [|intros]
  | |- grows (finally _ _) => apply grows_finally
  | |- grows (match ?x with _ => _ end) => destruct x
  | |- grows (if ?x then _ else _) => destruct x
  | |- grows (let '(_, _) := ?x in _) => destruct x
  | |- grows _ => solve [auto with grows]
  end.

Lemma grows_skip_lines n fin : grows (skip_lines n fin).
Proof.
  revert fin. induction n as [|n IH]; intros fin; simpl; repeat grows_step.
Qed.

Lemma grows_read_atom_lines eof n fin acc : grows (read_atom_lines eof n fin acc).
Proof.
  revert fin acc. induction n as [|n IH]; intros fin acc; simpl;
    repeat grows_step.
Qed.

Lemma grows_write_lines p ls : grows (write_lines p ls).
Proof. induction ls as [|l ls IH]; simpl; repeat grows_step. Qed.

#[local] Hint Resolve grows_skip_lines grows_read_atom_lines grows_write_lines
  : grows.

Lemma grows_body idx fp out fin bc : grows (body idx fp out fin bc).
Proof. unfold body. repeat grows_step. Qed.

Lemma grows_while_true idx fuel fp out fin bc :
  grows (while_true idx fuel fp out fin bc).
Proof.
  revert fin bc. induction fuel as [|fuel IH]; intros fin bc; simpl.
  - apply grows_diverge.
  - apply grows_bind; [apply grows_body|]. intros [bc'|fin' bc']; auto with grows.
Qed.

Lemma grows_process_file ds idx fp od : grows (process_file ds idx fp od).
Proof.
  unfold process_file, process_blocks.
  repeat first [apply grows_while_true | grows_step].
Qed.

(** *** Values returned *)

Lemma post_ret {A} (a : A) (Q : A -> Prop) : Q a -> post (ret a) Q.
Proof. intros H w a' w' [= <- _]. exact H. Qed.

Lemma post_bind {A B} (m : M A) (k : A -> M B) (P : A -> Prop) (Q : B -> Prop) :
  post m P -> (forall a, P a -> post (k a) Q) -> post (bind m k) Q.
Proof.
  intros Hm Hk w b w' H. apply bind_inv_ok in H as (a & w1 & Ha & Hb).
  eapply Hk; [eapply Hm|]; eauto.
Qed.

Lemma post_true {A} (m : M A) : post m (fun _ => True).
Proof. by intros w a w' _. Qed.

Lemma post_readline fin : post (readline fin) (fun p => p = readline_at fin).
Proof.
  unfold readline. eapply post_bind; [apply post_true|].
  intros _ _. by apply post_ret.
Qed.

Lemma readline_at_length s :
  length (readline_at s).1 + length (readline_at s).2 = length s.
Proof. rewrite <- length_app. by rewrite readline_at_app. Qed.

Lemma post_skip_lines n fin :
  post (skip_lines n fin) (fun f => length f <= length fin).
Proof.
  revert fin. induction n as [|n IH]; intros fin; simpl.
  - by apply post_ret.
  - eapply post_bind; [apply post_readline|]. intros p ->.
    intros w0 r0 w1 H. apply IH in H.
    pose proof (readline_at_length fin). lia.
Qed.

Lemma post_read_atom_lines eof n fin acc :
  post (read_atom_lines eof n fin acc) (fun p => length p.2 <= length fin).
Proof.
  revert fin acc. induction n as [|n IH]; intros fin acc; simpl.
  - by apply post_ret.
  - eapply post_bind; [apply post_readline|]. intros p ->.
    pose proof (readline_at_length fin) as Hlen.
    destruct (readline_at fin) as [line fin']. simpl in Hlen.
    destruct line.
    + eapply post_bind; [apply post_true|]. intros _ _.
      apply post_ret. simpl in *. lia.
    + intros w0 r0 w1 H. apply IH in H. simpl in *. lia.
Qed.

(** Every pass that continues has consumed at least one character. *)
Lemma body_progress idx fp out fin bc :
  post (body idx fp out fin bc)
    (fun c => match c with
              | Continue fin' _ => length fin' < length fin
              | Break _ => True
              end).
Proof.
  unfold body. eapply post_bind; [apply post_readline|]. intros p ->.
  pose proof (readline_at_length fin) as Hlen.
  destruct (readline_at fin) as [first fin1]. simpl in Hlen.
  destruct first as [|c first]; [by apply post_ret|].
  simpl in Hlen.
  destruct (strip (c :: first)) as [|c' first']; [apply post_ret; lia|].
  destruct (int_ (c' :: first')) as [n|].
  2:{ eapply post_bind; [apply post_true|]. intros _ _. apply post_ret. lia. }
  eapply post_bind; [apply post_readline|]. intros p ->.
  pose proof (readline_at_length fin1) as Hlen1.
  destruct (readline_at fin1) as [meta fin2]. simpl in Hlen1.
  destruct meta as [|m meta].
  { eapply post_bind; [apply post_true|]. intros _ _. by apply post_ret. }
  eapply post_bind; [apply post_true|]. intros mx _.
  destruct (bool_decide _).
  { eapply post_bind; [apply post_true|]. intros _ _.
    eapply post_bind; [apply post_skip_lines|]. intros f Hf.
    apply post_ret. simpl in *. lia. }
  destruct (select _ _).
  2:{ eapply post_bind; [apply post_true|]. intros _ _.
      eapply post_bind; [apply post_skip_lines|]. intros f Hf.
      apply post_ret. simpl in *. lia. }
  eapply post_bind; [apply post_read_atom_lines|]. intros [r f] Hf.
  destruct r; [|by apply post_ret].
  eapply post_bind; [apply post_true|]. intros _ _.
  eapply post_bind; [apply post_true|]. intros _ _.
  eapply post_bind; [apply post_true|]. intros _ _.
  apply post_ret. simpl in *. lia.
Qed.

(** *** Loops end *)

Lemma safe_ret {A} (a : A) : safe (ret a).
Proof. by intros w. Qed.

Lemma safe_raise {A} e : safe (@raise A e).
Proof. by intros w. Qed.

Lemma safe_bind {A B} (m : M A) (k : A -> M B) :
  safe m -> (forall a, safe (k a)) -> safe (bind m k).
Proof.
  intros Hm Hk w. unfold bind. specialize (Hm w).
  destruct (m w) as [[a|e|] w1]; simpl in *; try done. apply Hk.
Qed.

Lemma safe_try {A} (m : M A) (h : exn -> M A) :
  safe m -> (forall e, safe (h e)) -> safe (try_except m h).
Proof.
  intros Hm Hh w. unfold try_except. specialize (Hm w).
  destruct (m w) as [[a|e|] w1]; simpl in *; try done. apply Hh.
Qed.

Lemma safe_logger e : safe (logger e).
Proof. by intros w. Qed.

Lemma safe_io : safe io.
Proof. intros w. unfold io. by destruct (faults w) as [|[] fl]. Qed.

Lemma safe_open_r p : safe (open_r p).
Proof.
  apply safe_bind; [apply safe_io|]. intros _ w. by destruct (fs w !! p).
Qed.

Lemma safe_open_w p : safe (open_w p).
Proof. apply safe_bind; [apply safe_io|]. by intros _ w. Qed.

Lemma safe_readline fin : safe (readline fin).
Proof. apply safe_bind; [apply safe_io|]. intros _. apply safe_ret. Qed.

Lemma safe_write p s : safe (write p s).
Proof. apply safe_bind; [apply safe_io|]. by intros _ w. Qed.

Lemma safe_listdir d : safe (listdir d).
Proof. intros w. unfold listdir. by destruct (dirs w !! d). Qed.

Lemma safe_is_file ds p : safe (is_file ds p).
Proof. intros w. unfold is_file. by destruct (stats w) as [|[] sl], ds. Qed.

Lemma safe_lift {A} e (o : option A) : safe (lift e o).
Proof. destruct o; [apply safe_ret | apply safe_raise]. Qed.

Lemma safe_max_ l : safe (max_ l).
Proof. destruct l; [apply safe_raise | apply safe_ret]. Qed.

Lemma safe_finally {A} (m : M A) (r : M unit) :
  safe m -> safe r -> safe (finally m r).
Proof.
  intros Hm Hr w. unfold finally. specialize (Hm w).
  destruct (m w) as [[a|e|] w1]; simpl in *; try done;
    specialize (Hr w1); by destruct (r w1) as [[[]|e'|] w2].
Qed.

Lemma safe_close : safe close.
Proof. apply safe_io. Qed.

Create HintDb safe.

#[local] Hint Resolve safe_ret safe_raise safe_logger safe_io safe_open_r
  safe_open_w safe_readline safe_write safe_listdir safe_is_file safe_lift
  safe_max_ safe_close : safe.

Ltac safe_step :=
  match goal with
  | |- safe (bind _ _) => apply safe_bind; [|intros]
  | |- safe (try_except _ _) => apply safe_try; [|intros]
  | |- safe (finally _ _) => apply safe_finally
  | |- safe (match ?x with _ => _ end) => destruct x
  | |- safe (if ?x then _ else _) => destruct x
  | |- safe (let '(_, _) := ?x in _) => destruct x
  | |- safe _ => solve [auto with safe]
  end.

Lemma safe_skip_lines n fin : safe (skip_lines n fin).
Proof.
  revert fin. induction n as [|n IH]; intros fin; simpl; repeat safe_step.
Qed.

Lemma safe_read_atom_lines eof n fin acc : safe (read_atom_lines eof n fin acc).
Proof.
  revert fin acc. induction n as [|n IH]; intros fin acc; simpl;
    repeat safe_step.
Qed.

Lemma safe_write_lines p ls : safe (write_lines p ls).
Proof. induction ls as [|l ls IH]; simpl; repeat safe_step. Qed.

#[local] Hint Resolve safe_skip_lines safe_read_atom_lines safe_write_lines
  : safe.

Lemma safe_body idx fp out fin bc : safe (body idx fp out fin bc).
Proof. unfold body. repeat safe_step. Qed.

(** With more passes granted than the stream has characters, the loop
    comes to its end. *)
Lemma safe_while_true idx fuel fp out fin bc :
  length fin < fuel -> safe (while_true idx fuel fp out fin bc).
Proof.
  revert fin bc. induction fuel as [|fuel IH]; intros fin bc Hlen; [lia|].
  intros w. simpl. unfold bind.
  pose proof (safe_body idx fp out fin bc w) as Hs.
  pose proof (body_progress idx fp out fin bc w) as Hp.
  destruct (body idx fp out fin bc w) as [[[bc'|fin' bc']|e|] w1];
    simpl in *; try done.
  apply IH. specialize (Hp _ _ eq_refl). simpl in Hp. lia.
Qed.

(** Beyond that bound, the number of passes granted does not matter. *)
Lemma while_true_fuel idx f1 f2 fp out fin bc w :
  length fin < f1 -> length fin < f2 ->
  while_true idx f1 fp out fin bc w = while_true idx f2 fp out fin bc w.
Proof.
  revert f2 fin bc w. induction f1 as [|f1 IH]; intros f2 fin bc w H1 H2; [lia|].
  destruct f2 as [|f2]; [lia|]. simpl. unfold bind.
  pose proof (body_progress idx fp out fin bc w) as Hp.
  destruct (body idx fp out fin bc w) as [[[bc'|fin' bc']|e|] w1];
    simpl in *; try done.
  specialize (Hp _ _ eq_refl). simpl in Hp. apply IH; lia.
Qed.

(** The loop, unrolled once. *)
Lemma process_blocks_unfold idx fp out fin bc w :
  process_blocks idx fp out fin bc w =
  bind (body idx fp out fin bc)
    (fun c => match c with
              | Break bc' => ret bc'
              | Continue fin' bc' => process_blocks idx fp out fin' bc'
              end) w.
Proof.
  unfold process_blocks.
  change (while_true idx (S (length fin)) fp out fin bc w) with
    (bind (body idx fp out fin bc)
       (fun c => match c with
                 | Break bc' => ret bc'
                 | Continue fin' bc' => while_true idx (length fin) fp out fin' bc'
                 end) w).
  unfold bind.
  pose proof (body_progress idx fp out fin bc w) as Hp.
  destruct (body idx fp out fin bc w) as [[[bc'|fin' bc']|e|] w1];
    cbv beta iota; try done.
  specialize (Hp _ _ eq_refl). cbv beta iota in Hp. apply while_true_fuel; lia.
Qed.

Lemma safe_process_blocks idx fp out fin bc :
  safe (process_blocks idx fp out fin bc).
Proof. apply safe_while_true. lia. Qed.

Lemma grows_process_blocks idx fp out fin bc :
  grows (process_blocks idx fp out fin bc).
Proof. apply grows_while_true. Qed.

Lemma safe_process_file ds idx fp od : safe (process_file ds idx fp od).
Proof.
  unfold process_file.
  repeat first [apply safe_process_blocks | safe_step].
Qed.

(** ** One pass of the loop when no operation fails *)

Lemma bind_read_atom_lines {B} eof n fin acc
    (k : option (list text) * text -> M B) w :
  quiet w ->
  bind (read_atom_lines eof n fin acc) k w =
  k (lines_read n fin acc)
    (match (lines_read n fin acc).1 with
     | Some _ => w
     | None => add_log eof w
     end).
Proof.
  intros H. revert fin acc. induction n as [|n IH]; intros fin acc; simpl.
  - reflexivity.
  - rewrite bind_assoc, bind_readline by done.
    destruct (readline_at fin) as [line fin']. destruct line as [|c line].
    + reflexivity.
    + apply IH.
Qed.

Lemma append_file_app p s t w :
  append_file p t (append_file p s w) = append_file p (s ++ t) w.
Proof.
  unfold append_file, set_fs. simpl. f_equal.
  rewrite lookup_insert_eq, insert_insert_eq. simpl. by rewrite app_assoc.
Qed.

Lemma append_file_nil p w :
  is_Some (fs w !! p) -> append_file p [] w = w.
Proof.
  intros [s Hs]. unfold append_file, set_fs. rewrite Hs. simpl.
  rewrite app_nil_r, insert_id by done. by destruct w.
Qed.

Lemma bind_write_lines {B} p ls (k : unit -> M B) w s :
  quiet w ->
  bind (write_lines p ls) k (append_file p s w) =
  k tt (append_file p (s ++ unlines ls) w).
Proof.
  intros H. revert s. induction ls as [|l ls IH]; intros s; simpl.
  - unfold unlines. simpl. by rewrite app_nil_r.
  - rewrite bind_assoc, bind_write by done. rewrite append_file_app.
    rewrite IH. unfold unlines. simpl. by rewrite <- !app_assoc.
Qed.

Lemma foldl_max_ge x l : x <= foldl Nat.max x l.
Proof.
  revert x. induction l as [|y l IH]; intros x; simpl; [lia|].
  specialize (IH (x `max` y)). lia.
Qed.

Lemma foldl_max_bound x l i : i ∈ l -> i <= foldl Nat.max x l.
Proof.
  revert x. induction l as [|y l IH]; intros x Hi; simpl.
  - by apply not_elem_of_nil in Hi.
  - apply elem_of_cons in Hi as [->|Hi].
    + pose proof (foldl_max_ge (x `max` y) l). lia.
    + by apply IH.
Qed.

(** Past the test on the token count, the selection cannot fail. *)
Lemma select_is_Some i idx toks :
  foldl Nat.max i idx < length toks -> is_Some (select (i :: idx) toks).
Proof.
  intros Hmx. unfold select. apply mapM_is_Some, Forall_forall.
  intros j Hj. simpl. apply lookup_lt_is_Some.
  apply elem_of_cons in Hj as [->|Hj].
  - pose proof (foldl_max_ge i idx). lia.
  - pose proof (foldl_max_bound i idx j Hj). lia.
Qed.

Section Pass.

Variable idx : list nat.
Variables fp out : Path.
Variables (fin : text) (bc : nat) (w : world).
Hypothesis Hq : quiet w.

Lemma body_eof fin1 :
  readline_at fin = ([], fin1) ->
  body idx fp out fin bc w = (Ok (Break bc), w).
Proof using All.
  intros H1. unfold body. rewrite bind_readline, H1 by done. reflexivity.
Qed.

Lemma body_blank first fin1 :
  readline_at fin = (first, fin1) -> first <> [] -> strip first = [] ->
  body idx fp out fin bc w = (Ok (Continue fin1 bc), w).
Proof using All.
  intros H1 Hf Hs. unfold body. rewrite bind_readline, H1 by done.
  destruct first; [done|]. cbv beta iota zeta. by rewrite Hs.
Qed.

Lemma body_count first fin1 :
  readline_at fin = (first, fin1) -> strip first <> [] ->
  int_ (strip first) = None ->
  body idx fp out fin bc w =
  (Ok (Continue fin1 bc), add_log (WarnCount (strip first) fp) w).
Proof using All.
  intros H1 Hs Hn. unfold body. rewrite bind_readline, H1 by done.
  destruct first as [|c0 first0]; [done|]. cbv beta iota zeta.
  destruct (strip (c0 :: first0)) as [|c1 first1] eqn:E; [done|]. by rewrite Hn.
Qed.

Section Counted.

Variables (first fin1 : text) (n : Z).
Hypothesis H1 : readline_at fin = (first, fin1).
Hypothesis Hn : int_ (strip first) = Some n.

Lemma counted_not_blank : first <> [] /\ strip first <> [].
Proof using All.
  split; intros E; rewrite E in Hn; discriminate.
Qed.

(** The pass up to the second [readline]. *)
Lemma body_counted :
  body idx fp out fin bc w =
  (p <- ret (readline_at fin1) ;;
   let '(meta_line, fin) := p in
   match meta_line with
   | [] => logger (WarnMetaEOF fp) ;; ret (Break bc)
   | _ =>
   let meta_tokens := split_ws (strip meta_line) in
   mx <- max_ idx ;;
   if bool_decide (length meta_tokens <= mx) then
     logger (WarnTokens (length meta_tokens) (mx + 1) fp) ;;
     fin <- skip_lines (Z.to_nat n) fin ;;
     ret (Continue fin bc)
   else
   match select idx meta_tokens with
   | None =>
       logger (ExcExtract IndexError) ;;
       fin <- skip_lines (Z.to_nat n) fin ;;
       ret (Continue fin bc)
   | Some meta_values =>
   p <- read_atom_lines (WarnAtomsEOF n fp bc) (Z.to_nat n) fin [] ;;
   let '(read, fin) := p in
   match read with
   | None => ret (Break bc)
   | Some atom_lines =>
       let header := make_header meta_values in
       write out (str_Z n ++ [nl]) ;;
       write out (header ++ [nl]) ;;
       write_lines out atom_lines ;;
       ret (Continue fin (S bc))
   end end end) w.
Proof using All.
  destruct counted_not_blank as [Hf Hs].
  unfold body. rewrite bind_readline, H1 by done.
  destruct first as [|c0 first0]; [done|]. cbv beta iota zeta.
  destruct (strip (c0 :: first0)) as [|c1 first1] eqn:E; [done|]. rewrite Hn.
  by rewrite bind_readline by done.
Qed.

Lemma body_meta_eof fin2 :
  readline_at fin1 = ([], fin2) ->
  body idx fp out fin bc w = (Ok (Break bc), add_log (WarnMetaEOF fp) w).
Proof using All.
  intros H2. rewrite body_counted, bind_ret, H2. reflexivity.
Qed.

Lemma body_no_indices meta fin2 :
  readline_at fin1 = (meta, fin2) -> meta <> [] -> idx = [] ->
  body idx fp out fin bc w = (Raise ValueError, w).
Proof using All.
  intros H2 Hm Hi. rewrite body_counted, bind_ret, H2.
  destruct meta; [done|]. cbv beta iota zeta. rewrite Hi. reflexivity.
Qed.

Lemma body_tokens meta fin2 i idx' :
  readline_at fin1 = (meta, fin2) -> meta <> [] -> idx = i :: idx' ->
  length (split_ws (strip meta)) <= foldl Nat.max i idx' ->
  body idx fp out fin bc w =
  (Ok (Continue (drop_lines (Z.to_nat n) fin2) bc),
   add_log (WarnTokens (length (split_ws (strip meta)))
              (foldl Nat.max i idx' + 1) fp) w).
Proof using All.
  intros H2 Hm Hi Hlen. rewrite body_counted, bind_ret, H2.
  destruct meta; [done|]. cbv beta iota zeta. rewrite Hi.
  unfold max_. rewrite bind_ret. rewrite bool_decide_true by done.
  rewrite bind_logger, bind_skip_lines by done. reflexivity.
Qed.

Lemma body_atoms_eof meta fin2 i idx' vals fin3 :
  readline_at fin1 = (meta, fin2) -> meta <> [] -> idx = i :: idx' ->
  foldl Nat.max i idx' < length (split_ws (strip meta)) ->
  select idx (split_ws (strip meta)) = Some vals ->
  lines_read (Z.to_nat n) fin2 [] = (None, fin3) ->
  body idx fp out fin bc w =
  (Ok (Break bc), add_log (WarnAtomsEOF n fp bc) w).
Proof using All.
  intros H2 Hm Hi Hlen Hsel Hread. rewrite body_counted, bind_ret, H2.
  destruct meta; [done|]. cbv beta iota zeta. rewrite Hsel, Hi.
  unfold max_. rewrite bind_ret. rewrite bool_decide_false by lia.
  rewrite bind_read_atom_lines, Hread by done. reflexivity.
Qed.

Lemma body_emit meta fin2 i idx' vals atoms fin3 :
  readline_at fin1 = (meta, fin2) -> meta <> [] -> idx = i :: idx' ->
  foldl Nat.max i idx' < length (split_ws (strip meta)) ->
  select idx (split_ws (strip meta)) = Some vals ->
  lines_read (Z.to_nat n) fin2 [] = (Some atoms, fin3) ->
  body idx fp out fin bc w =
  (Ok (Continue fin3 (S bc)),
   append_file out (render_block n (make_header vals) atoms) w).
Proof using All.
  intros H2 Hm Hi Hlen Hsel Hread. rewrite body_counted, bind_ret, H2.
  destruct meta; [done|]. cbv beta iota zeta. rewrite Hsel, Hi.
  unfold max_. rewrite bind_ret. rewrite bool_decide_false by lia.
  rewrite bind_read_atom_lines, Hread by done. cbv beta iota zeta.
  rewrite bind_write by done. rewrite bind_write by done.
  rewrite append_file_app, bind_write_lines by done.
  unfold render_block, ret. by rewrite <- !app_assoc.
Qed.

End Counted.

End Pass.

(** ** Stripping and splitting *)

Lemma lstrip_by_all f s : forallb f s = true -> lstrip_by f s = [].
Proof.
  intros H. rewrite <- (app_nil_r s). by rewrite lstrip_by_app_all.
Qed.

Lemma lstrip_by_snoc f u c :
  lstrip_by f (u ++ [c]) =
  if forallb f u && f c then [] else lstrip_by f u ++ [c].
Proof.
  induction u as [|x u IH]; simpl.
  - destruct (f c); reflexivity.
  - destruct (f x); simpl; [exact IH|reflexivity].
Qed.

Lemma forallb_rev {A} (f : A -> bool) l : forallb f (rev l) = forallb f l.
Proof.
  induction l as [|x l IH]; simpl; [reflexivity|].
  rewrite forallb_app, IH. simpl. rewrite andb_true_r. apply andb_comm.
Qed.

(** [rstrip], read from the left. *)
Lemma rstrip_by_cons f c s :
  rstrip_by f (c :: s) = if forallb f s && f c then [] else c :: rstrip_by f s.
Proof.
  unfold rstrip_by. simpl. rewrite lstrip_by_snoc, forallb_rev.
  destruct (forallb f s && f c); [reflexivity|].
  by rewrite rev_app_distr.
Qed.

Lemma rstrip_by_all f s : forallb f s = true -> rstrip_by f s = [].
Proof.
  intros H. unfold rstrip_by. rewrite lstrip_by_all; [reflexivity|].
  by rewrite forallb_rev.
Qed.

Lemma lstrip_rstrip f s :
  lstrip_by f (rstrip_by f s) = rstrip_by f (lstrip_by f s).
Proof.
  induction s as [|c s IH]; [reflexivity|].
  rewrite rstrip_by_cons. simpl.
  destruct (f c) eqn:Hc.
  - rewrite andb_true_r. destruct (forallb f s) eqn:Hs.
    + by rewrite (lstrip_by_all f s).
    + simpl. by rewrite Hc.
  - rewrite andb_false_r. simpl. rewrite Hc.
    rewrite rstrip_by_cons, Hc. by rewrite andb_false_r.
Qed.

Lemma lstrip_by_idem f s : lstrip_by f (lstrip_by f s) = lstrip_by f s.
Proof.
  induction s as [|c s IH]; simpl; [reflexivity|].
  destruct (f c) eqn:Hc; [exact IH|]. simpl. by rewrite Hc.
Qed.

Lemma rstrip_by_idem f s : rstrip_by f (rstrip_by f s) = rstrip_by f s.
Proof.
  unfold rstrip_by. by rewrite rev_involutive, lstrip_by_idem.
Qed.

Lemma strip_idem s : strip (strip s) = strip s.
Proof.
  unfold strip. rewrite lstrip_rstrip, lstrip_by_idem. apply rstrip_by_idem.
Qed.

(** What [int] drops, [strip] drops as well. *)
Lemma int_space_isspace c : int_space c = true -> isspace c = true.
Proof. destruct c as [[] [] [] [] [] [] [] []]; vm_compute; congruence. Qed.

Lemma digit_nospace c d : digit_val c = Some d -> isspace c = false.
Proof. destruct c as [[] [] [] [] [] [] [] []]; vm_compute; congruence. Qed.

Lemma parse_digits_nospace acc after r n :
  parse_digits acc after r = Some n -> Forall (fun c => isspace c = false) r.
Proof.
  revert acc after. induction r as [|c r IH]; intros acc after; simpl.
  - constructor.
  - destruct (digit_val c) as [d|] eqn:Hd.
    + intros H. constructor; [by eapply digit_nospace | by eapply IH].
    + destruct (is_underscore c && after) eqn:Hu; [|discriminate].
      intros H. apply andb_prop in Hu as [Hu _].
      apply bool_decide_eq_true in Hu as ->.
      constructor; [reflexivity | by eapply IH].
Qed.

Lemma lstrip_by_split f s :
  exists a, s = a ++ lstrip_by f s /\ forallb f a = true.
Proof.
  induction s as [|c s (a & Ha & Hf)]; simpl.
  - by exists [].
  - destruct (f c) eqn:Hc.
    + exists (c :: a). simpl. rewrite Hc, Hf. split; [by f_equal | reflexivity].
    + by exists [].
Qed.

Lemma rstrip_by_split f s :
  exists b, s = rstrip_by f s ++ b /\ forallb f b = true.
Proof.
  destruct (lstrip_by_split f (rev s)) as (a & Ha & Hf).
  exists (rev a). rewrite forallb_rev. split; [|exact Hf].
  unfold rstrip_by. rewrite <- rev_app_distr, <- Ha. by rewrite rev_involutive.
Qed.

(** Stripping leaves a text that neither starts nor ends with a stripped
    character, whatever surrounds it. *)
Lemma strip_by_core f a core b :
  forallb f a = true -> forallb f b = true ->
  core <> [] -> Forall (fun c => f c = false) core ->
  rstrip_by f (lstrip_by f (a ++ core ++ b)) = core.
Proof.
  intros Ha Hb Hne Hcore.
  rewrite lstrip_by_app_all by exact Ha.
  assert (lstrip_by f (core ++ b) = core ++ b) as ->.
  { destruct core as [|c core]; [done|]. simpl.
    apply Forall_cons in Hcore as [-> _]. reflexivity. }
  unfold rstrip_by. rewrite rev_app_distr.
  rewrite lstrip_by_app_all by (by rewrite forallb_rev).
  destruct core as [|c core _] using rev_ind; [done|].
  apply Forall_app in Hcore as [_ Hc]. rewrite Forall_singleton in Hc.
  rewrite rev_app_distr. simpl. rewrite Hc. simpl.
  by rewrite rev_involutive.
Qed.

(** The literal [int] reads from [s] when it accepts it: [s] without the
    whitespace around it. *)
Lemma int_core s n :
  int_ s = Some n ->
  exists a core b,
    s = a ++ core ++ b /\ forallb int_space a = true /\
    forallb int_space b = true /\ core <> [] /\
    Forall (fun c => isspace c = false) core /\
    rstrip_by int_space (lstrip_by int_space s) = core.
Proof.
  unfold int_. intros H.
  destruct (lstrip_by_split int_space s) as (a & Ha & Hfa).
  destruct (rstrip_by_split int_space (lstrip_by int_space s)) as (b & Hb & Hfb).
  exists a, (rstrip_by int_space (lstrip_by int_space s)), b.
  repeat split; try done.
  - by rewrite <- Hb.
  - intros E. by rewrite E in H.
  - destruct (rstrip_by int_space (lstrip_by int_space s)) as [|c r]; [done|].
    destruct (bool_decide (c = ascii_of_nat 45)) eqn:Hm.
    { apply bool_decide_eq_true in Hm as ->.
      destruct (parse_digits 0 false r) as [m|] eqn:Hp; [|discriminate].
      constructor; [reflexivity | by eapply parse_digits_nospace]. }
    destruct (bool_decide (c = ascii_of_nat 43)) eqn:Hpl.
    { apply bool_decide_eq_true in Hpl as ->.
      constructor; [reflexivity | by eapply parse_digits_nospace]. }
    by eapply parse_digits_nospace.
Qed.

(** A text [int] accepts reads the same once stripped. *)
Lemma int_strip s n : int_ s = Some n -> int_ (strip s) = Some n.
Proof.
  intros H. destruct (int_core s n H) as (a & core & b & Hs & Ha & Hb & Hne & Hc & E).
  assert (strip s = core) as Hstrip.
  { rewrite Hs. unfold strip. apply strip_by_core; try done.
    - apply forallb_forall. intros c Hin. apply int_space_isspace.
      by eapply forallb_forall in Ha.
    - apply forallb_forall. intros c Hin. apply int_space_isspace.
      by eapply forallb_forall in Hb. }
  assert (rstrip_by int_space (lstrip_by int_space core) = core) as Hcore.
  { rewrite <- (app_nil_r core) at 1.
    apply (strip_by_core int_space [] core []); try done.
    eapply Forall_impl; [exact Hc|]. intros c Hsp. simpl in Hsp.
    destruct (int_space c) eqn:Hi; [|reflexivity].
    apply int_space_isspace in Hi. congruence. }
  rewrite <- H. unfold int_. by rewrite Hstrip, Hcore, E.
Qed.

(** [int] does not see the terminator of a line. *)
Lemma int_nl l : int_ (l ++ [nl]) = int_ l.
Proof.
  assert (rstrip_by int_space (lstrip_by int_space (l ++ [nl])) =
          rstrip_by int_space (lstrip_by int_space l)) as E.
  { induction l as [|x l IH]; simpl; [reflexivity|].
    destruct (int_space x) eqn:Hx; [exact IH|].
    change (x :: l ++ [nl]) with ((x :: l) ++ [nl]). by apply rstrip_by_snoc. }
  unfold int_. by rewrite E.
Qed.

Lemma split_ws_spaces s : forallb isspace s = true -> split_ws s = [].
Proof.
  induction s as [|c s IH]; simpl; [reflexivity|].
  intros H. apply andb_prop in H as [-> Hs]. auto.
Qed.

Lemma split_ws_lstrip s : split_ws (lstrip_by isspace s) = split_ws s.
Proof.
  induction s as [|c s IH]; simpl; [reflexivity|].
  destruct (isspace c) eqn:Hc; [exact IH|]. simpl. by rewrite Hc.
Qed.

Lemma split_ws_rstrip s : split_ws (rstrip_by isspace s) = split_ws s.
Proof.
  induction s as [|c s IH]; [reflexivity|].
  rewrite rstrip_by_cons.
  destruct (forallb isspace s && isspace c) eqn:Hall.
  - apply andb_prop in Hall as [Hs Hc]. simpl. rewrite Hc.
    symmetry. by apply split_ws_spaces.
  - simpl. destruct (isspace c) eqn:Hc; [exact IH|].
    destruct s as [|c' s]; [reflexivity|].
    rewrite rstrip_by_cons in *.
    destruct (forallb isspace s && isspace c') eqn:Hall'.
    + apply andb_prop in Hall' as [Hs Hc']. rewrite Hc'.
      simpl. rewrite Hc'. by rewrite split_ws_spaces.
    + destruct (isspace c') eqn:Hc'.
      * by rewrite IH.
      * by rewrite IH.
Qed.

Lemma split_ws_strip s : split_ws (strip s) = split_ws s.
Proof. unfold strip. by rewrite split_ws_rstrip, split_ws_lstrip. Qed.

(** The tokens of a line do not depend on its terminator. *)
Lemma tokens_line l : split_ws (strip (l ++ [nl])) = split_ws l.
Proof. by rewrite strip_line, split_ws_strip. Qed.

Lemma int_line l : int_ (strip (l ++ [nl])) = int_ (strip l).
Proof. by rewrite strip_line. Qed.

(** ** Runs of lines *)

Lemma nlfree_nil : nlfree [].
Proof. unfold nlfree. apply not_elem_of_nil. Qed.

Lemma unlines_cons l ls : unlines (l :: ls) = l ++ nl :: unlines ls.
Proof. unfold unlines. simpl. by rewrite <- app_assoc. Qed.

Lemma unlines_snoc ls l : unlines (ls ++ [l]) = unlines ls ++ l ++ [nl].
Proof. unfold unlines. rewrite map_app, concat_app. simpl. by rewrite app_nil_r. Qed.

Lemma lines_read_unlines atoms rest acc :
  Forall nlfree atoms ->
  lines_read (length atoms) (unlines atoms ++ rest) acc = (Some (acc ++ atoms), rest).
Proof.
  intros H. revert acc. induction H as [|l ls Hl Hls IH]; intros acc; simpl.
  - by rewrite app_nil_r.
  - rewrite unlines_cons. rewrite <- app_assoc. simpl.
    rewrite readline_at_line by done.
    destruct (l ++ [nl]) eqn:E; [by destruct l|]. rewrite <- E.
    rewrite IH, rstrip_nl_line by done. by rewrite <- app_assoc.
Qed.

Lemma drop_lines_unlines atoms rest :
  Forall nlfree atoms ->
  drop_lines (length atoms) (unlines atoms ++ rest) = rest.
Proof.
  intros H. induction H as [|l ls Hl Hls IH]; simpl; [reflexivity|].
  rewrite unlines_cons. rewrite <- app_assoc. simpl.
  by rewrite readline_at_line.
Qed.

(** ** The loop, pass by pass *)

Section Loop.

Variable idx : list nat.
Variables fp out : Path.

Lemma process_blocks_continue fin bc w fin' bc' w' :
  body idx fp out fin bc w = (Ok (Continue fin' bc'), w') ->
  process_blocks idx fp out fin bc w = process_blocks idx fp out fin' bc' w'.
Proof. intros H. rewrite process_blocks_unfold. by rewrite (bind_ok _ _ _ _ _ H). Qed.

Lemma process_blocks_break fin bc w bc' w' :
  body idx fp out fin bc w = (Ok (Break bc'), w') ->
  process_blocks idx fp out fin bc w = (Ok bc', w').
Proof. intros H. rewrite process_blocks_unfold. by rewrite (bind_ok _ _ _ _ _ H). Qed.

Lemma process_blocks_raise fin bc w e w' :
  body idx fp out fin bc w = (Raise e, w') ->
  process_blocks idx fp out fin bc w = (Raise e, w').
Proof. intros H. rewrite process_blocks_unfold. unfold bind. by rewrite H. Qed.

Lemma process_blocks_eof bc w :
  quiet w -> process_blocks idx fp out [] bc w = (Ok bc, w).
Proof.
  intros Hq. apply process_blocks_break. by eapply body_eof.
Qed.


Lemma max_is_elem i l : foldl Nat.max i l ∈ i :: l.
Proof.
  revert i. induction l as [|y l IH]; intros i; simpl; [by left|].
  specialize (IH (i `max` y)). apply elem_of_cons in IH as [IH|IH].
  - rewrite IH. destruct (Nat.max_spec i y) as [[_ ->]|[_ ->]].
    + right. by left.
    + by left.
  - right. by right.
Qed.

Lemma nonempty_line l : l ++ [nl] <> [].
Proof. by destruct l. Qed.

(** A well-formed block is written, and the loop goes on behind it. *)
Lemma process_blocks_block b rest bc w :
  quiet w -> idx <> [] -> well_formed idx b ->
  process_blocks idx fp out (block_text b ++ rest) bc w =
  process_blocks idx fp out rest (S bc) (append_file out (output_block idx b) w).
Proof.
  intros Hq Hidx (Hc & Hn & Hm & Htok & Hat).
  assert (exists i idx', idx = i :: idx') as (i & idx' & Ei).
  { destruct idx as [|i idx']; [done|]. by exists i, idx'. }
  assert (foldl Nat.max i idx' < length (split_ws (meta_line b))) as Hmx.
  { rewrite Forall_forall in Htok. apply Htok. rewrite Ei. apply max_is_elem. }
  destruct (select_is_Some i idx' _ Hmx) as [vals Hv]. rewrite <- Ei in Hv.
  apply process_blocks_continue.
  assert (output_block idx b =
          render_block (Z.of_nat (length (atoms b))) (make_header vals) (atoms b))
    as -> by (unfold output_block, header_of; by rewrite Hv).
  assert (readline_at (block_text b ++ rest) =
          (count_line b ++ [nl],
           (meta_line b ++ [nl]) ++ unlines (atoms b) ++ rest)) as R1.
  { unfold block_text. rewrite <- !app_assoc. simpl.
    apply readline_at_line, Hc. }
  assert (readline_at ((meta_line b ++ [nl]) ++ unlines (atoms b) ++ rest) =
          (meta_line b ++ [nl], unlines (atoms b) ++ rest)) as R2.
  { rewrite <- app_assoc. apply readline_at_line, Hm. }
  eapply body_emit; [exact Hq | exact R1 | | exact R2 | apply nonempty_line
                    | exact Ei | | | ].
  - by rewrite int_line.
  - by rewrite tokens_line.
  - by rewrite tokens_line.
  - rewrite Nat2Z.id. apply (lines_read_unlines _ _ []), Hat.
Qed.

Lemma process_blocks_blocks bs rest bc w :
  quiet w -> idx <> [] -> Forall (well_formed idx) bs -> is_Some (fs w !! out) ->
  process_blocks idx fp out (input_text bs ++ rest) bc w =
  process_blocks idx fp out rest (bc + length bs)
    (append_file out (concat (map (output_block idx) bs)) w).
Proof.
  intros Hq Hidx Hbs. revert bc w Hq.
  induction Hbs as [|b bs Hb Hbs IH]; intros bc w Hq Hout.
  - simpl. rewrite append_file_nil by done. by rewrite Nat.add_0_r.
  - unfold input_text. simpl. rewrite <- app_assoc.
    rewrite process_blocks_block by done.
    fold (input_text bs). rewrite IH.
    + rewrite append_file_app. f_equal. lia.
    + by apply quiet_append_file.
    + unfold append_file. simpl. rewrite lookup_insert_eq. eauto.
Qed.

Lemma process_blocks_bad_count fin first fin1 bc w :
  quiet w -> readline_at fin = (first, fin1) ->
  strip first <> [] -> int_ (strip first) = None ->
  process_blocks idx fp out fin bc w =
  process_blocks idx fp out fin1 bc (add_log (WarnCount (strip first) fp) w).
Proof.
  intros Hq H1 Hs Hn. apply process_blocks_continue. by eapply body_count.
Qed.

Lemma process_blocks_blank fin first fin1 bc w :
  quiet w -> readline_at fin = (first, fin1) -> first <> [] ->
  strip first = [] ->
  process_blocks idx fp out fin bc w = process_blocks idx fp out fin1 bc w.
Proof.
  intros Hq H1 Hf Hs. apply process_blocks_continue. by eapply body_blank.
Qed.

Lemma process_blocks_tokens fin first fin1 n meta fin2 i idx' bc w :
  quiet w -> readline_at fin = (first, fin1) -> int_ (strip first) = Some n ->
  readline_at fin1 = (meta, fin2) -> meta <> [] -> idx = i :: idx' ->
  length (split_ws (strip meta)) <= foldl Nat.max i idx' ->
  process_blocks idx fp out fin bc w =
  process_blocks idx fp out (drop_lines (Z.to_nat n) fin2) bc
    (add_log (WarnTokens (length (split_ws (strip meta)))
                (foldl Nat.max i idx' + 1) fp) w).
Proof.
  intros Hq H1 Hn H2 Hm Hi Hlen. apply process_blocks_continue.
  by eapply body_tokens.
Qed.

End Loop.

(** ** Streams that end early *)

Lemma line_count_readline s :
  s <> [] -> line_count s = S (line_count (readline_at s).2).
Proof.
  induction s as [|c s IH]; [done|]. intros _. simpl.
  destruct (is_nl c); [reflexivity|].
  destruct s as [|c' s]; [reflexivity|].
  rewrite IH by done. by destruct (readline_at (c' :: s)).
Qed.

Lemma readline_at_nonempty s : s <> [] -> (readline_at s).1 <> [].
Proof. intros Hs E. by apply readline_at_nil in E. Qed.

Lemma lines_read_short n fin acc :
  line_count fin < n -> (lines_read n fin acc).1 = None.
Proof.
  revert fin acc. induction n as [|n IH]; intros fin acc Hlt; [lia|]. simpl.
  destruct fin as [|c fin]; [reflexivity|].
  pose proof (line_count_readline (c :: fin) ltac:(done)) as Hc.
  pose proof (readline_at_nonempty (c :: fin) ltac:(done)) as Hne.
  rewrite Hc in Hlt.
  destruct (readline_at (c :: fin)) as [line fin'].
  destruct line as [|x line]; [done|].
  apply IH. simpl in Hlt. lia.
Qed.

Lemma drop_lines_nil n : drop_lines n [] = [].
Proof. induction n as [|n IH]; [reflexivity|exact IH]. Qed.

Lemma drop_lines_short n fin : line_count fin <= n -> drop_lines n fin = [].
Proof.
  revert fin. induction n as [|n IH]; intros fin Hle.
  - destruct fin as [|c fin]; [reflexivity|].
    pose proof (line_count_readline (c :: fin) ltac:(done)). lia.
  - destruct fin as [|c fin]; [apply drop_lines_nil|].
    pose proof (line_count_readline (c :: fin) ltac:(done)) as Hc.
    change (drop_lines (S n) (c :: fin))
      with (drop_lines n (readline_at (c :: fin)).2).
    apply IH. lia.
Qed.

(** ** Worlds that stay quiet *)

Lemma calm_ret {A} (a : A) : calm (ret a).
Proof. by intros w. Qed.

Lemma calm_raise {A} e : calm (@raise A e).
Proof. by intros w. Qed.

Lemma calm_bind {A B} (m : M A) (k : A -> M B) :
  calm m -> (forall a, calm (k a)) -> calm (bind m k).
Proof.
  intros Hm Hk w Hq. unfold bind. specialize (Hm w Hq).
  destruct (m w) as [[a|e|] w1]; simpl in *; try done. by apply Hk.
Qed.

Lemma calm_try {A} (m : M A) (h : exn -> M A) :
  calm m -> (forall e, calm (h e)) -> calm (try_except m h).
Proof.
  intros Hm Hh w Hq. unfold try_except. specialize (Hm w Hq).
  destruct (m w) as [[a|e|] w1]; simpl in *; try done. by apply Hh.
Qed.

Lemma calm_io : calm io.
Proof. intros w Hq. unfold io. by rewrite Hq. Qed.

Lemma calm_logger e : calm (logger e).
Proof. by intros w. Qed.

Lemma calm_readline fin : calm (readline fin).
Proof. apply calm_bind; [apply calm_io | intros; apply calm_ret]. Qed.

Lemma calm_write p s : calm (write p s).
Proof. apply calm_bind; [apply calm_io | by intros _ w]. Qed.

Lemma calm_lift {A} e (o : option A) : calm (lift e o).
Proof. destruct o; [apply calm_ret | apply calm_raise]. Qed.

Lemma calm_max_ l : calm (max_ l).
Proof. destruct l; [apply calm_raise | apply calm_ret]. Qed.

Lemma calm_skip_lines n fin : calm (skip_lines n fin).
Proof.
  revert fin. induction n as [|n IH]; intros fin; simpl; [apply calm_ret|].
  apply calm_bind; [apply calm_readline | intros; apply IH].
Qed.

Lemma calm_read_atom_lines eof n fin acc : calm (read_atom_lines eof n fin acc).
Proof.
  revert fin acc. induction n as [|n IH]; intros fin acc; simpl; [apply calm_ret|].
  apply calm_bind; [apply calm_readline|]. intros [line fin'].
  destruct line; [|apply IH].
  apply calm_bind; [apply calm_logger | intros; apply calm_ret].
Qed.

Lemma calm_write_lines p ls : calm (write_lines p ls).
Proof.
  induction ls as [|l ls IH]; simpl; [apply calm_ret|].
  apply calm_bind; [apply calm_write | intros; exact IH].
Qed.

Lemma calm_body idx fp out fin bc : calm (body idx fp out fin bc).
Proof.
  unfold body. apply calm_bind; [apply calm_readline|]. intros [first fin1].
  destruct first as [|c first]; [apply calm_ret|].
  destruct (strip (c :: first)) as [|c' first']; [apply calm_ret|].
  destruct (int_ (c' :: first')) as [n|].
  2:{ apply calm_bind; [apply calm_logger | intros; apply calm_ret]. }
  apply calm_bind; [apply calm_readline|]. intros [meta fin2].
  destruct meta as [|m meta].
  { apply calm_bind; [apply calm_logger | intros; apply calm_ret]. }
  apply calm_bind; [apply calm_max_|]. intros mx.
  destruct (bool_decide _).
  { apply calm_bind; [apply calm_logger|]. intros _.
    apply calm_bind; [apply calm_skip_lines | intros; apply calm_ret]. }
  destruct (select _ _).
  2:{ apply calm_bind; [apply calm_logger|]. intros _.
      apply calm_bind; [apply calm_skip_lines | intros; apply calm_ret]. }
  apply calm_bind; [apply calm_read_atom_lines|]. intros [r f].
  destruct r; [|apply calm_ret].
  apply calm_bind; [apply calm_write|]. intros _.
  apply calm_bind; [apply calm_write|]. intros _.
  apply calm_bind; [apply calm_write_lines | intros; apply calm_ret].
Qed.

Lemma calm_while_true idx fuel fp out fin bc :
  calm (while_true idx fuel fp out fin bc).
Proof.
  revert fin bc. induction fuel as [|fuel IH]; intros fin bc; simpl.
  - by intros w.
  - apply calm_bind; [apply calm_body|]. intros [bc'|fin' bc'];
      [apply calm_ret | apply IH].
Qed.

Lemma calm_process_blocks idx fp out fin bc :
  calm (process_blocks idx fp out fin bc).
Proof. apply calm_while_true. Qed.

(** In a quiet world the close at the end of a [with] block is not
    seen. *)
Lemma finally_close_quiet {A} (m : M A) w :
  quiet (m w).2 -> finally m close w = m w.
Proof.
  intros Hq. unfold finally, close.
  destruct (m w) as [[a|e|] w1]; simpl in Hq; try reflexivity;
    by rewrite io_quiet.
Qed.

Lemma finally_close_calm {A} (m : M A) w :
  calm m -> quiet w -> finally m close w = m w.
Proof. intros Hm Hq. apply finally_close_quiet. by apply Hm. Qed.

Lemma calm_open_w p : calm (open_w p).
Proof. apply calm_bind; [apply calm_io | by intros _ w]. Qed.

Lemma calm_open_r p : calm (open_r p).
Proof.
  apply calm_bind; [apply calm_io|]. intros _ w Hq. by destruct (fs w !! p).
Qed.

Lemma calm_finally {A} (m : M A) (r : M unit) :
  calm m -> calm r -> calm (finally m r).
Proof.
  intros Hm Hr w Hq. unfold finally. specialize (Hm w Hq).
  destruct (m w) as [[a|e|] w1]; simpl in *; try done;
    specialize (Hr w1 Hm); by destruct (r w1) as [[[]|e'|] w2].
Qed.

Lemma calm_close : calm close.
Proof. apply calm_io. Qed.

(** The loop of [process_file] and the entry that follows it. *)
Lemma calm_finish idx fp out fin :
  calm (block_count <- process_blocks idx fp out fin 0 ;;
        logger (InfoFinished fp block_count out)).
Proof.
  apply calm_bind; [apply calm_process_blocks | intros; apply calm_logger].
Qed.

Lemma calm_read_atoms n f atoms : calm (read_atoms n f atoms).
Proof.
  revert f atoms. induction n as [|n IH]; intros f atoms; simpl; [apply calm_ret|].
  apply calm_bind; [apply calm_readline | intros; apply IH].
Qed.

Lemma calm_reformat_block b f : calm (reformat_block b f).
Proof.
  unfold reformat_block.
  apply calm_bind; [apply calm_readline|]. intros [line f1].
  apply calm_bind; [apply calm_lift|]. intros n.
  apply calm_bind; [apply calm_readline|]. intros [line2 f2].
  apply calm_bind; [apply calm_read_atoms|]. intros [atoms f3].
  apply calm_bind; [apply calm_write|]. intros _.
  apply calm_bind; [apply calm_lift|]. intros values.
  apply calm_bind; [apply calm_lift|]. intros header.
  apply calm_bind; [apply calm_write|]. intros _.
  apply calm_bind; [apply calm_write|]. intros _. apply calm_ret.
Qed.

Lemma calm_reformat_loop fuel addr b f : calm (reformat_loop fuel addr b f).
Proof.
  revert f. induction fuel as [|fuel IH]; intros f; simpl; [by intros w|].
  apply calm_bind.
  - apply calm_try.
    + apply calm_bind; [apply calm_reformat_block | intros; apply calm_ret].
    + intros e. apply calm_bind; [apply calm_logger | intros; apply calm_ret].
  - intros [f'|]; [apply IH | apply calm_ret].
Qed.

(** In a quiet world the two [with] blocks of [reformat] come down to
    its loop. *)
Lemma reformat_with_quiet addr b w content :
  quiet w -> fs w !! Path_of_str addr = Some content ->
  finally
    (f <- open_r (Path_of_str addr) ;;
     finally (reformat_loop (S (length f)) addr b f) close)
    close w
  = reformat_loop (S (length content)) addr b content w.
Proof.
  intros Hq Hf.
  rewrite finally_close_calm; [ | | done ].
  2:{ apply calm_bind; [apply calm_open_r|]. intros f.
      apply calm_finally; [apply calm_reformat_loop | apply calm_close]. }
  rewrite (bind_open_r _ _ _ content) by done.
  by rewrite finally_close_calm by (apply calm_reformat_loop || done).
Qed.

(** ** [process_file] when no operation fails *)

Lemma try_bind_ok {A B} (m : M A) (k : A -> M B) h w a w' :
  m w = (Ok a, w') -> try_except (bind m k) h w = try_except (k a) h w'.
Proof. intros H. unfold try_except. by rewrite (bind_ok _ _ _ _ _ H). Qed.

Lemma out_path_of_Some ds fp od out :
  out_path_of ds fp od = Some out ->
  exists o, make_output_name ds fp = Some o /\
    out = if bool_decide (default (parent fp) od <> parent fp)
          then mkPath (default (parent fp) od) (name o) else o.
Proof.
  unfold out_path_of. destruct (make_output_name ds fp) as [o|]; [|done].
  simpl. intros [= <-]. by exists o.
Qed.

Lemma process_file_quiet ds idx fp od w content out :
  quiet w -> fs w !! fp = Some content -> out_path_of ds fp od = Some out ->
  process_file ds idx fp od w =
  try_except
    (block_count <- process_blocks idx fp out content 0 ;;
     logger (InfoFinished fp block_count out))
    (fun e => logger (ExcFatal fp e)) (opened fp out w).
Proof.
  intros Hq Hfp Hout. apply out_path_of_Some in Hout as (o & Ho & ->).
  unfold process_file. rewrite bind_logger, Ho. simpl lift. rewrite bind_ret.
  cbv zeta.
  rewrite (try_bind_ok _ _ _ _ content (add_log (InfoProcessing fp) w)).
  2:{ unfold open_r. rewrite bind_io by done. simpl. by rewrite Hfp. }
  unfold try_except.
  rewrite finally_close_calm; [ | | done ].
  2:{ apply calm_bind; [apply calm_open_w|]. intros _.
      apply calm_finally; [apply calm_finish | apply calm_close]. }
  rewrite bind_open_w by done.
  by rewrite finally_close_calm by (apply calm_finish || done).
Qed.

Lemma opened_out fp out w : fs (opened fp out w) !! out = Some [].
Proof. unfold opened, create. simpl. apply lookup_insert_eq. Qed.

(** ** The claims about the loop *)

Lemma try_ok {A} (m : M A) h w a w' :
  m w = (Ok a, w') -> try_except m h w = (Ok a, w').
Proof. unfold try_except. by intros ->. Qed.

Lemma finished_world fp out w text_out n :
  let w' := add_log (InfoFinished fp n out) (append_file out text_out (opened fp out w)) in
  fs w' = <[out := text_out]> (fs w) /\
  log w' = log w ++ [InfoProcessing fp; InfoFinished fp n out].
Proof.
  simpl. split.
  - rewrite lookup_insert_eq. simpl. by rewrite insert_insert_eq.
  - by rewrite <- app_assoc.
Qed.

(** *** A last line without its newline *)

Lemma lines_read_open ls l acc :
  Forall nlfree ls -> nlfree l -> l <> [] ->
  lines_read (length ls + 1) (unlines ls ++ l) acc = (Some (acc ++ ls ++ [l]), []).
Proof.
  intros Hls Hl Hne. revert acc. induction Hls as [|x ls Hx Hls IH]; intros acc.
  - simpl. rewrite readline_at_last by done.
    destruct l as [|c l]; [done|]. by rewrite rstrip_nl_nlfree.
  - cbn [length Nat.add lines_read]. rewrite unlines_cons.
    rewrite <- app_assoc. cbn [app]. rewrite readline_at_line by done.
    destruct (x ++ [nl]) eqn:E; [by destruct x|]. rewrite <- E.
    rewrite IH, rstrip_nl_line by done. by rewrite <- app_assoc.
Qed.

Lemma last_app_nonempty {A} (l k : list A) : k <> [] -> last (l ++ k) = last k.
Proof.
  intros Hk. destruct k as [|x k _] using rev_ind; [done|].
  by rewrite app_assoc, !last_snoc.
Qed.

Lemma last_nl_unlines p ls : last ((p ++ [nl]) ++ unlines ls) = Some nl.
Proof.
  destruct ls as [|l ls _] using rev_ind.
  - change (unlines []) with ([] : text). by rewrite app_nil_r, last_snoc.
  - by rewrite unlines_snoc, !app_assoc, last_snoc.
Qed.

(** The last block of a file, its final newline missing. *)
Lemma process_blocks_open_block idx fp out b chop bc w :
  quiet w -> idx <> [] -> well_formed idx b ->
  chop ++ [nl] = block_text b -> last chop <> Some nl ->
  process_blocks idx fp out chop bc w =
  (Ok (S bc), append_file out (output_block idx b) w).
Proof.
  intros Hq Hidx (Hc & Hn & Hm & Htok & Hat) Hchop Hlast.
  assert (exists i idx', idx = i :: idx') as (i & idx' & Ei).
  { destruct idx as [|i idx']; [done|]. by exists i, idx'. }
  assert (foldl Nat.max i idx' < length (split_ws (meta_line b))) as Hmx.
  { rewrite Forall_forall in Htok. apply Htok. rewrite Ei. apply max_is_elem. }
  destruct (select_is_Some i idx' _ Hmx) as [vals Hv]. rewrite <- Ei in Hv.
  assert (output_block idx b =
          render_block (Z.of_nat (length (atoms b))) (make_header vals) (atoms b))
    as -> by (unfold output_block, header_of; by rewrite Hv).
  assert (meta_line b <> []) as Hmne.
  { intros E. rewrite E in Hmx. simpl in Hmx. lia. }
  unfold block_text in Hchop.
  destruct (atoms b) as [|a ls _] eqn:Eat using rev_ind.
  - assert (chop = count_line b ++ nl :: meta_line b) as ->.
    { apply (app_inv_tail [nl]). rewrite Hchop. unfold unlines. simpl.
      by rewrite <- app_assoc. }
    erewrite process_blocks_continue; [by apply process_blocks_eof|].
    eapply body_emit;
      [ exact Hq | by apply readline_at_line | by rewrite int_line
      | by apply readline_at_last | exact Hmne | exact Ei
      | by rewrite split_ws_strip | by rewrite split_ws_strip | reflexivity ].
  - apply Forall_app in Hat as [Hls Hafree]. rewrite Forall_singleton in Hafree.
    rewrite unlines_snoc in Hchop. rewrite !app_assoc in Hchop.
    apply app_inv_tail in Hchop. rewrite <- !app_assoc in Hchop. subst chop.
    assert (a <> []) as Hane.
    { intros ->. apply Hlast. rewrite app_nil_r.
      replace (count_line b ++ [nl] ++ meta_line b ++ [nl] ++ unlines ls)
        with ((((count_line b ++ [nl]) ++ meta_line b) ++ [nl]) ++ unlines ls)
        by (by rewrite <- !app_assoc).
      apply last_nl_unlines. }
    assert (readline_at
              (count_line b ++ [nl] ++ meta_line b ++ [nl] ++ unlines ls ++ a) =
            (count_line b ++ [nl], (meta_line b ++ [nl]) ++ unlines ls ++ a)) as R1.
    { rewrite <- !app_assoc. by apply readline_at_line. }
    assert (readline_at ((meta_line b ++ [nl]) ++ unlines ls ++ a) =
            (meta_line b ++ [nl], unlines ls ++ a)) as R2.
    { rewrite <- app_assoc. by apply readline_at_line. }
    erewrite process_blocks_continue; [by apply process_blocks_eof|].
    eapply body_emit;
      [ exact Hq | exact R1 | by rewrite int_line | exact R2
      | apply nonempty_line | exact Ei
      | by rewrite tokens_line | by rewrite tokens_line | ].
    rewrite Nat2Z.id, length_app. simpl length.
    by apply (lines_read_open ls a []).
Qed.

Lemma input_text_snoc bs b : input_text (bs ++ [b]) = input_text bs ++ block_text b.
Proof. unfold input_text. rewrite map_app, concat_app. simpl. by rewrite app_nil_r. Qed.

Lemma process_file_blocks ds idx fp od out w bs content :
  quiet w -> idx <> [] -> Forall (well_formed idx) bs ->
  holds_blocks content bs ->
  fs w !! fp = Some content -> out_path_of ds fp od = Some out ->
  exists w',
    process_file ds idx fp od w = (Ok tt, w') /\
    fs w' = <[out := concat (map (output_block idx) bs)]> (fs w) /\
    log w' = log w ++ [InfoProcessing fp; InfoFinished fp (length bs) out].
Proof.
  intros Hq Hidx Hbs Hcontent Hfp Hout.
  set (w1 := append_file out (concat (map (output_block idx) bs)) (opened fp out w)).
  exists (add_log (InfoFinished fp (length bs) out) w1).
  split; [|apply finished_world].
  rewrite (process_file_quiet _ _ _ _ _ _ _ Hq Hfp Hout).
  apply try_ok. rewrite (bind_ok _ _ _ (length bs) w1); [reflexivity|].
  assert (is_Some (fs (opened fp out w) !! out)) as Hopen
    by (rewrite opened_out; eauto).
  destruct Hcontent as [-> | (Hnl & Hlast & Hne)].
  - rewrite <- (app_nil_r (input_text bs)).
    rewrite process_blocks_blocks by done.
    by rewrite process_blocks_eof.
  - destruct bs as [|b bs' _] using rev_ind.
    { by destruct content. }
    apply Forall_app in Hbs as [Hbs' Hwb]. rewrite Forall_singleton in Hwb.
    rewrite input_text_snoc in Hnl.
    assert (exists chop, chop ++ [nl] = block_text b) as [chop Hchop].
    { unfold block_text. destruct (atoms b) as [|a ls _] using rev_ind.
      - exists (count_line b ++ [nl] ++ meta_line b).
        unfold unlines. simpl. by rewrite <- !app_assoc.
      - exists (count_line b ++ [nl] ++ meta_line b ++ [nl] ++ unlines ls ++ a).
        rewrite unlines_snoc. by rewrite <- !app_assoc. }
    rewrite <- Hchop, app_assoc in Hnl. apply app_inv_tail in Hnl. subst content.
    assert (chop <> []) as Hcne.
    { intros ->. unfold block_text in Hchop.
      apply (f_equal length) in Hchop. rewrite !length_app in Hchop.
      simpl in Hchop. lia. }
    rewrite last_app_nonempty in Hlast by done.
    rewrite process_blocks_blocks by done.
    rewrite (process_blocks_open_block idx fp out b chop) by done.
    unfold w1. rewrite append_file_app, length_app, map_app, concat_app. simpl.
    rewrite app_nil_r. do 2 f_equal. lia.
Qed.

(** C5.  When every block of the input has a count line that reads as
    the number of its atom lines, a metadata line with a token at every
    selected position and its atom lines, [process_file] writes one block
    for each block of the input, in order, and reports their number;
    the newline of the last line may be missing. *)
Theorem well_formed_block_count ds idx fp od out w bs content :
  quiet w -> idx <> [] -> Forall (well_formed idx) bs ->
  holds_blocks content bs ->
  fs w !! fp = Some content -> out_path_of ds fp od = Some out ->
  exists w',
    process_file ds idx fp od w = (Ok tt, w') /\
    fs w' = <[out := concat (map (output_block idx) bs)]> (fs w) /\
    log w' = log w ++ [InfoProcessing fp; InfoFinished fp (length bs) out].
Proof. apply process_file_blocks. Qed.




Lemma truncated_ends idx fp out partial bc w :
  quiet w -> idx <> [] -> truncated partial ->
  exists ev, process_blocks idx fp out partial bc w = (Ok bc, add_log ev w).
Proof.
  intros Hq Hidx (first & fin1 & n & H1 & Hn & Hrest).
  destruct idx as [|i idx'] eqn:Ei; [done|]. rewrite <- Ei in *.
  destruct Hrest as [-> | (meta & fin2 & H2 & Hm & Hshort)].
  - eexists. apply process_blocks_break. by eapply body_meta_eof.
  - destruct (decide (length (split_ws (strip meta)) <= foldl Nat.max i idx'))
      as [Hfew|Hmany].
    + eexists. erewrite process_blocks_tokens; try done.
      rewrite drop_lines_short by lia.
      by apply process_blocks_eof.
    + assert (foldl Nat.max i idx' < length (split_ws (strip meta))) as Hmx by lia.
      destruct (select_is_Some i idx' _ Hmx) as [vals Hv]. rewrite <- Ei in Hv.
      pose proof (lines_read_short (Z.to_nat n) fin2 [] Hshort) as Hr.
      destruct (lines_read (Z.to_nat n) fin2 []) as [r fin3] eqn:Er.
      simpl in Hr. subst r.
      eexists. apply process_blocks_break. by eapply body_atoms_eof.
Qed.

(** C4.  When the stream ends at the metadata line of a block, or before
    all its atom lines, the loop ends there: nothing is written for that
    block, what was written before stays, and no exception comes out; a
    file of well-formed blocks followed by such a block gives the
    output of the well-formed blocks. *)
Theorem truncated_block_discarded ds idx fp od out partial :
  idx <> [] -> truncated partial ->
  (forall bc w, quiet w ->
     exists w', process_blocks idx fp out partial bc w = (Ok bc, w') /\
       fs w' = fs w /\ exists ev, log w' = log w ++ [ev]) /\
  (forall w bs, quiet w -> Forall (well_formed idx) bs ->
     fs w !! fp = Some (input_text bs ++ partial) ->
     out_path_of ds fp od = Some out ->
     exists w' ev,
       process_file ds idx fp od w = (Ok tt, w') /\
       fs w' = <[out := concat (map (output_block idx) bs)]> (fs w) /\
       log w' = log w ++ [InfoProcessing fp; ev; InfoFinished fp (length bs) out]).
Proof.
  intros Hidx Htr. split.
  - intros bc w Hq.
    destruct (truncated_ends idx fp out partial bc w Hq Hidx Htr) as [ev Hev].
    exists (add_log ev w). split; [exact Hev|]. split; [reflexivity|by exists ev].
  - intros w bs Hq Hbs Hfp Hout.
    set (w1 := append_file out (concat (map (output_block idx) bs)) (opened fp out w)).
    destruct (truncated_ends idx fp out partial (0 + length bs) w1) as [ev Hev];
      try done.
    exists (add_log (InfoFinished fp (length bs) out) (add_log ev w1)), ev.
    split; [|split].
    + rewrite (process_file_quiet _ _ _ _ _ _ _ Hq Hfp Hout).
      apply try_ok. erewrite bind_ok; [reflexivity|].
      rewrite process_blocks_blocks; try done.
      rewrite opened_out. eauto.
    + simpl. rewrite lookup_insert_eq. simpl. by rewrite insert_insert_eq.
    + simpl. by rewrite <- !app_assoc.
Qed.

(** Closes a decidable goal by evaluation. *)
Ltac by_compute := apply (bool_decide_unpack _); vm_compute; exact I.

Lemma well_formed_block_count_witness :
  quiet (one_file sample_path (input_text [water; water])) /\
  Forall (well_formed NANCI_INDICES) [water; water] /\
  exists w',
    process_file false NANCI_INDICES sample_path None
      (one_file sample_path (input_text [water; water])) = (Ok tt, w') /\
    fs w' = <[sample_out := concat (map (output_block NANCI_INDICES) [water; water])]>
              (fs (one_file sample_path (input_text [water; water]))) /\
    log w' = [InfoProcessing sample_path; InfoFinished sample_path 2 sample_out].
Proof.
  split; [reflexivity|]. split; [by_compute|].
  apply (well_formed_block_count false NANCI_INDICES sample_path None sample_out
           (one_file sample_path (input_text [water; water])) [water; water]
           (input_text [water; water])).
  - reflexivity.
  - discriminate.
  - by_compute.
  - left. reflexivity.
  - by_compute.
  - reflexivity.
Defined.

(** A file whose last line has no newline. *)
Example open_last_line :
  let content := T "1" ++ [nl] ++ meta36 ++ [nl] ++ T "H 0 0 0" in
  let r := process_file false NANCI_INDICES sample_path None
             (one_file sample_path content) in
  holds_blocks content [mkBlock (T "1") meta36 [T "H 0 0 0"]] /\
  fs r.2 !! sample_out =
    Some (T "1" ++ [nl] ++ sample_header ++ [nl] ++ T "H 0 0 0" ++ [nl]) /\
  log r.2 = [InfoProcessing sample_path; InfoFinished sample_path 1 sample_out].
Proof.
  split; [right; vm_compute; repeat split; discriminate|].
  vm_compute. split; reflexivity.
Qed.

(** C7.  On the input of the scenario, with the positions 16 and 18
    selected, one block is written: its header holds the tokens at the
    positions 16 and 18 of the metadata line, and the three atom lines
    follow unchanged. *)
Theorem scenario_two_indices ds fp od out w :
  quiet w -> fs w !! fp = Some scenario_input ->
  out_path_of ds fp od = Some out ->
  exists w',
    process_file ds [16; 18] fp od w = (Ok tt, w') /\
    fs w' = <[out := scenario_output]> (fs w) /\
    log w' = log w ++ [InfoProcessing fp; InfoFinished fp 1 out] /\
    split_ws meta19 !! 16 = Some (T "16") /\
    split_ws meta19 !! 18 = Some (T "18") /\
    length (split_ws meta19) = 19.
Proof.
  intros Hq Hfp Hout.
  assert (Forall (well_formed [16; 18]) [scenario_block]) as Hwf by by_compute.
  destruct (process_file_blocks ds [16; 18] fp od out w [scenario_block]
              scenario_input Hq ltac:(done) Hwf ltac:(by left) Hfp Hout)
    as (w' & Hrun & Hfs & Hlog).
  exists w'. repeat split; try done.
Qed.

Lemma scenario_two_indices_witness :
  quiet (one_file sample_path scenario_input) /\
  exists w',
    process_file false [16; 18] sample_path None
      (one_file sample_path scenario_input) = (Ok tt, w') /\
    fs w' = <[sample_out := scenario_output]>
              (fs (one_file sample_path scenario_input)) /\
    log w' = [InfoProcessing sample_path; InfoFinished sample_path 1 sample_out] /\
    split_ws meta19 !! 16 = Some (T "16") /\
    split_ws meta19 !! 18 = Some (T "18") /\
    length (split_ws meta19) = 19.
Proof.
  split; [reflexivity|].
  apply (scenario_two_indices false sample_path None sample_out
           (one_file sample_path scenario_input)).
  - reflexivity.
  - by_compute.
  - reflexivity.
Defined.





Lemma truncated_sample :
  truncated (T "3" ++ [nl] ++ meta36 ++ [nl] ++ T "O 0.0 0.0 0.0" ++ [nl]).
Proof.
  exists (T "3" ++ [nl]), (meta36 ++ [nl] ++ T "O 0.0 0.0 0.0" ++ [nl]), 3%Z.
  split; [vm_compute; reflexivity|]. split; [vm_compute; reflexivity|].
  right. exists (meta36 ++ [nl]), (T "O 0.0 0.0 0.0" ++ [nl]).
  split; [vm_compute; reflexivity|]. split; [vm_compute; discriminate|].
  vm_compute. lia.
Defined.

Lemma truncated_block_discarded_witness :
  let partial := T "3" ++ [nl] ++ meta36 ++ [nl] ++ T "O 0.0 0.0 0.0" ++ [nl] in
  (forall bc w, quiet w ->
     exists w', process_blocks NANCI_INDICES sample_path sample_out partial bc w
                = (Ok bc, w') /\
       fs w' = fs w /\ exists ev, log w' = log w ++ [ev]) /\
  (forall w bs, quiet w -> Forall (well_formed NANCI_INDICES) bs ->
     fs w !! sample_path = Some (input_text bs ++ partial) ->
     out_path_of false sample_path None = Some sample_out ->
     exists w' ev,
       process_file false NANCI_INDICES sample_path None w = (Ok tt, w') /\
       fs w' = <[sample_out := concat (map (output_block NANCI_INDICES) bs)]> (fs w) /\
       log w' = log w ++ [InfoProcessing sample_path; ev;
                          InfoFinished sample_path (length bs) sample_out]).
Proof.
  apply (truncated_block_discarded false NANCI_INDICES sample_path None sample_out
           (T "3" ++ [nl] ++ meta36 ++ [nl] ++ T "O 0.0 0.0 0.0" ++ [nl])).
  - discriminate.
  - exact truncated_sample.
Defined.

(** ** Lines *)

Lemma lines_readline s :
  s <> [] -> lines s = (readline_at s).1 :: lines (readline_at s).2.
Proof.
  induction s as [|c s IH]; [done|]. intros _. simpl.
  destruct (is_nl c); [reflexivity|].
  destruct s as [|c' s]; [reflexivity|].
  rewrite IH by done. by destruct (readline_at (c' :: s)).
Qed.

Lemma lines_drop_lines n s : lines (drop_lines n s) = drop n (lines s).
Proof.
  revert s. induction n as [|n IH]; intros s; [reflexivity|].
  destruct s as [|c s].
  - rewrite drop_lines_nil. reflexivity.
  - change (drop_lines (S n) (c :: s))
      with (drop_lines n (readline_at (c :: s)).2).
    rewrite IH. by rewrite (lines_readline (c :: s)).
Qed.

Lemma lines_line l rest : nlfree l -> lines (l ++ nl :: rest) = (l ++ [nl]) :: lines rest.
Proof.
  intros Hl. rewrite lines_readline by (by destruct l).
  by rewrite readline_at_line.
Qed.

Lemma lines_unlines ls rest :
  Forall nlfree ls ->
  lines (unlines ls ++ rest) = map (fun l => l ++ [nl]) ls ++ lines rest.
Proof.
  induction 1 as [|l ls Hl Hls IH]; [reflexivity|].
  rewrite unlines_cons. rewrite <- app_assoc. simpl.
  rewrite lines_line by done. by rewrite IH.
Qed.

Lemma nlfree_app a b : nlfree (a ++ b) <-> nlfree a /\ nlfree b.
Proof. unfold nlfree. rewrite elem_of_app. tauto. Qed.

Lemma nlfree_cons c a : nlfree (c :: a) <-> c <> nl /\ nlfree a.
Proof.
  unfold nlfree. rewrite not_elem_of_cons.
  split; intros [H1 H2]; split; auto.
Qed.

(** A line read, without its terminator, holds no newline. *)
Lemma rstrip_nl_read s : nlfree (rstrip_nl (readline_at s).1).
Proof.
  destruct (readline_at_shape s) as [(l & Hl & ->) | [Hl _]].
  - by rewrite rstrip_nl_line.
  - by rewrite rstrip_nl_nlfree.
Qed.

Lemma lines_read_spec n fin acc atoms fin3 :
  lines_read n fin acc = (Some atoms, fin3) ->
  atoms = acc ++ map rstrip_nl (take n (lines fin)) /\
  n <= length (lines fin) /\ fin3 = drop_lines n fin /\
  Forall nlfree (map rstrip_nl (take n (lines fin))).
Proof.
  revert fin acc. induction n as [|n IH]; intros fin acc; simpl.
  - intros [= <- <-]. rewrite app_nil_r.
    repeat split; [lia | constructor].
  - destruct fin as [|c fin]; [discriminate|].
    pose proof (lines_readline (c :: fin) ltac:(done)) as Hl.
    pose proof (rstrip_nl_read (c :: fin)) as Hfree.
    destruct (readline_at (c :: fin)) as [line fin'] eqn:E.
    destruct line as [|x line]; [discriminate|].
    intros H. apply IH in H as (-> & Hle & -> & Hall).
    rewrite Hl. simpl in *. rewrite <- app_assoc. simpl.
    repeat split; [lia | by constructor].
Qed.

(** ** Headers hold no newline *)

Lemma split_ws_nlfree s : Forall nlfree (split_ws s).
Proof.
  assert (forall c, isspace c = false -> c <> nl) as Hns.
  { intros c Hc ->. by rewrite isspace_nl in Hc. }
  induction s as [|c s IH]; simpl; [constructor|].
  destruct (isspace c) eqn:Hc; [exact IH|].
  destruct s as [|c' s].
  { repeat constructor. apply nlfree_cons. split; [auto|apply nlfree_nil]. }
  destruct (isspace c') eqn:Hc'.
  { constructor; [|exact IH]. apply nlfree_cons. split; [auto|apply nlfree_nil]. }
  destruct (split_ws (c' :: s)) as [|t ts].
  { repeat constructor. apply nlfree_cons. split; [auto|apply nlfree_nil]. }
  inversion IH; subst. constructor; [|done].
  apply nlfree_cons. auto.
Qed.

Lemma format_nlfree tpl args h :
  Forall piece_nlfree tpl -> Forall nlfree args ->
  format tpl args = Some h -> nlfree h.
Proof.
  intros Htpl Hargs. revert h.
  induction Htpl as [|p tpl Hp Htpl IH]; intros h; simpl.
  - intros [= <-]. apply nlfree_nil.
  - destruct p as [s|i].
    + destruct (format tpl args) as [r|]; [|discriminate]. simpl.
      intros [= <-]. apply nlfree_app. auto.
    + destruct (args !! i) as [a|] eqn:Ea; [|discriminate].
      destruct (format tpl args) as [r|]; [|discriminate]. simpl.
      intros [= <-]. apply nlfree_app. split; [|auto].
      rewrite Forall_forall in Hargs. apply Hargs.
      by eapply list_elem_of_lookup_2.
Qed.

Lemma join_nlfree sep ws : nlfree sep -> Forall nlfree ws -> nlfree (join sep ws).
Proof.
  intros Hsep. induction 1 as [|w ws Hw Hws IH]; [apply nlfree_nil|].
  simpl. destruct ws as [|w' ws]; [done|].
  apply nlfree_app. split; [done|]. apply nlfree_app. auto.
Qed.

Lemma header_template_nlfree : Forall piece_nlfree HEADER_TEMPLATE.
Proof. repeat constructor; by_compute. Qed.

Lemma make_header_nlfree vals : Forall nlfree vals -> nlfree (make_header vals).
Proof.
  intros Hv. unfold make_header.
  destruct (format HEADER_TEMPLATE vals) as [h|] eqn:E.
  - eapply format_nlfree; eauto using header_template_nlfree.
  - apply nlfree_app. split; [|by_compute].
    apply join_nlfree; [by_compute|].
    apply Forall_map. eapply Forall_impl; [exact Hv|].
    intros v Hvv. change (nlfree (T "meta:" ++ v)).
    apply nlfree_app. split; [by_compute|done].
Qed.

Lemma select_nlfree idx toks vals :
  Forall nlfree toks -> select idx toks = Some vals -> Forall nlfree vals.
Proof.
  intros Ht. unfold select. rewrite mapM_Some.
  induction 1 as [|i v idx' vals' Hiv _ IH]; constructor; [|done].
  rewrite Forall_forall in Ht. apply Ht. by eapply list_elem_of_lookup_2.
Qed.

Lemma header_of_nlfree idx meta : nlfree (header_of idx meta).
Proof.
  unfold header_of. apply make_header_nlfree.
  destruct (select idx (split_ws meta)) as [vals|] eqn:E; [|constructor].
  eapply select_nlfree; [apply split_ws_nlfree | exact E].
Qed.

Lemma string_of_uint_nlfree d :
  nlfree (list_ascii_of_string (NilEmpty.string_of_uint d)).
Proof.
  induction d; simpl; try apply nlfree_nil;
    (apply nlfree_cons; split; [discriminate | assumption]).
Qed.

Lemma str_Z_nlfree n : nlfree (str_Z n).
Proof.
  unfold str_Z, NilZero.string_of_int.
  destruct (Z.to_int n) as [d|d].
  - unfold NilZero.string_of_uint. destruct d; try apply string_of_uint_nlfree.
    by_compute.
  - simpl. apply nlfree_cons. split; [discriminate|].
    unfold NilZero.string_of_uint. destruct d; try apply string_of_uint_nlfree.
    by_compute.
Qed.

(** A written block is the count on a line, the header on a line, then
    one line for each atom line. *)
Lemma lines_render_block n header atom_lines :
  nlfree header -> Forall nlfree atom_lines ->
  lines (render_block n header atom_lines) =
  (str_Z n ++ [nl]) :: (header ++ [nl]) :: map (fun a => a ++ [nl]) atom_lines.
Proof.
  intros Hh Ha. unfold render_block. simpl.
  rewrite lines_line by apply str_Z_nlfree.
  rewrite lines_line by done.
  rewrite <- (app_nil_r (unlines atom_lines)), lines_unlines by done.
  by rewrite app_nil_r.
Qed.

(** ** What the loop writes *)

Lemma emitted_from_drop idx content fin j b :
  lines fin = drop j (lines content) ->
  emitted_from idx fin b -> emitted_from idx content b.
Proof.
  intros Hj (Hh & Ha & Hlen & k & first & meta & Hk & Hn & Hk1 & Hhd & Hat).
  repeat split; try done.
  exists (j + k), first, meta. rewrite Hj in *.
  rewrite lookup_drop in Hk, Hk1. rewrite drop_drop in Hat.
  repeat split; try done.
  - by rewrite <- Nat.add_succ_r.
  - by rewrite <- !Nat.add_succ_r.
Qed.

Lemma readline_lines fin first fin1 :
  readline_at fin = (first, fin1) -> first <> [] ->
  lines fin = first :: lines fin1.
Proof.
  intros H Hf. assert (fin <> []) as Hne by (intros ->; by inversion H; subst).
  rewrite (lines_readline fin Hne). by rewrite H.
Qed.

(** A pass when no operation fails: it leaves the files alone, or it
    appends one block read from the first lines of the stream. *)
Lemma body_quiet_cases idx fp out fin bc w :
  quiet w ->
  quiet (body idx fp out fin bc w).2 /\
  ((fs (body idx fp out fin bc w).2 = fs w /\
    (forall bc', (body idx fp out fin bc w).1 = Ok (Break bc') -> bc' = bc) /\
    forall fin' bc', (body idx fp out fin bc w).1 = Ok (Continue fin' bc') ->
      bc' = bc /\ exists j, lines fin' = drop j (lines fin)) \/
   (exists b fin',
      body idx fp out fin bc w =
        (Ok (Continue fin' (S bc)), append_file out (render b) w) /\
      emitted_from idx fin b /\ exists j, lines fin' = drop j (lines fin))).
Proof.
  intros Hq.
  destruct (readline_at fin) as [first fin1] eqn:H1.
  destruct (decide (first = [])) as [->|Hf].
  { rewrite (body_eof idx fp out fin bc w Hq fin1 H1). split; [done|].
    left. split; [done|]. split; [by intros ? [= <-] | intros ? ? [=]]. }
  pose proof (readline_lines _ _ _ H1 Hf) as L1.
  destruct (decide (strip first = [])) as [Hs|Hs].
  { rewrite (body_blank idx fp out fin bc w Hq first fin1 H1 Hf Hs).
    split; [done|]. left. split; [done|]. split; [intros ? [=]|].
    intros ? ? [= <- <-]. split; [done|]. exists 1. by rewrite L1. }
  destruct (int_ (strip first)) as [n|] eqn:Hn.
  2:{ rewrite (body_count idx fp out fin bc w Hq first fin1 H1 Hs Hn).
      split; [done|]. left. split; [done|]. split; [intros ? [=]|].
      intros ? ? [= <- <-]. split; [done|]. exists 1. by rewrite L1. }
  destruct (readline_at fin1) as [meta fin2] eqn:H2.
  destruct (decide (meta = [])) as [->|Hm].
  { rewrite (body_meta_eof idx fp out fin bc w Hq first fin1 n H1 Hn fin2 H2).
    split; [done|]. left. split; [done|].
    split; [by intros ? [= <-] | intros ? ? [=]]. }
  pose proof (readline_lines _ _ _ H2 Hm) as L2.
  destruct idx as [|i idx'] eqn:Ei.
  { rewrite (body_no_indices [] fp out fin bc w Hq first fin1 n H1 Hn meta fin2 H2 Hm eq_refl).
    split; [done|]. left. split; [done|]. split; [intros ? [=] | intros ? ? [=]]. }
  rewrite <- Ei.
  destruct (decide (length (split_ws (strip meta)) <= foldl Nat.max i idx'))
    as [Hfew|Hmany].
  { rewrite (body_tokens idx fp out fin bc w Hq first fin1 n H1 Hn meta fin2
               i idx' H2 Hm Ei Hfew).
    split; [done|]. left. split; [done|]. split; [intros ? [=]|].
    intros ? ? [= <- <-].
    split; [done|]. exists (2 + Z.to_nat n).
    by rewrite lines_drop_lines, L1, L2. }
  assert (foldl Nat.max i idx' < length (split_ws (strip meta))) as Hmx by lia.
  destruct (select_is_Some i idx' _ Hmx) as [vals Hv]. rewrite <- Ei in Hv.
  destruct (lines_read (Z.to_nat n) fin2 []) as [[atom_lines|] fin3] eqn:Hr.
  2:{ rewrite (body_atoms_eof idx fp out fin bc w Hq first fin1 n H1 Hn meta fin2
                 i idx' vals fin3 H2 Hm Ei Hmx Hv Hr).
      split; [done|]. left. split; [done|].
      split; [by intros ? [= <-] | intros ? ? [=]]. }
  rewrite (body_emit idx fp out fin bc w Hq first fin1 n H1 Hn meta fin2
             i idx' vals atom_lines fin3 H2 Hm Ei Hmx Hv Hr).
  split; [done|]. right.
  apply lines_read_spec in Hr as (Hat & Hle & -> & Hfree). simpl in Hat.
  exists (mkWritten n (make_header vals) atom_lines), (drop_lines (Z.to_nat n) fin2).
  split; [reflexivity|]. split.
  - unfold emitted_from. simpl.
    assert (make_header vals = header_of idx meta) as Hhd.
    { unfold header_of. rewrite <- (split_ws_strip meta). by rewrite Hv. }
    repeat split.
    + rewrite Hhd. apply header_of_nlfree.
    + by rewrite Hat.
    + rewrite Hat, length_map, length_take_le; lia.
    + exists 0, first, meta. rewrite L1, L2. simpl.
      repeat split; done.
  - exists (2 + Z.to_nat n).
    by rewrite lines_drop_lines, L1, L2.
Qed.

Lemma fs_append_file p s w w' :
  fs w' = fs w -> fs (append_file p s w') = fs (append_file p s w).
Proof. unfold append_file. simpl. by intros ->. Qed.

Lemma process_blocks_emits idx fp out content m :
  forall fin, length fin <= m ->
  forall j bc w, quiet w -> is_Some (fs w !! out) ->
    lines fin = drop j (lines content) ->
    exists blocks,
      fs (process_blocks idx fp out fin bc w).2 =
        fs (append_file out (concat (map render blocks)) w) /\
      Forall (emitted_from idx content) blocks /\
      forall bc', (process_blocks idx fp out fin bc w).1 = Ok bc' ->
        bc' = bc + length blocks.
Proof.
  induction m as [|m IH]; intros fin Hlen j bc w Hq Hout Hj.
  { destruct fin; [|simpl in Hlen; lia].
    exists []. rewrite process_blocks_eof by done.
    change (concat (map render [])) with ([] : text).
    rewrite (append_file_nil out w Hout). repeat split; [constructor|].
    intros ? [= <-]. simpl. lia. }
  rewrite process_blocks_unfold. unfold bind.
  pose proof (body_progress idx fp out fin bc w) as Hp.
  destruct (body_quiet_cases idx fp out fin bc w Hq)
    as [Hq' [(Hfs & Hbrk & Hcont) | (b & fin' & Hb & Hem & j' & Hj')]].
  - destruct (body idx fp out fin bc w) as [[[bc'|fin' bc']|e|] w1] eqn:Eb;
      cbn [fst snd] in *.
    + exists []. change (concat (map render [])) with ([] : text).
      rewrite (append_file_nil out w Hout).
      repeat split; [done | constructor |]. intros ? [= <-].
      rewrite (Hbrk _ eq_refl). simpl. lia.
    + specialize (Hp _ _ eq_refl). cbn beta iota in Hp.
      destruct (Hcont _ _ eq_refl) as [-> (j' & Hj')].
      destruct (IH fin' ltac:(lia) (j + j') bc w1 Hq') as (blocks & Hfs' & Hall & Hbc).
      * by rewrite Hfs.
      * by rewrite Hj', Hj, drop_drop.
      * exists blocks. split; [|done].
        rewrite Hfs'. by apply fs_append_file.
    + exists []. change (concat (map render [])) with ([] : text).
      rewrite (append_file_nil out w Hout).
      repeat split; [done | constructor |]. intros ? [=].
    + exists []. change (concat (map render [])) with ([] : text).
      rewrite (append_file_nil out w Hout).
      repeat split; [done | constructor |]. intros ? [=].
  - rewrite Hb in *. cbn [fst snd] in *.
    specialize (Hp _ _ eq_refl). cbn beta iota in Hp.
    destruct (IH fin' ltac:(lia) (j + j') (S bc) (append_file out (render b) w))
      as (blocks & Hfs' & Hall & Hbc); try done.
    + unfold append_file. simpl. rewrite lookup_insert_eq. eauto.
    + by rewrite Hj', Hj, drop_drop.
    + exists (b :: blocks). split; [|split].
      * rewrite Hfs'. cbn [map concat]. by rewrite append_file_app.
      * constructor; [|done]. by eapply emitted_from_drop.
      * intros bc' Hbc'. apply Hbc in Hbc'. simpl. lia.
Qed.

(** C1, amended.  What [process_file] leaves in its output file is a
    sequence of blocks, each made of lines of the input: the count [n] on
    a line, one header line, then one line for each of the [max(n, 0)]
    input lines after the metadata line, each as in the input and ended
    by a newline; so exactly [n] atom lines whenever [n] is not
    negative. *)
Theorem emitted_blocks_shape ds idx fp od out w content :
  quiet w -> fs w !! fp = Some content -> out_path_of ds fp od = Some out ->
  exists blocks,
    fs (process_file ds idx fp od w).2 !! out = Some (concat (map render blocks)) /\
    Forall (fun b =>
      emitted_from idx content b /\
      lines (render b) =
        (str_Z (w_count b) ++ [nl]) :: (w_header b ++ [nl]) ::
        map (fun a => a ++ [nl]) (w_atoms b) /\
      ((0 <= w_count b)%Z -> Z.of_nat (length (w_atoms b)) = w_count b)) blocks.
Proof.
  intros Hq Hfp Hout.
  destruct (process_blocks_emits idx fp out content (length content) content
              (Nat.le_refl _) 0 0 (opened fp out w))
    as (blocks & Hfs & Hall & _); try done.
  { rewrite opened_out. eauto. }
  exists blocks. split.
  - rewrite (process_file_quiet _ _ _ _ _ _ _ Hq Hfp Hout).
    unfold try_except, bind.
    destruct (process_blocks idx fp out content 0 (opened fp out w))
      as [[bc|e|] w1]; simpl in *; rewrite Hfs;
      rewrite lookup_insert_eq, lookup_insert_eq; reflexivity.
  - eapply Forall_impl; [exact Hall|]. intros b Hb.
    split; [exact Hb|]. destruct Hb as (Hh & Ha & Hlen & _).
    split; [by apply lines_render_block|].
    intros Hn. rewrite Hlen. lia.
Qed.

Lemma emitted_blocks_shape_witness :
  quiet (one_file sample_path (input_text [water])) /\
  exists blocks,
    fs (process_file false NANCI_INDICES sample_path None
          (one_file sample_path (input_text [water]))).2 !! sample_out
      = Some (concat (map render blocks)) /\
    Forall (fun b =>
      emitted_from NANCI_INDICES (input_text [water]) b /\
      lines (render b) =
        (str_Z (w_count b) ++ [nl]) :: (w_header b ++ [nl]) ::
        map (fun a => a ++ [nl]) (w_atoms b) /\
      ((0 <= w_count b)%Z -> Z.of_nat (length (w_atoms b)) = w_count b)) blocks.
Proof.
  split; [reflexivity|].
  apply (emitted_blocks_shape false NANCI_INDICES sample_path None sample_out
           (one_file sample_path (input_text [water])) (input_text [water])).
  - reflexivity.
  - by_compute.
  - reflexivity.
Defined.

(** The claim C1 as it stands fails: under the count line -2 a block is
    written whose first line is -2 and which has no atom line at all;
    the line after the metadata line is then read as a count line. *)
Lemma negative_count_block :
  let content := T "-2" ++ [nl] ++ meta36 ++ [nl] ++ T "H 0 0 0" ++ [nl] in
  let r := process_file false NANCI_INDICES sample_path None
             (one_file sample_path content) in
  fs r.2 !! sample_out = Some (T "-2" ++ [nl] ++ sample_header ++ [nl]) /\
  lines (T "-2" ++ [nl] ++ sample_header ++ [nl])
    = [T "-2" ++ [nl]; sample_header ++ [nl]] /\
  log r.2 = [InfoProcessing sample_path; WarnCount (T "H 0 0 0") sample_path;
             InfoFinished sample_path 1 sample_out].
Proof. vm_compute. repeat split. Qed.

(** ** Output names *)

Section Split.

Variable c : ascii.

Lemma split_on_nonempty s : split_on c s <> [].
Proof.
  destruct s as [|x s]; simpl; [done|].
  destruct (bool_decide (x = c)); [done|]. by destruct (split_on c s).
Qed.

Lemma split_on_free s : c ∉ s -> split_on c s = [s].
Proof.
  induction s as [|x s IH]; [done|]. intros Hs.
  apply not_elem_of_cons in Hs as [Hx Hs]. simpl.
  rewrite bool_decide_false by congruence. by rewrite IH.
Qed.

Lemma split_on_app s t :
  c ∉ t -> split_on c (s ++ c :: t) = split_on c s ++ [t].
Proof.
  intros Ht. induction s as [|x s IH]; simpl.
  - rewrite bool_decide_true by done. by rewrite split_on_free.
  - destruct (bool_decide (x = c)); [by rewrite IH|].
    rewrite IH. pose proof (split_on_nonempty s).
    by destruct (split_on c s).
Qed.

Lemma join_split s : join [c] (split_on c s) = s.
Proof.
  induction s as [|x s IH]; [reflexivity|]. simpl.
  pose proof (split_on_nonempty s) as Hne.
  destruct (bool_decide (x = c)) eqn:Hx.
  - apply bool_decide_eq_true in Hx as ->.
    destruct (split_on c s) as [|w ws]; [done|]. simpl in *. by rewrite IH.
  - destruct (split_on c s) as [|w ws]; [done|]. simpl in *.
    destruct ws; by rewrite <- IH.
Qed.

Lemma join_snoc sep ws w :
  ws <> [] -> join sep (ws ++ [w]) = join sep ws ++ sep ++ w.
Proof.
  induction ws as [|v ws IH]; [done|]. intros _.
  destruct ws as [|v' ws]; [reflexivity|].
  change (join sep ((v :: v' :: ws) ++ [w]))
    with (v ++ sep ++ join sep ((v' :: ws) ++ [w])).
  rewrite IH by done. simpl. by rewrite <- !app_assoc.
Qed.

Lemma split_on_length_free s : c ∉ s <-> length (split_on c s) < 2.
Proof.
  split.
  - intros H. rewrite split_on_free by done. simpl. lia.
  - induction s as [|x s IH]; [intros; apply not_elem_of_nil|]. simpl.
    destruct (bool_decide (x = c)) eqn:Hx.
    + simpl. pose proof (split_on_nonempty s).
      destruct (split_on c s); [done|]. simpl. lia.
    + apply bool_decide_eq_false in Hx.
      intros Hlen. apply not_elem_of_cons. split; [congruence|].
      apply IH. pose proof (split_on_nonempty s).
      destruct (split_on c s); [done|]. simpl in *. lia.
Qed.

Lemma rfind_None s : rfind c s = None <-> c ∉ s.
Proof.
  induction s as [|x s IH]; simpl.
  - split; [intros; apply not_elem_of_nil | done].
  - rewrite not_elem_of_cons. destruct (rfind c s) as [i|].
    + split; [done|]. intros [_ H]. apply IH in H. done.
    + destruct (bool_decide (x = c)) eqn:Hx.
      * apply bool_decide_eq_true in Hx. split; [done|]. intros [H _]. congruence.
      * apply bool_decide_eq_false in Hx. split; [|done]. intros _.
        split; [congruence|]. by apply IH.
Qed.

(** The last occurrence splits a text in a unique way. *)
Lemma rfind_Some s i :
  rfind c s = Some i ->
  exists x t, s = x ++ c :: t /\ (c ∉ t) /\ i = length x.
Proof.
  revert i. induction s as [|a s IH]; intros i; simpl; [done|].
  destruct (rfind c s) as [j|] eqn:Ej.
  - intros [= <-]. destruct (IH j eq_refl) as (x & t & -> & Ht & ->).
    by exists (a :: x), t.
  - destruct (bool_decide (a = c)) eqn:Ha; [|done].
    apply bool_decide_eq_true in Ha as ->. intros [= <-].
    exists [], s. repeat split. by apply rfind_None.
Qed.

Lemma rfind_app x t : c ∉ t -> rfind c (x ++ c :: t) = Some (length x).
Proof.
  intros Ht. induction x as [|a x IH]; simpl.
  - apply rfind_None in Ht. rewrite Ht. by rewrite bool_decide_true.
  - by rewrite IH.
Qed.

Lemma last_split_unique x t x' t' :
  c ∉ t -> c ∉ t' -> x ++ c :: t = x' ++ c :: t' -> x = x' /\ t = t'.
Proof.
  intros Ht Ht' E.
  pose proof (rfind_app x t Ht) as R. rewrite E, rfind_app in R by done.
  injection R as R.
  apply app_inj_1 in E as [-> E]; [|done]. by injection E as ->.
Qed.

End Split.

Lemma REFORMAT_nodot : dot ∉ REFORMAT.
Proof. by_compute. Qed.

Lemma REFORMAT_nonempty x : x ++ REFORMAT <> [].
Proof. by destruct x. Qed.

#[global] Opaque REFORMAT.

Section OutputName.

Variable ds : bool.

Lemma take_length_app {A} (l k : list A) : take (length l) (l ++ k) = l.
Proof. by rewrite take_app_length. Qed.

(** Two dots or more: [_reformat] goes in front of the last dot. *)
Lemma make_output_name_multi d x t :
  dot ∈ x -> dot ∉ t ->
  make_output_name ds (mkPath d (x ++ dot :: t)) =
  Some (mkPath d (x ++ REFORMAT ++ dot :: t)).
Proof.
  intros Hx Ht. unfold make_output_name, with_name. simpl name.
  destruct (x ++ dot :: t) as [|a nm] eqn:Enm; [by destruct x|].
  rewrite <- Enm. clear a nm Enm. simpl. do 2 f_equal.
  rewrite split_on_app by done.
  assert (2 <= length (split_on dot x)) as Hlen.
  { destruct (decide (length (split_on dot x) < 2)) as [H|H]; [|lia].
    by apply split_on_length_free in H. }
  pose proof (join_split dot x) as Hj.
  destruct (split_on dot x) as [|mid ps _] using rev_ind; [simpl in Hlen; lia|].
  rewrite length_app in Hlen. simpl in Hlen.
  rewrite !length_app. simpl.
  rewrite bool_decide_true by lia.
  replace (length ps + 1 + 1 - 2) with (length ps) by lia.
  rewrite take_app_le by (rewrite length_app; simpl; lia).
  rewrite take_length_app.
  rewrite lookup_app_l by (rewrite length_app; simpl; lia).
  rewrite lookup_app_r, Nat.sub_diag by lia.
  rewrite last_snoc. cbn [default lookup list_lookup].
  rewrite join_snoc in Hj by (destruct ps; [simpl in Hlen; lia | done]).
  rewrite <- Hj. by rewrite <- !app_assoc.
Qed.

Lemma existsb_nondot x :
  dot ∉ x -> existsb (fun c => negb (bool_decide (c = dot))) x = negb (bool_decide (x = [])).
Proof.
  destruct x as [|a x]; [done|]. intros H.
  apply not_elem_of_cons in H as [Ha _]. simpl.
  rewrite (bool_decide_false (a = dot)) by congruence. done.
Qed.

(** One dot: [_reformat] goes in front of it when it splits the name
    into a stem and a suffix, and at the end of the name otherwise. *)
Lemma make_output_name_single d x t :
  dot ∉ x -> dot ∉ t ->
  make_output_name ds (mkPath d (x ++ dot :: t)) =
  Some (mkPath d
    (if negb (bool_decide (x = [])) && (ds || negb (bool_decide (t = [])))
     then x ++ REFORMAT ++ dot :: t
     else (x ++ dot :: t) ++ REFORMAT)).
Proof.
  intros Hx Ht. unfold make_output_name, with_name. simpl name.
  destruct (x ++ dot :: t) as [|a nm] eqn:Enm; [by destruct x|].
  rewrite <- Enm. clear a nm Enm. simpl. do 2 f_equal.
  rewrite split_on_app, split_on_free by done. simpl.
  unfold stem, suffix, splits_at. simpl name.
  rewrite rfind_app by done.
  rewrite take_length_app.
  rewrite drop_app_length.
  destruct ds; simpl.
  - rewrite existsb_nondot by done. rewrite andb_true_r.
    destruct (negb (bool_decide (x = []))); [reflexivity|].
    by rewrite app_nil_r.
  - assert ((0 <? length x) && (length x <? length (x ++ dot :: t) - 1) =
            negb (bool_decide (x = [])) && negb (bool_decide (t = []))) as ->.
    { rewrite length_app. simpl.
      destruct x as [|a x]; [reflexivity|].
      destruct t as [|b t]; simpl.
      - replace (length x + 1 - 0) with (S (length x)) by lia.
        by rewrite Nat.ltb_irrefl.
      - apply Nat.ltb_lt. lia. }
    destruct (negb (bool_decide (x = [])) && negb (bool_decide (t = [])));
      [reflexivity|].
    by rewrite app_nil_r.
Qed.

(** No dot: [_reformat] goes at the end. *)
Lemma make_output_name_plain d nm :
  nm <> [] -> dot ∉ nm ->
  make_output_name ds (mkPath d nm) = Some (mkPath d (nm ++ REFORMAT)).
Proof.
  intros Hne Hnm. unfold make_output_name, with_name. simpl name.
  destruct nm as [|a nm]; [done|]. do 2 f_equal.
  rewrite split_on_free by done. simpl.
  unfold stem, suffix. simpl name.
  apply rfind_None in Hnm. rewrite Hnm. by rewrite app_nil_r.
Qed.

Lemma make_output_name_None p : make_output_name ds p = None <-> name p = [].
Proof.
  unfold make_output_name, with_name. by destruct (name p).
Qed.

End OutputName.

(** The two shapes of an output name. *)
Lemma make_output_name_cases ds d nm :
  nm <> [] ->
  (exists x t,
     nm = x ++ dot :: t /\ (dot ∉ t) /\ x <> [] /\
     make_output_name ds (mkPath d nm) = Some (mkPath d (x ++ REFORMAT ++ dot :: t))) \/
  (make_output_name ds (mkPath d nm) = Some (mkPath d (nm ++ REFORMAT)) /\
   ((dot ∉ nm) \/ (exists t, nm = dot :: t /\ (dot ∉ t)) \/
    (ds = false /\ exists x, nm = x ++ [dot] /\ (dot ∉ x) /\ x <> []))).
Proof.
  intros Hne. destruct (rfind dot nm) as [i|] eqn:Er.
  2:{ apply rfind_None in Er. right. split; [|by left].
      by apply make_output_name_plain. }
  apply rfind_Some in Er as (x & t & -> & Ht & _).
  destruct (decide (dot ∈ x)) as [Hx|Hx].
  { left. exists x, t. repeat split; try done.
    - intros ->. by apply not_elem_of_nil in Hx.
    - by apply make_output_name_multi. }
  rewrite (make_output_name_single ds d x t Hx Ht).
  destruct (decide (x = [])) as [->|Hxe].
  { right. split; [reflexivity|]. right. left. by exists t. }
  rewrite (bool_decide_false (x = [])) by done. simpl.
  destruct ds; simpl.
  { left. by exists x, t. }
  destruct (decide (t = [])) as [->|Hte].
  { right. split; [reflexivity|]. right. right. split; [done|]. by exists x. }
  rewrite (bool_decide_false (t = [])) by done. simpl.
  left. by exists x, t.
Qed.

(** C6, amended.  The output name carries [_reformat] after the
    second-to-last segment when the name has two dots or more, and after
    the stem otherwise.  Two paths of one directory with the same output
    name are equal, but for one family: before version 3.14 of the
    interpreter the names [x._reformat] and [x_reformat.] both give
    [x_reformat._reformat]. *)
Theorem make_output_name_collisions ds :
  (forall d pre mid suf,
     dot ∉ mid -> dot ∉ suf ->
     make_output_name ds (mkPath d (pre ++ dot :: mid ++ dot :: suf)) =
     Some (mkPath d (pre ++ dot :: mid ++ REFORMAT ++ dot :: suf))) /\
  (forall d base ext,
     dot ∉ base -> dot ∉ ext -> base <> [] -> ext <> [] ->
     make_output_name ds (mkPath d (base ++ dot :: ext)) =
       Some (mkPath d (base ++ REFORMAT ++ dot :: ext)) /\
     make_output_name ds (mkPath d base) = Some (mkPath d (base ++ REFORMAT))) /\
  (forall a b,
     parent a = parent b ->
     make_output_name ds a = make_output_name ds b ->
     a = b \/
     (ds = false /\
      exists x, x <> [] /\ (dot ∉ x) /\
        ((name a = x ++ dot :: REFORMAT /\ name b = x ++ REFORMAT ++ [dot]) \/
         (name b = x ++ dot :: REFORMAT /\ name a = x ++ REFORMAT ++ [dot])))).
Proof.
  split; [|split].
  - intros d pre mid suf Hmid Hsuf.
    replace (pre ++ dot :: mid ++ dot :: suf) with ((pre ++ dot :: mid) ++ dot :: suf)
      by (by rewrite <- app_assoc).
    rewrite make_output_name_multi; [by rewrite <- app_assoc | | done].
    apply elem_of_app. right. by left.
  - intros d base ext Hb He Hbe Hee. split.
    + rewrite make_output_name_single by done.
      rewrite (bool_decide_false (base = [])), (bool_decide_false (ext = [])) by done.
      simpl. by rewrite orb_true_r.
    + by apply make_output_name_plain.
  - intros [d na] [d' nb]. simpl. intros <- Heq.
    destruct (decide (na = [])) as [->|Ha].
    { left. symmetry in Heq. apply make_output_name_None in Heq. simpl in Heq.
      by subst. }
    destruct (decide (nb = [])) as [->|Hb].
    { left. apply make_output_name_None in Heq. simpl in Heq. by subst. }
    pose proof REFORMAT_nodot as HR.
    assert (forall x t nm, (dot ∉ t) -> x <> [] ->
              (x ++ REFORMAT ++ dot :: t) = nm ++ REFORMAT ->
              ((dot ∉ nm) \/ (exists t', nm = dot :: t' /\ (dot ∉ t')) \/
               (ds = false /\ exists x', nm = x' ++ [dot] /\ (dot ∉ x') /\ x' <> [])) ->
              ds = false /\ (dot ∉ x) /\ t = REFORMAT /\ nm = x ++ REFORMAT ++ [dot])
      as Hmixed.
    { intros x t nm Ht Hx E [Hnm | [(t' & -> & Ht') | (Hds & x' & -> & Hx' & Hxe)]].
      - exfalso. assert (dot ∈ nm ++ REFORMAT) as Hin.
        { rewrite <- E. rewrite !elem_of_app. right. right. by left. }
        apply elem_of_app in Hin as [?|?]; done.
      - exfalso. rewrite app_assoc in E.
        change ((dot :: t') ++ REFORMAT) with ([] ++ dot :: (t' ++ REFORMAT)) in E.
        apply last_split_unique in E as [E _]; try done.
        + by apply REFORMAT_nonempty in E.
        + rewrite elem_of_app. intros [?|?]; done.
      - rewrite (app_assoc x) in E. rewrite <- (app_assoc x' [dot]) in E.
        change ([dot] ++ REFORMAT) with (dot :: REFORMAT) in E.
        apply last_split_unique in E as [E1 E2]; try done.
        subst. repeat split; try done.
        + intros Hin. apply Hx'. apply elem_of_app. by left.
        + by rewrite <- app_assoc. }
    destruct (make_output_name_cases ds d na Ha)
      as [(x & t & -> & Ht & Hx & Ea) | (Ea & Hca)];
    destruct (make_output_name_cases ds d nb Hb)
      as [(x' & t' & -> & Ht' & Hx' & Eb) | (Eb & Hcb)];
    rewrite Ea, Eb in Heq; injection Heq as Heq.
    + left. rewrite !(app_assoc _ REFORMAT) in Heq.
      apply last_split_unique in Heq as [E1 ->]; try done.
      apply app_inv_tail in E1. by subst.
    + right. destruct (Hmixed x t nb Ht Hx Heq Hcb) as (Hds & Hxd & -> & ->).
      split; [done|]. exists x. repeat split; try done. by left.
    + right. symmetry in Heq.
      destruct (Hmixed x' t' na Ht' Hx' Heq Hca) as (Hds & Hxd & -> & ->).
      split; [done|]. exists x'. repeat split; try done. by right.
    + left. apply app_inv_tail in Heq. by subst.
Qed.

(** The claim C6 as it stands fails: before version 3.14 of the
    interpreter, two distinct names of one directory get the same output
    name. *)
Lemma make_output_name_collision :
  mkPath (T "data") (T "a._reformat") <> mkPath (T "data") (T "a_reformat.") /\
  make_output_name false (mkPath (T "data") (T "a._reformat")) =
    Some (mkPath (T "data") (T "a_reformat._reformat")) /\
  make_output_name false (mkPath (T "data") (T "a_reformat.")) =
    Some (mkPath (T "data") (T "a_reformat._reformat")).
Proof. split; [discriminate|]. vm_compute. split; reflexivity. Qed.

Lemma make_output_name_collisions_witness :
  make_output_name false (mkPath (T "data") (T "nenci.part.xyz")) =
    Some (mkPath (T "data") (T "nenci.part_reformat.xyz")) /\
  make_output_name false (mkPath (T "data") (T "nenci.xyz")) =
    Some (mkPath (T "data") (T "nenci_reformat.xyz")) /\
  (mkPath (T "data") (T "a._reformat") = mkPath (T "data") (T "a_reformat.") \/
   (false = false /\
    exists x, x <> [] /\ (dot ∉ x) /\
      ((T "a._reformat" = x ++ dot :: REFORMAT /\
        T "a_reformat." = x ++ REFORMAT ++ [dot]) \/
       (T "a_reformat." = x ++ dot :: REFORMAT /\
        T "a._reformat" = x ++ REFORMAT ++ [dot])))).
Proof.
  destruct (make_output_name_collisions false) as (Hmulti & Hsingle & Hinj).
  split; [|split].
  - apply (Hmulti (T "data") (T "nenci") (T "part") (T "xyz")); by_compute.
  - apply (Hsingle (T "data") (T "nenci") (T "xyz")); by_compute.
  - apply (Hinj (mkPath (T "data") (T "a._reformat"))
             (mkPath (T "data") (T "a_reformat."))); reflexivity.
Defined.

(** ** Failures stay inside [process_file] *)

Lemma grows_run {A} (m : M A) w r w' : grows m -> m w = (r, w') -> extends w w'.
Proof. intros Hm H. specialize (Hm w). by rewrite H in Hm. Qed.

Lemma extends_log w w' : extends w w' -> exists evs, log w' = log w ++ evs.
Proof. intros (_ & _ & [evs Hl]). by exists evs. Qed.

Lemma finally_inv_ok {A} (m : M A) (r : M unit) w a w' :
  finally m r w = (Ok a, w') ->
  exists w1, m w = (Ok a, w1) /\ r w1 = (Ok tt, w').
Proof.
  unfold finally. destruct (m w) as [[a'|e|] w1]; [| |done];
    destruct (r w1) as [[[]|e'|] w2] eqn:Hr; try done.
  intros [= <- <-]. by exists w1.
Qed.

Lemma io_same r w w' :
  io w = (r, w') -> fs w' = fs w /\ dirs w' = dirs w /\ log w' = log w.
Proof.
  unfold io. destruct (faults w) as [|[] fl]; by intros [= <- <-].
Qed.

(** Whatever the faults, [process_file] on a path with a name returns;
    its log begins with the entry for the file and ends with the count
    of blocks or with the failure. *)
Lemma process_file_returns ds idx fp od w :
  name fp <> [] ->
  exists w' evs e,
    process_file ds idx fp od w = (Ok tt, w') /\ extends w w' /\
    log w' = log w ++ InfoProcessing fp :: evs ++ [e] /\ closes fp e.
Proof.
  intros Hname.
  pose proof (grows_process_file ds idx fp od w) as Hext.
  pose proof (safe_process_file ds idx fp od w) as Hsafe.
  unfold process_file in *. rewrite bind_logger in *.
  destruct (make_output_name ds fp) as [o|] eqn:Eo;
    [|by apply make_output_name_None in Eo].
  simpl lift in *. rewrite bind_ret in *. cbv zeta in *.
  set (out := if bool_decide (default (parent fp) od <> parent fp)
              then mkPath (default (parent fp) od) (name o) else o) in *.
  set (w1 := add_log (InfoProcessing fp) w) in *.
  unfold try_except in *.
  set (m := (fin <- open_r fp ;;
             finally
               (open_w out ;;
                finally
                  (block_count <- process_blocks idx fp out fin 0 ;;
                   logger (InfoFinished fp block_count out))
                  close)
               close)) in *.
  assert (grows m) as Hm.
  { unfold m. repeat first [apply grows_process_blocks | grows_step]. }
  destruct (m w1) as [[[]|x|] w2] eqn:Em; simpl in Hsafe; [| |done].
  - unfold m in Em.
    apply bind_inv_ok in Em as (fin & wa & Ha & Em).
    apply finally_inv_ok in Em as (wb & Em & Hcb).
    apply bind_inv_ok in Em as ([] & wc & Hc & Em).
    apply finally_inv_ok in Em as (wd & Em & Hcd).
    apply bind_inv_ok in Em as (bc & we & He & Em).
    injection Em as <-.
    apply io_same in Hcb as (_ & _ & Hlb). apply io_same in Hcd as (_ & _ & Hld).
    assert (extends w1 we) as Hwe.
    { eapply extends_trans; [eapply grows_run; [apply grows_open_r | exact Ha]|].
      eapply extends_trans; [eapply grows_run; [apply grows_open_w | exact Hc]|].
      eapply grows_run; [apply grows_process_blocks | exact He]. }
    destruct (extends_log _ _ Hwe) as [evs Hevs].
    exists w2, evs, (InfoFinished fp bc out).
    split; [reflexivity|]. split; [exact Hext|]. split.
    + rewrite Hlb, Hld. simpl. rewrite Hevs. simpl. by rewrite <- !app_assoc.
    + left. by exists bc, out.
  - assert (extends w1 w2) as Hw2 by (eapply grows_run; [exact Hm | exact Em]).
    destruct (extends_log _ _ Hw2) as [evs Hevs].
    exists (add_log (ExcFatal fp x) w2), evs, (ExcFatal fp x).
    split; [reflexivity|]. split; [exact Hext|]. split.
    + simpl. rewrite Hevs. simpl. by rewrite <- !app_assoc.
    + right. by exists x.
Qed.

Lemma insert_sorted_elem x y l : y ∈ insert_sorted x l <-> y = x \/ y ∈ l.
Proof.
  induction l as [|z l IH]; simpl.
  - rewrite list_elem_of_singleton, elem_of_nil. tauto.
  - destruct (text_leb x z).
    + by rewrite elem_of_cons.
    + rewrite !elem_of_cons, IH. tauto.
Qed.

Lemma sorted_elem y l : y ∈ sorted l <-> y ∈ l.
Proof.
  induction l as [|x l IH]; simpl; [done|].
  rewrite insert_sorted_elem, IH, elem_of_cons. tauto.
Qed.

(** ** The older [reformat] *)

Lemma split_on_cons_free c t rest :
  c ∉ t -> split_on c (t ++ c :: rest) = t :: split_on c rest.
Proof.
  induction t as [|x t IH]; intros Ht; simpl.
  - by rewrite bool_decide_true.
  - apply not_elem_of_cons in Ht as [Hx Ht].
    rewrite bool_decide_false by congruence. by rewrite IH.
Qed.

Lemma token_nospace t : token t -> space ∉ t.
Proof.
  intros [_ Ht] Hin. rewrite Forall_forall in Ht. by apply Ht in Hin.
Qed.

Lemma token_nlfree t : token t -> nlfree t.
Proof.
  intros [_ Ht] Hin. rewrite Forall_forall in Ht. by apply Ht in Hin.
Qed.

(** Splitting at single spaces finds every token but the last, whatever
    follows the line. *)
Lemma split_on_join toks tail i :
  Forall token toks -> S i < length toks ->
  split_on space (join [space] toks ++ tail) !! i = toks !! i.
Proof.
  intros Htoks. revert i. induction Htoks as [|t toks Ht Htoks IH]; intros i Hi.
  { simpl in Hi. lia. }
  destruct toks as [|t' toks]; [simpl in Hi; lia|].
  change (join [space] (t :: t' :: toks))
    with (t ++ [space] ++ join [space] (t' :: toks)).
  rewrite <- !app_assoc. simpl app at 2.
  change ([space] ++ ?x) with (space :: x).
  rewrite split_on_cons_free by (by apply token_nospace).
  destruct i as [|i]; [reflexivity|]. simpl lookup.
  apply IH. simpl in *. lia.
Qed.

Lemma split_ws_cons c s :
  isspace c = false ->
  split_ws (c :: s) =
  match s with
  | [] => [[c]]
  | c' :: _ =>
      if isspace c' then [c] :: split_ws s
      else match split_ws s with
           | w :: ws => (c :: w) :: ws
           | [] => [[c]]
           end
  end.
Proof. intros Hc. simpl. by rewrite Hc. Qed.

Lemma split_ws_token t rest :
  token t ->
  split_ws (t ++ space :: rest) = t :: split_ws rest /\ split_ws t = [t].
Proof.
  intros [Hne Ht]. induction Ht as [|c t Hc Ht IH]; [done|].
  destruct t as [|c' t].
  - split; [|by rewrite split_ws_cons].
    cbn [app]. by rewrite split_ws_cons.
  - destruct (IH ltac:(done)) as [IH1 IH2].
    inversion Ht as [|? ? Hc' _]; subst.
    split.
    + cbn [app] in *. rewrite split_ws_cons by done. by rewrite Hc', IH1.
    + rewrite split_ws_cons by done. by rewrite Hc', IH2.
Qed.

Lemma split_ws_join toks : Forall token toks -> split_ws (join [space] toks) = toks.
Proof.
  induction 1 as [|t toks Ht Htoks IH]; [reflexivity|].
  destruct toks as [|t' toks].
  - simpl. by apply (split_ws_token t []).
  - change (join [space] (t :: t' :: toks))
      with (t ++ space :: join [space] (t' :: toks)).
    destruct (split_ws_token t (join [space] (t' :: toks)) Ht) as [-> _].
    by rewrite IH.
Qed.

Lemma join_tokens_nlfree toks : Forall token toks -> nlfree (join [space] toks).
Proof.
  intros H. apply join_nlfree; [by_compute|].
  eapply Forall_impl; [exact H|]. apply token_nlfree.
Qed.

Lemma mapM_agree {A B} (f g : A -> option B) l :
  Forall (fun x => f x = g x) l -> mapM f l = mapM g l.
Proof.
  induction 1 as [|x l Hx Hl IH]; [reflexivity|].
  cbn. by rewrite Hx, IH.
Qed.


(** On a plain metadata line the two scripts select the same values
    and build the same header. *)
Lemma plain_header toks :
  Forall token toks -> 36 <= length toks ->
  exists vals,
    select NANCI_INDICES toks = Some vals /\
    mapM (fun i => split_on space (join [space] toks ++ [nl]) !! i) NANCI_INDICES
      = Some vals /\
    percent REFORMAT_TEMPLATE vals = Some (make_header vals ++ [nl]).
Proof.
  intros Htoks Hlen.
  assert (mapM (fun i => split_on space (join [space] toks ++ [nl]) !! i) NANCI_INDICES
          = select NANCI_INDICES toks) as ->.
  { apply mapM_agree. unfold NANCI_INDICES.
    repeat constructor; apply split_on_join; try done; lia. }
  unfold select, NANCI_INDICES.
  destruct (toks !! 16) as [v0|] eqn:E0; [|apply lookup_ge_None in E0; lia].
  destruct (toks !! 18) as [v1|] eqn:E1; [|apply lookup_ge_None in E1; lia].
  destruct (toks !! 20) as [v2|] eqn:E2; [|apply lookup_ge_None in E2; lia].
  destruct (toks !! 22) as [v3|] eqn:E3; [|apply lookup_ge_None in E3; lia].
  destruct (toks !! 24) as [v4|] eqn:E4; [|apply lookup_ge_None in E4; lia].
  destruct (toks !! 26) as [v5|] eqn:E5; [|apply lookup_ge_None in E5; lia].
  destruct (toks !! 28) as [v6|] eqn:E6; [|apply lookup_ge_None in E6; lia].
  destruct (toks !! 30) as [v7|] eqn:E7; [|apply lookup_ge_None in E7; lia].
  destruct (toks !! 32) as [v8|] eqn:E8; [|apply lookup_ge_None in E8; lia].
  destruct (toks !! 34) as [v9|] eqn:E9; [|apply lookup_ge_None in E9; lia].
  exists [v0; v1; v2; v3; v4; v5; v6; v7; v8; v9].
  assert (mapM (fun i => toks !! i) [16; 18; 20; 22; 24; 26; 28; 30; 32; 34] =
          Some [v0; v1; v2; v3; v4; v5; v6; v7; v8; v9]) as Hsel.
  { cbn. by rewrite E0, E1, E2, E3, E4, E5, E6, E7, E8, E9. }
  split; [done|]. split; [done|].
  unfold make_header. cbn. repeat (rewrite <- app_assoc; cbn [app]).
  reflexivity.
Qed.

Lemma bind_read_atoms {B} atom_lines rest acc (k : text * text -> M B) w :
  quiet w -> Forall nlfree atom_lines ->
  bind (read_atoms (length atom_lines) (unlines atom_lines ++ rest) acc) k w =
  k (acc ++ unlines atom_lines, rest) w.
Proof.
  intros Hq Ha. revert acc. induction Ha as [|l ls Hl Hls IH]; intros acc.
  - simpl. by rewrite app_nil_r.
  - cbn [length read_atoms]. rewrite bind_assoc, bind_readline by done.
    rewrite unlines_cons. rewrite <- app_assoc. cbn [app].
    rewrite readline_at_line by done. cbn [fst snd].
    rewrite IH. by rewrite <- !app_assoc.
Qed.

Lemma bind_lift_some {A B} e (a : A) (k : A -> M B) w :
  bind (lift e (Some a)) k w = k a w.
Proof. reflexivity. Qed.

(** The older script on a plain block: the same text is written. *)
Lemma reformat_block_plain out b rest w :
  quiet w -> plain_block b ->
  reformat_block out (block_text b ++ rest) w =
  (Ok rest, append_file out (output_block NANCI_INDICES b) w).
Proof.
  intros Hq (Hc & Hn & Ha & toks & Hm & Hlen & Htoks).
  destruct (plain_header toks Htoks Hlen) as (vals & Hsel & Hdata & Hpct).
  assert (nlfree (meta_line b)) as Hmf by (rewrite Hm; by apply join_tokens_nlfree).
  unfold reformat_block, block_text. rewrite <- !app_assoc. cbn [app].
  rewrite bind_readline, readline_at_line by done.
  assert (int_ (count_line b ++ [nl]) = Some (Z.of_nat (length (atoms b)))) as ->
    by (by rewrite int_nl).
  rewrite bind_lift_some.
  rewrite bind_readline, readline_at_line by done.
  cbv beta iota zeta. rewrite Nat2Z.id.
  rewrite bind_read_atoms by done. cbv beta iota zeta.
  rewrite bind_write by done. rewrite Hm, Hdata, bind_lift_some.
  rewrite Hpct, bind_lift_some.
  rewrite bind_write by (by apply quiet_append_file).
  rewrite bind_write by (by apply quiet_append_file).
  rewrite !append_file_app. unfold ret. do 2 f_equal.
  unfold output_block, header_of, render_block.
  rewrite Hm, split_ws_join, Hsel by done. simpl default.
  by rewrite <- !app_assoc.
Qed.

Lemma try_except_ok {A} (m : M A) h w a w' :
  m w = (Ok a, w') -> try_except m h w = (Ok a, w').
Proof. unfold try_except. by intros ->. Qed.

Lemma reformat_loop_blocks addr out bs :
  Forall plain_block bs ->
  forall fuel rest w, quiet w -> is_Some (fs w !! out) ->
    reformat_loop (length bs + fuel) addr out (input_text bs ++ rest) w =
    reformat_loop fuel addr out rest
      (append_file out (concat (map (output_block NANCI_INDICES) bs)) w).
Proof.
  induction 1 as [|b bs Hb Hbs IH]; intros fuel rest w Hq Hout.
  - simpl. by rewrite append_file_nil.
  - cbn [length Nat.add reformat_loop]. unfold input_text. cbn [map concat].
    rewrite <- app_assoc. fold (input_text bs).
    unfold bind at 1.
    erewrite try_except_ok.
    2:{ erewrite bind_ok; [reflexivity|]. by apply reformat_block_plain. }
    cbv beta iota. rewrite IH.
    + by rewrite append_file_app.
    + by apply quiet_append_file.
    + unfold append_file. simpl. rewrite lookup_insert_eq. eauto.
Qed.

Lemma reformat_block_eof out w :
  quiet w -> reformat_block out [] w = (Raise ValueError, w).
Proof.
  intros Hq. unfold reformat_block. rewrite bind_readline by done. reflexivity.
Qed.

Lemma reformat_loop_end addr out fuel w :
  quiet w ->
  reformat_loop (S fuel) addr out [] w =
  (Ok tt, add_log (PrintError addr ValueError) w).
Proof.
  intros Hq. cbn [reformat_loop]. unfold bind, try_except.
  by rewrite reformat_block_eof.
Qed.

Lemma block_text_length b : 1 <= length (block_text b).
Proof. unfold block_text. rewrite !length_app. simpl. lia. Qed.

Lemma input_text_length bs : length bs <= length (input_text bs).
Proof.
  induction bs as [|b bs IH]; [done|].
  unfold input_text in *. simpl. rewrite length_app.
  pose proof (block_text_length b). lia.
Qed.




Lemma REFORMAT_length : length REFORMAT = 9.
Proof. by vm_compute. Qed.



Lemma plain_water : plain_block water.
Proof.
  split; [by_compute|]. split; [by_compute|]. split; [by_compute|].
  exists (split_ws meta36).
  split; [by_compute|]. split; [vm_compute; lia | by_compute].
Defined.



(** * Further properties of the scripts *)

(** ** Output names *)

Lemma REFORMAT_insert_length (x t : text) :
  length (x ++ REFORMAT ++ t) = length (x ++ t) + 9.
Proof. rewrite !length_app, REFORMAT_length. lia. Qed.

(** The name [make_output_name] gives is the name it got with
    [_reformat] put in at one place. *)
Lemma make_output_name_inserts ds p q :
  make_output_name ds p = Some q ->
  parent q = parent p /\
  exists x t, name p = x ++ t /\ name q = x ++ REFORMAT ++ t.
Proof.
  destruct p as [d nm]. intros H.
  assert (nm <> []) as Hne.
  { intros ->. by rewrite (proj2 (make_output_name_None ds (mkPath d []))) in H. }
  destruct (make_output_name_cases ds d nm Hne)
    as [(x & t & -> & _ & _ & E) | (E & _)];
    rewrite E in H; injection H as <-; (split; [reflexivity|]); simpl.
  - by exists x, (dot :: t).
  - exists nm, []. by rewrite !app_nil_r.
Qed.

(** The path [process_file] writes to differs from the path it reads. *)
Lemma out_path_of_fresh ds fp od out :
  out_path_of ds fp od = Some out ->
  out <> fp /\ parent out = default (parent fp) od.
Proof.
  intros H. apply out_path_of_Some in H as (o & Ho & ->).
  apply make_output_name_inserts in Ho as (Hpar & x & t & Hn & Ho).
  assert (name o <> name fp) as Hdiff.
  { rewrite Hn, Ho. intros E. apply (f_equal length) in E.
    rewrite REFORMAT_insert_length in E. lia. }
  case_bool_decide as Hd.
  - split; [|reflexivity]. intros E. apply Hdiff. by rewrite <- E.
  - split; [intros E; apply Hdiff; by rewrite E|].
    by rewrite Hpar, Hd.
Qed.

(** X1.  Whenever [make_output_name] returns, its result lies in the
    directory of its argument, its name is the name of the argument with
    [_reformat] put in at one place, nine characters longer, and so the
    result is never the argument itself. *)
Theorem make_output_name_fresh ds p q :
  make_output_name ds p = Some q ->
  parent q = parent p /\
  (exists x t, name p = x ++ t /\ name q = x ++ REFORMAT ++ t) /\
  length (name q) = length (name p) + 9 /\
  q <> p.
Proof.
  intros H. destruct (make_output_name_inserts ds p q H) as (Hpar & x & t & Hn & Ho).
  assert (length (name q) = length (name p) + 9) as Hlen.
  { rewrite Hn, Ho. apply REFORMAT_insert_length. }
  repeat split; try done.
  - by exists x, t.
  - intros ->. lia.
Qed.

Lemma make_output_name_fresh_witness :
  make_output_name false sample_path = Some sample_out /\
  parent sample_out = parent sample_path /\
  (exists x t, name sample_path = x ++ t /\ name sample_out = x ++ REFORMAT ++ t) /\
  length (name sample_out) = length (name sample_path) + 9 /\
  sample_out <> sample_path.
Proof.
  assert (make_output_name false sample_path = Some sample_out) as H by by_compute.
  split; [exact H|]. exact (make_output_name_fresh false sample_path sample_out H).
Defined.

(** ** The filter of [process_directory] *)

Lemma startswith_app p b : startswith (p ++ b) p = true.
Proof. unfold startswith. apply bool_decide_eq_true. apply take_length_app. Qed.

Lemma contains_app a p b : contains (a ++ p ++ b) p = true.
Proof.
  induction a as [|c a IH].
  - destruct (p ++ b) as [|c s] eqn:E; simpl; rewrite <- E;
      by rewrite startswith_app.
  - simpl. rewrite IH. apply orb_true_r.
Qed.

Lemma contains_inv s p :
  contains s p = true -> exists a b, s = a ++ p ++ b.
Proof.
  induction s as [|c s IH]; simpl.
  - rewrite orb_false_r. unfold startswith. intros H.
    apply bool_decide_eq_true in H. exists [], []. simpl.
    rewrite <- H. by destruct p.
  - intros H. apply orb_prop in H as [H|H].
    + unfold startswith in H. apply bool_decide_eq_true in H.
      exists [], (drop (length p) (c :: s)). simpl.
      rewrite <- H at 1. by rewrite take_drop.
    + destruct (IH H) as (a & b & ->). by exists (c :: a), b.
Qed.

Lemma endswith_contains s p : endswith s p = true -> contains s p = true.
Proof.
  unfold endswith. intros H. apply bool_decide_eq_true in H.
  set (k := length s - length p) in *.
  pose proof (contains_app (take k s) p []) as Hc.
  rewrite app_nil_r in Hc. rewrite <- H in Hc at 1.
  by rewrite take_drop in Hc.
Qed.

(** X2.  The filter of [process_directory] is a substring test: the
    suffix test adds nothing to it.  Without patterns, or with an empty
    list of them, every name passes; otherwise a name passes exactly when
    one of the patterns occurs in it, so an empty pattern lets every name
    pass. *)
Theorem selected_is_substring_test patterns fname :
  (selected patterns fname = true <->
   patterns = None \/ patterns = Some [] \/
   exists ps p a b, patterns = Some ps /\ p ∈ ps /\ fname = a ++ p ++ b) /\
  (forall ps, [] ∈ ps -> selected (Some ps) fname = true).
Proof.
  assert (forall ps, existsb (fun p => endswith fname p || contains fname p) ps = true <->
            exists p a b, p ∈ ps /\ fname = a ++ p ++ b) as Hex.
  { intros ps. rewrite existsb_exists. split.
    - intros (p & Hin & H). apply list_elem_of_In in Hin.
      assert (contains fname p = true) as Hc.
      { apply orb_prop in H as [H|H]; [by apply endswith_contains | exact H]. }
      destruct (contains_inv _ _ Hc) as (a & b & E). by exists p, a, b.
    - intros (p & a & b & Hin & ->). exists p. split; [by apply list_elem_of_In|].
      rewrite contains_app. apply orb_true_r. }
  split.
  - destruct patterns as [[|p0 ps]|]; simpl selected.
    + split; [tauto|done].
    + rewrite (Hex (p0 :: ps)). split.
      * intros (p & a & b & Hin & E). right. right. by exists (p0 :: ps), p, a, b.
      * intros [H|[H|(ps' & p & a & b & [= <-] & Hin & E)]]; [done|done|].
        by exists p, a, b.
    + split; [tauto|done].
  - intros ps Hin. destruct ps as [|p0 ps]; [reflexivity|]. simpl selected.
    apply (Hex (p0 :: ps)). exists [], [], fname. split; [exact Hin|reflexivity].
Qed.

(** ** The count line, written and read back *)

(** The digits of a decimal number, as [str] prints them. *)
Lemma parse_digits_acc d acc :
  parse_digits (Z.pos acc) true
    (list_ascii_of_string (NilEmpty.string_of_uint d)) =
  Some (Z.pos (Pos.of_uint_acc d acc)).
Proof.
  revert acc.
  induction d as [|d IH|d IH|d IH|d IH|d IH|d IH|d IH|d IH|d IH|d IH];
    intros acc;
    cbn [NilEmpty.string_of_uint list_ascii_of_string parse_digits Pos.of_uint_acc];
    [reflexivity|..];
    match goal with
    | |- context [digit_val ?c] =>
        let v := eval vm_compute in (digit_val c) in
        change (digit_val c) with v
    end;
    cbv iota beta; rewrite <- IH; f_equal; lia.
Qed.

Ltac digit_step :=
  cbn [NilEmpty.string_of_uint list_ascii_of_string parse_digits];
  match goal with
  | |- context [digit_val ?c] =>
      let v := eval vm_compute in (digit_val c) in
      change (digit_val c) with v
  end;
  cbv iota beta; cbn [Z.mul Z.add Pos.of_uint Z.of_N].

Lemma parse_digits_uint_true d :
  parse_digits 0 true (list_ascii_of_string (NilEmpty.string_of_uint d)) =
  Some (Z.of_N (Pos.of_uint d)).
Proof.
  induction d as [|d IH|d IH|d IH|d IH|d IH|d IH|d IH|d IH|d IH|d IH];
    [reflexivity|..]; digit_step; first [exact IH | apply parse_digits_acc].
Qed.

Lemma parse_digits_uint d after :
  d <> Decimal.Nil ->
  parse_digits 0 after (list_ascii_of_string (NilEmpty.string_of_uint d)) =
  Some (Z.of_N (Pos.of_uint d)).
Proof.
  intros Hd. destruct d; [done|..]; digit_step;
    first [apply parse_digits_uint_true | apply parse_digits_acc].
Qed.

Lemma digit_not_sign c d :
  digit_val c = Some d -> c <> ascii_of_nat 45 /\ c <> ascii_of_nat 43.
Proof.
  destruct c as [[] [] [] [] [] [] [] []]; intros H; vm_compute in H;
    try discriminate H; split; discriminate.
Qed.

(** [int] drops nothing from a text without whitespace. *)
Lemma int_space_nothing l :
  l <> [] -> Forall (fun c => isspace c = false) l ->
  rstrip_by int_space (lstrip_by int_space l) = l.
Proof.
  intros Hne Hl. rewrite <- (app_nil_r l) at 1.
  apply (strip_by_core int_space [] l []); try done.
  eapply Forall_impl; [exact Hl|]. intros c Hsp. simpl in Hsp.
  destruct (int_space c) eqn:Hi; [|reflexivity].
  apply int_space_isspace in Hi. congruence.
Qed.

Lemma int_unsigned l n : parse_digits 0 false l = Some n -> int_ l = Some n.
Proof.
  intros H. pose proof (parse_digits_nospace _ _ _ _ H) as Hl.
  destruct l as [|c r]; [discriminate H|].
  unfold int_. rewrite int_space_nothing by done.
  assert (exists d, digit_val c = Some d) as [d Hd].
  { simpl in H. destruct (digit_val c) as [d|]; [by exists d|].
    by rewrite andb_false_r in H. }
  destruct (digit_not_sign c d Hd) as [Hm Hp].
  by rewrite !bool_decide_false by done.
Qed.

Lemma int_negative l n :
  parse_digits 0 false l = Some n ->
  int_ (ascii_of_nat 45 :: l) = Some (- n)%Z.
Proof.
  intros H. pose proof (parse_digits_nospace _ _ _ _ H) as Hl.
  unfold int_. rewrite int_space_nothing; [| done | by constructor].
  rewrite bool_decide_true by done. by rewrite H.
Qed.

(** What [str] prints, [int] reads back. *)
Lemma int_str_Z n : int_ (str_Z n) = Some n.
Proof.
  unfold str_Z. destruct n as [|p|p]; [reflexivity|..]; simpl Z.to_int;
    pose proof (DecimalPos.Unsigned.to_uint_nonnil p) as Hnil;
    pose proof (DecimalPos.Unsigned.of_to p) as Hof;
    pose proof (parse_digits_uint (Pos.to_uint p) false Hnil) as Hp;
    rewrite Hof in Hp; simpl Z.of_N in Hp;
    unfold NilZero.string_of_int, NilZero.string_of_uint;
    destruct (Pos.to_uint p) eqn:E; try done.
  all: first [ by apply int_unsigned
             | cbn [list_ascii_of_string]; by apply (int_negative _ (Z.pos p)) ].
Qed.

(** X3.  A block as [process_file] and [reformat] write it begins with
    a line that reads back as the count of the block, whether the line
    is stripped first (as in [process_file]) or handed to [int] as it was
    read (as in [reformat]); and this line is never blank. *)
Theorem count_line_round_trip n header atom_lines rest :
  let line := (readline_at (render_block n header atom_lines ++ rest)).1 in
  line = str_Z n ++ [nl] /\
  strip line <> [] /\
  int_ (strip line) = Some n /\
  int_ line = Some n.
Proof.
  cbv zeta. unfold render_block. rewrite <- !app_assoc. cbn [app].
  rewrite readline_at_line by apply str_Z_nlfree. cbn [fst].
  pose proof (int_str_Z n) as Hn.
  assert (int_ (strip (str_Z n ++ [nl])) = Some n) as Hs.
  { rewrite int_line. by apply int_strip. }
  repeat split; try done.
  - intros E. by rewrite E in Hs.
  - by rewrite int_nl.
Qed.

(** ** [reformat]: the address *)

Lemma split_on_length c s :
  length (split_on c s) = S (length (filter (fun x => x = c) s)).
Proof.
  induction s as [|x s IH]; [reflexivity|]. simpl.
  rewrite filter_cons. case_bool_decide as Hx.
  - rewrite decide_True by done. simpl. by rewrite IH.
  - rewrite decide_False by done.
    destruct (split_on c s) as [|u us] eqn:E; [by apply split_on_nonempty in E|].
    exact IH.
Qed.

(** X4.  An address with fewer than two dots makes [reformat] raise
    [IndexError] before it opens any file; the exception is not caught,
    and nothing is written or printed. *)
Theorem reformat_needs_two_dots file_address w :
  length (filter (fun c => c = dot) file_address) < 2 ->
  reformat file_address w = (Raise IndexError, w).
Proof.
  intros H. unfold reformat.
  pose proof (split_on_length dot file_address) as Hlen.
  destruct (split_on dot file_address) as [|a0 [|a1 [|a2 a]]]; try reflexivity.
  simpl in Hlen. lia.
Qed.

Lemma reformat_needs_two_dots_witness :
  let addr := T "data/nenci.xyz" in
  let w := one_file (Path_of_str addr) (input_text [water]) in
  length (filter (fun c => c = dot) addr) < 2 /\
  reformat addr w = (Raise IndexError, w).
Proof.
  assert (length (filter (fun c => c = dot) (T "data/nenci.xyz")) < 2) as H
    by (vm_compute; lia).
  split; [exact H|].
  exact (reformat_needs_two_dots (T "data/nenci.xyz")
           (one_file (Path_of_str (T "data/nenci.xyz")) (input_text [water])) H).
Defined.

(** ** [process_file]: what escapes, and a file that is not there *)

Lemma open_r_missing p w :
  fs w !! p = None -> exists w', open_r p w = (Raise OSError, w') /\
    fs w' = fs w /\ log w' = log w.
Proof.
  intros H. unfold open_r, bind, io.
  destruct (faults w) as [|[] fl]; simpl; rewrite ?H; eauto.
Qed.

(** X5.  When the input file does not exist, [process_file] returns
    without an exception whatever else fails: the failure to open is
    logged as fatal for this file, and no file is created or changed,
    since the input is opened before the output. *)
Theorem process_file_missing_input ds idx fp od w :
  name fp <> [] -> fs w !! fp = None ->
  exists w',
    process_file ds idx fp od w = (Ok tt, w') /\
    fs w' = fs w /\
    log w' = log w ++ [InfoProcessing fp; ExcFatal fp OSError].
Proof.
  intros Hname Hfp. unfold process_file. rewrite bind_logger.
  destruct (make_output_name ds fp) as [o|] eqn:Eo;
    [|by apply make_output_name_None in Eo].
  simpl lift. rewrite bind_ret. cbv zeta.
  destruct (open_r_missing fp (add_log (InfoProcessing fp) w) Hfp)
    as (w1 & Hopen & Hfs & Hlog).
  unfold try_except, bind at 1. rewrite Hopen.
  eexists. split; [reflexivity|]. simpl. rewrite Hfs, Hlog. simpl.
  split; [reflexivity|]. by rewrite <- app_assoc.
Qed.

Lemma process_file_missing_input_witness :
  let fp := mkPath (T "data") (T "absent.xyz") in
  let w := one_file sample_path (input_text [water]) in
  name fp <> [] /\ fs w !! fp = None /\
  exists w',
    process_file false NANCI_INDICES fp None w = (Ok tt, w') /\
    fs w' = fs w /\
    log w' = log w ++ [InfoProcessing fp; ExcFatal fp OSError].
Proof.
  assert (name (mkPath (T "data") (T "absent.xyz")) <> []) as H1 by done.
  assert (fs (one_file sample_path (input_text [water]))
            !! mkPath (T "data") (T "absent.xyz") = None) as H2 by by_compute.
  split; [exact H1|]. split; [exact H2|].
  exact (process_file_missing_input false NANCI_INDICES _ None _ H1 H2).
Defined.

(** X6.  An exception leaves [process_file] exactly when the path has no
    name (as [Path('.')] or a root): then [make_output_name], called
    outside the [try], raises [ValueError] after the first log entry and
    before any file is opened.  For every other path, and whatever file
    operations fail, [process_file] returns normally. *)
Theorem process_file_raises_iff ds idx fp od w :
  (name fp = [] ->
   process_file ds idx fp od w = (Raise ValueError, add_log (InfoProcessing fp) w)) /\
  (name fp <> [] -> (process_file ds idx fp od w).1 = Ok tt) /\
  ((exists e, (process_file ds idx fp od w).1 = Raise e) <-> name fp = []).
Proof.
  assert (name fp = [] ->
          process_file ds idx fp od w =
            (Raise ValueError, add_log (InfoProcessing fp) w)) as Hraise.
  { intros Hn. unfold process_file. rewrite bind_logger.
    by rewrite (proj2 (make_output_name_None ds fp) Hn). }
  assert (name fp <> [] -> (process_file ds idx fp od w).1 = Ok tt) as Hok.
  { intros Hn. destruct (process_file_returns ds idx fp od w Hn)
      as (w' & evs & e & -> & _). reflexivity. }
  split; [exact Hraise|]. split; [exact Hok|]. split.
  - intros [e He]. destruct (decide (name fp = [])) as [|Hn]; [done|].
    rewrite (Hok Hn) in He. discriminate He.
  - intros Hn. exists ValueError. by rewrite (Hraise Hn).
Qed.

(** ** Files that hold more than well-formed blocks *)

Lemma add_logs_nil w : add_logs [] w = w.
Proof. unfold add_logs. rewrite app_nil_r. by destruct w. Qed.

Lemma add_logs_cons e evs w : add_logs evs (add_log e w) = add_logs (e :: evs) w.
Proof. unfold add_logs, add_log. simpl. by rewrite <- app_assoc. Qed.

Lemma append_file_add_log p s e w :
  append_file p s (add_log e w) = add_log e (append_file p s w).
Proof. reflexivity. Qed.

Lemma quiet_add_logs evs w : quiet (add_logs evs w) <-> quiet w.
Proof. reflexivity. Qed.

Section Items.

Variable idx : list nat.
Variables fp out : Path.

(** One item is passed, and the loop goes on behind it. *)
Lemma process_blocks_item it rest bc w :
  quiet w -> idx <> [] -> is_Some (fs w !! out) -> item_ok idx it ->
  process_blocks idx fp out (item_text it ++ rest) bc w =
  process_blocks idx fp out rest (bc + length (good_blocks [it]))
    (add_logs (item_log idx fp it)
       (append_file out (concat (map (output_block idx) (good_blocks [it]))) w)).
Proof using Type.
  intros Hq Hidx Hout Hok. destruct it as [l | b | b]; simpl in Hok.
  - destruct Hok as [Hl Hn].
    assert (readline_at ((l ++ [nl]) ++ rest) = (l ++ [nl], rest)) as R.
    { rewrite <- app_assoc. by apply readline_at_line. }
    cbn [item_text good_blocks omap list_omap map concat length item_log].
    rewrite Nat.add_0_r, append_file_nil by done.
    destruct (strip l) as [|c s] eqn:Es.
    + rewrite (process_blocks_blank idx fp out _ _ _ bc w Hq R);
        [ | apply nonempty_line | by rewrite strip_line ].
      by rewrite add_logs_nil.
    + rewrite (process_blocks_bad_count idx fp out _ _ _ bc w Hq R);
        [ | by rewrite strip_line, Es | by rewrite strip_line, Es ].
      by rewrite strip_line, Es.
  - destruct Hok as (Hc & Hn & Hm & Htok & Hat).
    destruct (int_ (strip (count_line b))) as [n|] eqn:En; [|discriminate Hn].
    injection Hn as Hn.
    assert (exists i idx', idx = i :: idx') as (i & idx' & Ei).
    { destruct idx as [|i idx']; [done|]. by exists i, idx'. }
    cbn [item_text good_blocks omap list_omap map concat length item_log].
    rewrite Nat.add_0_r, append_file_nil by done.
    assert (readline_at (block_text b ++ rest) =
            (count_line b ++ [nl],
             (meta_line b ++ [nl]) ++ unlines (atoms b) ++ rest)) as R1.
    { unfold block_text. rewrite <- !app_assoc. simpl.
      apply readline_at_line, Hc. }
    assert (readline_at ((meta_line b ++ [nl]) ++ unlines (atoms b) ++ rest) =
            (meta_line b ++ [nl], unlines (atoms b) ++ rest)) as R2.
    { rewrite <- app_assoc. apply readline_at_line, Hm. }
    rewrite (process_blocks_tokens idx fp out _ _ _ n _ _ i idx' bc w Hq R1
               ltac:(by rewrite int_line) R2 (nonempty_line _) Ei);
      [| rewrite tokens_line; by rewrite Ei in Htok ].
    rewrite tokens_line, Hn, drop_lines_unlines by done.
    by rewrite Ei.
  - cbn [item_text good_blocks omap list_omap map concat length item_log].
    rewrite app_nil_r, add_logs_nil.
    rewrite process_blocks_block by done. f_equal. lia.
Qed.

(** Item after item. *)
Lemma process_blocks_items items :
  idx <> [] -> Forall (item_ok idx) items ->
  forall rest bc w, quiet w -> is_Some (fs w !! out) ->
    process_blocks idx fp out (concat (map item_text items) ++ rest) bc w =
    process_blocks idx fp out rest (bc + length (good_blocks items))
      (add_logs (concat (map (item_log idx fp) items))
         (append_file out
            (concat (map (output_block idx) (good_blocks items))) w)).
Proof using Type.
  intros Hidx Hok. induction Hok as [|it items Hit Hitems IH];
    intros rest bc w Hq Hout.
  - simpl. by rewrite append_file_nil, add_logs_nil, Nat.add_0_r.
  - cbn [map concat]. rewrite <- app_assoc.
    rewrite process_blocks_item by done.
    rewrite IH.
    2:{ by apply quiet_add_logs, quiet_append_file. }
    2:{ unfold append_file. simpl. rewrite lookup_insert_eq. eauto. }
    assert (good_blocks (it :: items) = good_blocks [it] ++ good_blocks items)
      as -> by (unfold good_blocks; simpl; by destruct it).
    rewrite length_app, map_app, concat_app, Nat.add_assoc. f_equal.
    unfold add_logs, append_file, set_fs. simpl.
    rewrite lookup_insert_eq, insert_insert_eq. simpl.
    by rewrite <- !app_assoc.
Qed.

End Items.

(** [process_file] on a file made of items. *)
Lemma process_file_items ds idx fp od out w items :
  quiet w -> idx <> [] -> Forall (item_ok idx) items ->
  fs w !! fp = Some (concat (map item_text items)) ->
  out_path_of ds fp od = Some out ->
  exists w',
    process_file ds idx fp od w = (Ok tt, w') /\
    fs w' = <[out := concat (map (output_block idx) (good_blocks items))]> (fs w) /\
    log w' = log w ++ [InfoProcessing fp] ++
             concat (map (item_log idx fp) items) ++
             [InfoFinished fp (length (good_blocks items)) out].
Proof.
  intros Hq Hidx Hok Hfp Hout.
  rewrite (process_file_quiet _ _ _ _ _ _ _ Hq Hfp Hout).
  set (w1 := add_logs (concat (map (item_log idx fp) items))
               (append_file out
                  (concat (map (output_block idx) (good_blocks items)))
                  (opened fp out w))).
  exists (add_log (InfoFinished fp (length (good_blocks items)) out) w1).
  split.
  - apply try_ok.
    rewrite (bind_ok _ _ _ (length (good_blocks items)) w1); [reflexivity|].
    rewrite <- (app_nil_r (concat (map item_text items))).
    rewrite process_blocks_items; try done.
    + by rewrite process_blocks_eof.
    + rewrite opened_out. eauto.
  - split.
    + simpl. rewrite lookup_insert_eq. simpl. by rewrite insert_insert_eq.
    + simpl. by rewrite <- !app_assoc.
Qed.

(** X7.  A file in which well-formed blocks are mixed with lines that
    are blank or that [int] rejects, and with blocks whose metadata line
    is too short: [process_file] writes the well-formed blocks, in their
    order and nothing else, logs one warning for each rejected line that
    is not blank and one for each short block, in the order of the file,
    and reports the number of well-formed blocks. *)
Theorem process_file_filters ds idx fp od out w items :
  quiet w -> idx <> [] -> Forall (item_ok idx) items ->
  fs w !! fp = Some (concat (map item_text items)) ->
  out_path_of ds fp od = Some out ->
  exists w',
    process_file ds idx fp od w = (Ok tt, w') /\
    fs w' = <[out := concat (map (output_block idx) (good_blocks items))]> (fs w) /\
    log w' = log w ++ [InfoProcessing fp] ++
             concat (map (item_log idx fp) items) ++
             [InfoFinished fp (length (good_blocks items)) out].
Proof. apply process_file_items. Qed.

Lemma process_file_filters_witness :
  let short := mkBlock (T "1") meta34 [T "H 0 0 0"] in
  let items := [Filler []; Filler (T "abc"); Short short; Good water; Filler (T " ")] in
  let w := one_file sample_path (concat (map item_text items)) in
  exists w',
    process_file false NANCI_INDICES sample_path None w = (Ok tt, w') /\
    fs w' = <[sample_out := output_block NANCI_INDICES water]> (fs w) /\
    log w' = [InfoProcessing sample_path;
              WarnCount (T "abc") sample_path;
              WarnTokens 34 35 sample_path;
              InfoFinished sample_path 1 sample_out].
Proof.
  cbv zeta.
  destruct (process_file_filters false NANCI_INDICES sample_path None sample_out
              (one_file sample_path
                 (concat (map item_text
                    [Filler []; Filler (T "abc");
                     Short (mkBlock (T "1") meta34 [T "H 0 0 0"]);
                     Good water; Filler (T " ")])))
              [Filler []; Filler (T "abc");
               Short (mkBlock (T "1") meta34 [T "H 0 0 0"]);
               Good water; Filler (T " ")])
    as (w' & Hrun & Hfs & Hlog).
  - reflexivity.
  - done.
  - by_compute.
  - by_compute.
  - by_compute.
  - exists w'. split; [exact Hrun|]. split.
    + rewrite Hfs. cbn [good_blocks omap list_omap map concat].
      by rewrite app_nil_r.
    + exact Hlog.
Defined.

(** ** The output as an input *)

Lemma split_ws_tokens s : Forall token (split_ws s).
Proof.
  induction s as [|c s IH]; simpl; [constructor|].
  destruct (isspace c) eqn:Hc; [exact IH|].
  assert (token [c]) as Hone by (split; [done | by repeat constructor]).
  destruct s as [|c' s]; [by repeat constructor|].
  destruct (isspace c') eqn:Hc'; [by constructor|].
  destruct (split_ws (c' :: s)) as [|t ts]; [by repeat constructor|].
  inversion IH as [|? ? [Hne Ht] Hts]; subst.
  constructor; [|done]. split; [done | by constructor].
Qed.

Lemma token_app u v :
  Forall (fun c => isspace c = false) u -> u <> [] -> token v -> token (u ++ v).
Proof.
  intros Hu Hne [_ Hv]. split; [by destruct u | by apply Forall_app].
Qed.

Lemma select_tokens idx toks vals :
  Forall token toks -> select idx toks = Some vals -> Forall token vals.
Proof.
  intros Ht. unfold select. rewrite mapM_Some.
  induction 1 as [|i v idx' vals' Hiv _ IH]; constructor; [|done].
  rewrite Forall_forall in Ht. apply Ht. by eapply list_elem_of_lookup_2.
Qed.

(** The header of the script has eleven tokens: ten labelled values and
    the properties. *)
Lemma header_tokens meta :
  34 < length (split_ws meta) ->
  exists toks,
    header_of NANCI_INDICES meta = join [space] toks /\
    length toks = 11 /\ Forall token toks.
Proof.
  intros Hlen. unfold header_of.
  destruct (select NANCI_INDICES (split_ws meta)) as [vals|] eqn:Es.
  2:{ exfalso.
      assert (is_Some (select NANCI_INDICES (split_ws meta))) as [? H].
      { unfold select, NANCI_INDICES. apply mapM_is_Some_2.
        repeat constructor; apply lookup_lt_is_Some; lia. }
      congruence. }
  pose proof (select_tokens _ _ _ (split_ws_tokens meta) Es) as Hv.
  unfold select in Es. apply length_mapM in Es. unfold NANCI_INDICES in Es.
  simpl in Es.
  destruct vals as [|v0 [|v1 [|v2 [|v3 [|v4 [|v5 [|v6 [|v7 [|v8 [|v9 [|v vals]]]]]]]]]]];
    try discriminate Es.
  repeat match goal with
         | H : Forall token (_ :: _) |- _ => apply Forall_cons in H as [? H]
         end.
  exists [T "CCSD(T)/CBS=" ++ v0; T "CCSD(T)/haTZ=" ++ v1; T "MP2/haTZ=" ++ v2;
          T "MP2/CBS=" ++ v3; T "MP2/aTZ=" ++ v4; T "MP2/aQZ=" ++ v5;
          T "HF/haTZ=" ++ v6; T "HF/aTZ=" ++ v7; T "HF/aQZ=" ++ v8;
          T "SAPT2+/aDZTot=" ++ v9; T "Properties=species:S:1:pos:R:3"].
  split; [|split; [reflexivity|]].
  - unfold make_header. cbn. repeat (rewrite <- app_assoc; cbn [app]).
    reflexivity.
  - repeat (apply Forall_cons; split); try apply Forall_nil;
      first [ apply token_app; [by_compute | done | done] | by_compute ].
Qed.

Lemma block_text_written idx b :
  block_text (written_block idx b) = output_block idx b.
Proof. reflexivity. Qed.

Lemma header_token_count b :
  well_formed NANCI_INDICES b ->
  length (split_ws (header_of NANCI_INDICES (meta_line b))) = 11.
Proof.
  intros (_ & _ & _ & Htok & _).
  destruct (header_tokens (meta_line b)) as (toks & -> & Hlen & Htoks).
  - unfold NANCI_INDICES in Htok. rewrite Forall_forall in Htok.
    apply Htok. set_solver.
  - by rewrite split_ws_join.
Qed.

(** What [process_file] writes for a well-formed block is, read again, a
    block with too few tokens. *)
Lemma written_block_short b :
  well_formed NANCI_INDICES b ->
  short_block NANCI_INDICES (written_block NANCI_INDICES b).
Proof.
  intros Hb. pose proof (header_token_count b Hb) as Hlen.
  destruct Hb as (_ & _ & _ & _ & Hat).
  unfold short_block, written_block. cbn [count_line meta_line atoms].
  repeat split; try done.
  - apply str_Z_nlfree.
  - rewrite (int_strip _ _ (int_str_Z _)). simpl. by rewrite Nat2Z.id.
  - apply header_of_nlfree.
  - rewrite Hlen. vm_compute. lia.
Qed.

(** X8.  Run on a file that [process_file] wrote for well-formed blocks,
    with the positions of the script, [process_file] writes an empty
    file: the header of each block has eleven tokens where thirty-five
    are wanted, so every block is passed over with a warning and the
    count reported is zero. *)
Theorem process_file_on_its_output ds fp od out w bs :
  quiet w -> Forall (well_formed NANCI_INDICES) bs ->
  fs w !! fp = Some (concat (map (output_block NANCI_INDICES) bs)) ->
  out_path_of ds fp od = Some out ->
  exists w',
    process_file ds NANCI_INDICES fp od w = (Ok tt, w') /\
    fs w' = <[out := []]> (fs w) /\
    log w' = log w ++ [InfoProcessing fp] ++
             map (fun _ => WarnTokens 11 35 fp) bs ++ [InfoFinished fp 0 out].
Proof.
  intros Hq Hbs Hfp Hout.
  set (items := map (fun b => Short (written_block NANCI_INDICES b)) bs).
  assert (concat (map item_text items) =
          concat (map (output_block NANCI_INDICES) bs)) as Htext.
  { unfold items. rewrite map_map. reflexivity. }
  assert (good_blocks items = []) as Hgood.
  { unfold items, good_blocks. clear. by induction bs. }
  assert (concat (map (item_log NANCI_INDICES fp) items) =
          map (fun _ => WarnTokens 11 35 fp) bs) as Hlog.
  { unfold items. clear -Hbs. induction Hbs as [|b bs Hb _ IH]; [reflexivity|].
    cbn [map concat item_log written_block meta_line].
    rewrite (header_token_count b Hb). cbn [app]. f_equal. exact IH. }
  destruct (process_file_items ds NANCI_INDICES fp od out w items)
    as (w' & Hrun & Hfs & Hl); try done.
  - unfold items. apply Forall_map. eapply Forall_impl; [exact Hbs|].
    intros b Hb. by apply written_block_short.
  - by rewrite Htext.
  - exists w'. split; [exact Hrun|].
    rewrite Hgood in Hfs, Hl. rewrite Hlog in Hl. by split.
Qed.

Lemma process_file_on_its_output_witness :
  let w := one_file sample_out (output_block NANCI_INDICES water) in
  let out := mkPath (T "data") (T "nenci_reformat_reformat.xyz") in
  exists w',
    process_file false NANCI_INDICES sample_out None w = (Ok tt, w') /\
    fs w' = <[out := []]> (fs w) /\
    log w' = [InfoProcessing sample_out; WarnTokens 11 35 sample_out;
              InfoFinished sample_out 0 out].
Proof.
  cbv zeta.
  apply (process_file_on_its_output false sample_out None
           (mkPath (T "data") (T "nenci_reformat_reformat.xyz"))
           (one_file sample_out (output_block NANCI_INDICES water)) [water]).
  - reflexivity.
  - constructor; [by_compute | constructor].
  - by_compute.
  - by_compute.
Defined.

(** ** What a computation leaves alone *)

Section Within.

Variable R : world -> world -> Prop.
Hypothesis R_refl : forall w, R w w.
Hypothesis R_trans : forall w1 w2 w3, R w1 w2 -> R w2 w3 -> R w1 w3.

Lemma within_ret {A} (a : A) : within R (ret a).
Proof using R_refl. intros w. apply R_refl. Qed.

Lemma within_raise {A} e : within R (@raise A e).
Proof using R_refl. intros w. apply R_refl. Qed.

Lemma within_diverge {A} : within R (fun w => (@Diverge A, w)).
Proof using R_refl. intros w. apply R_refl. Qed.

Lemma within_lift {A} e (o : option A) : within R (lift e o).
Proof using R_refl. destruct o; [apply within_ret | apply within_raise]. Qed.

Lemma within_max_ l : within R (max_ l).
Proof using R_refl. destruct l; [apply within_raise | apply within_ret]. Qed.

(** The rest of a computation has to keep the relation only for the
    values its first part returns. *)
Lemma within_bind {A B} (m : M A) (k : A -> M B) :
  within R m ->
  (forall w a w', m w = (Ok a, w') -> within R (k a)) ->
  within R (bind m k).
Proof using R_trans.
  intros Hm Hk w. unfold bind. specialize (Hm w). specialize (Hk w).
  destruct (m w) as [[a|e|] w1]; simpl in *; try done.
  eapply R_trans; [exact Hm | by eapply Hk].
Qed.

Lemma within_try {A} (m : M A) (h : exn -> M A) :
  within R m -> (forall e, within R (h e)) -> within R (try_except m h).
Proof using R_trans.
  intros Hm Hh w. unfold try_except. specialize (Hm w).
  destruct (m w) as [[a|e|] w1]; simpl in *; try done.
  eapply R_trans; [exact Hm | apply Hh].
Qed.

Lemma within_io :
  (forall w fl, R w (mkWorld (fs w) (dirs w) fl (log w) (stats w))) -> within R io.
Proof using R_refl.
  intros Hfl w. unfold io. destruct (faults w) as [|[] fl]; simpl; auto.
Qed.

End Within.

(** Closing a file changes nothing but the schedule of faults, and may
    turn any outcome into [OSError]. *)
Lemma finally_close_cases {A} (m : M A) w :
  exists fl r,
    finally m close w =
      (r, mkWorld (fs (m w).2) (dirs (m w).2) fl (log (m w).2) (stats (m w).2)) /\
    (r = (m w).1 \/ r = Raise OSError).
Proof.
  unfold finally, close, io. destruct (m w) as [[a|e|] [f d fl l s]]; simpl.
  3:{ exists fl, Diverge. by split; [|left]. }
  all: destruct fl as [|[] fl]; simpl; eauto.
Qed.

Lemma touches_weaken out (P Q : event -> Prop) w w' :
  (forall e, P e -> Q e) -> touches out P w w' -> touches out Q w w'.
Proof.
  intros HPQ (Hf & Hd & Hs & evs & Hl & He). repeat split; try done.
  exists evs. split; [done|]. eapply Forall_impl; eauto.
Qed.

Lemma touches_same_log out w w' :
  touches out (fun _ => False) w w' -> log w' = log w.
Proof.
  intros (_ & _ & _ & evs & Hl & He). destruct evs as [|e evs].
  - by rewrite app_nil_r in Hl.
  - by apply Forall_cons in He as [[] _].
Qed.

Section Touches.

Variable out : Path.
Variable P : event -> Prop.

Lemma touches_refl w : touches out P w w.
Proof.
  split; [done|]. split; [by left|]. split; [done|].
  exists []. by rewrite app_nil_r.
Qed.

Lemma touches_trans w1 w2 w3 :
  touches out P w1 w2 -> touches out P w2 w3 -> touches out P w1 w3.
Proof.
  intros (Hf & Hd & Hs & evs & Hl & He) (Hf' & Hd' & Hs' & evs' & Hl' & He').
  split; [|split; [|split]].
  - intros p Hp. by rewrite Hf', Hf.
  - destruct Hd as [Hd|Hd], Hd' as [Hd'|Hd']; rewrite Hd', Hd;
      rewrite ?add_entry_twice; auto.
  - by rewrite Hs', Hs.
  - exists (evs ++ evs'). split; [by rewrite Hl', Hl, app_assoc | by apply Forall_app].
Qed.

Lemma touches_faults w fl :
  touches out P w (mkWorld (fs w) (dirs w) fl (log w) (stats w)).
Proof.
  split; [done|]. split; [by left|]. split; [done|].
  exists []. simpl. by rewrite app_nil_r.
Qed.

Lemma touches_io : within (touches out P) io.
Proof. apply within_io; [apply touches_refl | apply touches_faults]. Qed.

Lemma touches_insert s w : touches out P w (set_fs (<[out := s]> (fs w)) w).
Proof.
  split; [|split; [by left|split; [done|]]].
  - intros p Hp. simpl. by rewrite lookup_insert_ne.
  - exists []. simpl. by rewrite app_nil_r.
Qed.

Lemma touches_create w : touches out P w (create out w).
Proof.
  split; [|split; [by right|split; [done|]]].
  - intros p Hp. simpl. by rewrite lookup_insert_ne.
  - exists []. simpl. by rewrite app_nil_r.
Qed.

Lemma touches_logger e : P e -> within (touches out P) (logger e).
Proof.
  intros He w. split; [done|]. split; [by left|]. split; [done|].
  exists [e]. split; [reflexivity|]. by constructor.
Qed.

Lemma touches_finally {A} (m : M A) :
  within (touches out P) m -> within (touches out P) (finally m close).
Proof.
  intros Hm w. destruct (finally_close_cases m w) as (fl & r & E & _).
  rewrite E. simpl. eapply touches_trans; [apply Hm | apply touches_faults].
Qed.

Lemma touches_bind {A B} (m : M A) (k : A -> M B) :
  within (touches out P) m ->
  (forall w a w', m w = (Ok a, w') -> within (touches out P) (k a)) ->
  within (touches out P) (bind m k).
Proof. apply within_bind, touches_trans. Qed.

Lemma touches_then {A B} (m : M A) (k : A -> M B) :
  within (touches out P) m -> (forall a, within (touches out P) (k a)) ->
  within (touches out P) (bind m k).
Proof. intros Hm Hk. apply touches_bind; [exact Hm | intros; apply Hk]. Qed.

Lemma touches_ret {A} (a : A) : within (touches out P) (ret a).
Proof. apply within_ret, touches_refl. Qed.

Lemma touches_raise {A} e : within (touches out P) (@raise A e).
Proof. apply within_raise, touches_refl. Qed.

Lemma touches_open_r p : within (touches out P) (open_r p).
Proof.
  apply touches_then; [apply touches_io|]. intros _ w.
  destruct (fs w !! p); apply touches_refl.
Qed.

Lemma touches_open_w : within (touches out P) (open_w out).
Proof.
  apply touches_then; [apply touches_io|]. intros _ w. apply touches_create.
Qed.

Lemma touches_readline fin : within (touches out P) (readline fin).
Proof. apply touches_then; [apply touches_io|]. intros _. apply touches_ret. Qed.

Lemma touches_write s : within (touches out P) (write out s).
Proof.
  apply touches_then; [apply touches_io|]. intros _ w. apply touches_insert.
Qed.

Lemma touches_skip_lines n fin : within (touches out P) (skip_lines n fin).
Proof.
  revert fin. induction n as [|n IH]; intros fin; simpl; [apply touches_ret|].
  apply touches_then; [apply touches_readline|]. intros p. apply IH.
Qed.

Lemma touches_read_atom_lines eof n fin acc :
  P eof -> within (touches out P) (read_atom_lines eof n fin acc).
Proof.
  intros He. revert fin acc.
  induction n as [|n IH]; intros fin acc; simpl; [apply touches_ret|].
  apply touches_then; [apply touches_readline|]. intros [line fin'].
  destruct line; [|apply IH].
  apply touches_then; [by apply touches_logger|]. intros _. apply touches_ret.
Qed.

Lemma touches_write_lines ls : within (touches out P) (write_lines out ls).
Proof.
  induction ls as [|l ls IH]; simpl; [apply touches_ret|].
  apply touches_then; [apply touches_write|]. intros _. exact IH.
Qed.

End Touches.

(** ** The loop of [process_file], whatever fails *)

Section Loop_touches.

Variable idx : list nat.
Variables fp out : Path.

Local Abbreviation keeps := (within (touches out is_warning)).

Lemma max_inv l w mx w' :
  max_ l w = (Ok mx, w') -> exists i l', l = i :: l' /\ mx = foldl Nat.max i l'.
Proof.
  destruct l as [|i l']; [discriminate|]. intros [= <- _]. by exists i, l'.
Qed.

(** A pass writes to the output file only and logs warnings only: the
    handler around the selection of the values never runs, since the
    test on the number of tokens comes first. *)
Lemma touches_body fin bc : keeps (body idx fp out fin bc).
Proof.
  unfold body. apply touches_then; [apply touches_readline|].
  intros [first fin1].
  destruct first as [|c first]; [apply touches_ret|].
  destruct (strip (c :: first)) as [|c' first']; [apply touches_ret|].
  destruct (int_ (c' :: first')) as [n|].
  2:{ apply touches_then; [by apply touches_logger|]. intros _. apply touches_ret. }
  apply touches_then; [apply touches_readline|]. intros [meta fin2].
  destruct meta as [|m meta].
  { apply touches_then; [by apply touches_logger|]. intros _. apply touches_ret. }
  apply touches_bind; [apply within_max_, touches_refl|].
  intros w mx w' Hmx. apply max_inv in Hmx as (i & idx' & Ei & ->).
  case_bool_decide as Hlen.
  { apply touches_then; [by apply touches_logger|]. intros _.
    apply touches_then; [apply touches_skip_lines|]. intros f. apply touches_ret. }
  destruct (select idx (split_ws (strip (m :: meta)))) as [vals|] eqn:Es.
  2:{ exfalso. rewrite Ei in Es.
      destruct (select_is_Some i idx' (split_ws (strip (m :: meta)))) as [v Hv];
        [lia | congruence]. }
  apply touches_then; [by apply touches_read_atom_lines|]. intros [r f].
  destruct r; [|apply touches_ret].
  apply touches_then; [apply touches_write|]. intros _.
  apply touches_then; [apply touches_write|]. intros _.
  apply touches_then; [apply touches_write_lines|]. intros _.
  apply touches_ret.
Qed.

Lemma touches_while_true fuel fin bc : keeps (while_true idx fuel fp out fin bc).
Proof.
  revert fin bc. induction fuel as [|fuel IH]; intros fin bc; simpl.
  - apply within_diverge, touches_refl.
  - apply touches_then; [apply touches_body|]. intros [bc'|fin' bc'].
    + apply touches_ret.
    + apply IH.
Qed.

Lemma touches_process_blocks fin bc : keeps (process_blocks idx fp out fin bc).
Proof. apply touches_while_true. Qed.

End Loop_touches.

(** ** [process_file], whatever fails *)

Lemma out_path_of_None ds fp od : out_path_of ds fp od = None <-> name fp = [].
Proof.
  unfold out_path_of. rewrite <- (make_output_name_None ds fp).
  by destruct (make_output_name ds fp).
Qed.

Lemma bind_run {A B} (m : M A) (k : A -> M B) w :
  bind m k w =
  match m w with
  | (Ok a, w1) => k a w1
  | (Raise e, w1) => (Raise e, w1)
  | (Diverge, w1) => (Diverge, w1)
  end.
Proof. reflexivity. Qed.

Lemma ends_finally fp out l0 (m : M unit) w :
  ends fp out l0 (m w).1 (log (m w).2) ->
  ends fp out l0 (finally m close w).1 (log (finally m close w).2).
Proof.
  intros (evs & Hevs & H).
  destruct (finally_close_cases m w) as (fl & r & E & Hr). rewrite E. simpl.
  exists evs. split; [done|]. destruct Hr as [->| ->]; [done|].
  destruct H as [(n & Hr & Hl)|[(x & Hr & Hl)|(n & Hr & Hl)]].
  - right. right. by exists n.
  - right. left. by exists OSError.
  - right. right. by exists n.
Qed.

(** The part of [process_file] under [try]. *)
Lemma process_file_ends idx fp out w :
  let m := (fin <- open_r fp ;;
            finally
              (open_w out ;;
               finally
                 (block_count <- process_blocks idx fp out fin 0 ;;
                  logger (InfoFinished fp block_count out))
                 close)
              close) in
  ends fp out (log w) (m w).1 (log (m w).2) /\
  touches out (fun _ => True) w (m w).2.
Proof.
  cbv zeta. split.
  - rewrite bind_run.
    pose proof (touches_open_r out (fun _ => False) fp w) as Ha.
    apply touches_same_log in Ha. pose proof (safe_open_r fp w) as Hsa.
    destruct (open_r fp w) as [[fin|x|] wa]; simpl in Ha, Hsa; [| |done].
    2:{ exists []. split; [done|]. right. left. exists x.
        simpl. by rewrite Ha, app_nil_r. }
    rewrite <- Ha. apply ends_finally. rewrite bind_run.
    pose proof (touches_open_w out (fun _ => False) wa) as Hc.
    apply touches_same_log in Hc. pose proof (safe_open_w out wa) as Hsc.
    destruct (open_w out wa) as [[[]|x|] wc]; simpl in Hc, Hsc; [| |done].
    2:{ exists []. split; [done|]. right. left. exists x.
        simpl. by rewrite Hc, app_nil_r. }
    rewrite <- Hc. apply ends_finally. rewrite bind_run.
    pose proof (touches_process_blocks idx fp out fin 0 wc)
      as (_ & _ & _ & evs & Hl & Hevs).
    pose proof (safe_process_blocks idx fp out fin 0 wc) as Hse.
    destruct (process_blocks idx fp out fin 0 wc) as [[bc|x|] we];
      simpl in Hl, Hse; [| |done]; exists evs; (split; [done|]).
    + left. exists bc. split; [done|]. simpl. by rewrite Hl, <- app_assoc.
    + right. left. by exists x.
  - apply touches_then; [apply touches_open_r|]. intros fin.
    apply touches_finally.
    apply touches_then; [apply touches_open_w|]. intros _.
    apply touches_finally.
    apply touches_then.
    + intros w0. eapply touches_weaken; [|apply touches_process_blocks]. done.
    + intros bc. by apply touches_logger.
Qed.

(** What [process_file] does to the world: it returns, only its output
    file has changed, and it has logged its start, then warnings, then
    how it ended. *)
Lemma process_file_effect ds idx fp od out w :
  out_path_of ds fp od = Some out ->
  exists w' evs cl,
    process_file ds idx fp od w = (Ok tt, w') /\
    touches out (fun _ => True) w w' /\
    log w' = log w ++ InfoProcessing fp :: evs ++ cl /\
    Forall is_warning evs /\ closing fp out cl.
Proof.
  intros Hout. apply out_path_of_Some in Hout as (o & Ho & Eout).
  unfold process_file. rewrite bind_logger, Ho. simpl lift. rewrite bind_ret.
  cbv zeta. rewrite <- Eout.
  set (w1 := add_log (InfoProcessing fp) w).
  assert (touches out (fun _ => True) w w1) as Hw1 by (by apply touches_logger).
  destruct (process_file_ends idx fp out w1) as [(evs & Hevs & He) Ht].
  cbv zeta in *. unfold try_except.
  set (m := (fin <- open_r fp ;; _)) in *.
  destruct (m w1) as [r w2]. simpl in He, Ht.
  assert (touches out (fun _ => True) w w2) as Hw2 by (by eapply touches_trans).
  destruct He as [(n & -> & Hl)|[(x & -> & Hl)|(n & -> & Hl)]].
  - exists w2, evs, [InfoFinished fp n out]. repeat split; try apply Hw2; try done.
    + rewrite Hl. simpl. by rewrite <- !app_assoc.
    + left. by exists n.
  - exists (add_log (ExcFatal fp x) w2), evs, [ExcFatal fp x].
    split; [done|]. split; [|split; [|split]]; try done.
    + eapply touches_trans; [exact Hw2 | by apply touches_logger].
    + simpl. rewrite Hl. simpl. by rewrite <- !app_assoc.
    + right. left. by exists x.
  - exists (add_log (ExcFatal fp OSError) w2), evs,
      [InfoFinished fp n out; ExcFatal fp OSError].
    split; [done|]. split; [|split; [|split]]; try done.
    + eapply touches_trans; [exact Hw2 | by apply touches_logger].
    + simpl. rewrite Hl. simpl. by rewrite <- !app_assoc.
    + right. right. by exists n.
Qed.

(** ** A pass over a directory, whatever fails *)

Lemma is_file_steady ds p w :
  stats w = [] -> is_file ds p w = (Ok (bool_decide (is_Some (fs w !! p))), w).
Proof. intros H. unfold is_file. by rewrite H. Qed.


Section Pass_over_directory.

Variable ds : bool.
Variable idx : list nat.
Variable script : text.
Variable target : text.
Variable patterns : option (list text).
Variable od : option text.



End Pass_over_directory.


(** A pass in which the first file cannot be opened: the failure is
    logged and the second file is processed all the same. *)
Example faulty_pass :
  let r := process_directory false NANCI_INDICES (T "reformat_nanci.py") (T "data")
             None None faulty_world in
  r.1 = Ok tt /\
  log r.2 =
    [InfoProcessing (mkPath (T "data") (T "a.xyz"));
     ExcFatal (mkPath (T "data") (T "a.xyz")) OSError;
     InfoProcessing (mkPath (T "data") (T "b.xyz"));
     InfoFinished (mkPath (T "data") (T "b.xyz")) 1
       (mkPath (T "data") (T "b_reformat.xyz"))].
Proof. vm_compute. split; reflexivity. Qed.


(** From Python 3.14 on the same pass skips the second file and goes on
    to the third. *)
Example stat_failure_skips_file :
  let r := process_directory true NANCI_INDICES (T "reformat_nanci.py") (T "data")
             None None stat_fault_world in
  r.1 = Ok tt /\
  log r.2 =
    [InfoProcessing (mkPath (T "data") (T "a.xyz"));
     InfoFinished (mkPath (T "data") (T "a.xyz")) 1
       (mkPath (T "data") (T "a_reformat.xyz"));
     InfoProcessing (mkPath (T "data") (T "c.xyz"));
     InfoFinished (mkPath (T "data") (T "c.xyz")) 1
       (mkPath (T "data") (T "c_reformat.xyz"))].
Proof. vm_compute. split; reflexivity. Qed.

(** ** The log and the files of [process_file], whatever fails *)

(** X9.  Whatever file operations fail, the log of [process_file] on a
    path with a name is: the entry for the start, then warnings of the
    loop only, then how it ended: the count of blocks, or the failure
    caught, or the count and then a failure, when closing a file fails
    after the count was logged.  So the handler around the selection of
    the metadata values never logs: the test on the number of tokens
    has excluded every failure it could catch. *)
Theorem process_file_log_shape ds idx fp od w :
  name fp <> [] ->
  exists out evs cl,
    out_path_of ds fp od = Some out /\
    log (process_file ds idx fp od w).2 =
      log w ++ InfoProcessing fp :: evs ++ cl /\
    Forall is_warning evs /\ closing fp out cl /\
    forall x, ExcExtract x ∉ InfoProcessing fp :: evs ++ cl.
Proof.
  intros Hname.
  destruct (out_path_of ds fp od) as [out|] eqn:Eout;
    [|by apply out_path_of_None in Eout].
  destruct (process_file_effect ds idx fp od out w Eout)
    as (w' & evs & cl & Hrun & _ & Hlog & Hevs & Hcl).
  exists out, evs, cl. rewrite Hrun. simpl. repeat split; try done.
  intros x Hin. apply elem_of_cons in Hin as [Hin|Hin]; [discriminate Hin|].
  apply elem_of_app in Hin as [Hin|Hin].
  - rewrite Forall_forall in Hevs. by apply Hevs in Hin.
  - destruct Hcl as [(n & ->)|[(y & ->)|(n & ->)]];
      repeat (apply elem_of_cons in Hin as [Hin|Hin]; [discriminate Hin|]);
      by apply elem_of_nil in Hin.
Qed.

Lemma process_file_log_shape_witness :
  exists out evs cl,
    out_path_of false sample_path None = Some out /\
    log (process_file false NANCI_INDICES sample_path None faulty_world).2 =
      log faulty_world ++ InfoProcessing sample_path :: evs ++ cl /\
    Forall is_warning evs /\ closing sample_path out cl /\
    forall x, ExcExtract x ∉ InfoProcessing sample_path :: evs ++ cl.
Proof.
  apply (process_file_log_shape false NANCI_INDICES sample_path None faulty_world).
  done.
Defined.

(** A run in which all goes well until the output file is closed: the
    count is logged, and then the failure. *)
Example close_failure_log :
  let r := process_file false NANCI_INDICES sample_path None close_fault_world in
  r.1 = Ok tt /\
  log r.2 = [InfoProcessing sample_path;
             InfoFinished sample_path 1 sample_out;
             ExcFatal sample_path OSError] /\
  fs r.2 !! sample_out = Some (output_block NANCI_INDICES water).
Proof. vm_compute. repeat split. Qed.

(** X10.  Whatever file operations fail, [process_file] changes no file
    but the one it writes to: the file it reads is as before, and so is
    every file at another path than the output path; and the listings
    are as before, or the listing of the directory of the output file
    has got the name of the output file in addition. *)
Theorem process_file_frame ds idx fp od w :
  let w' := (process_file ds idx fp od w).2 in
  fs w' !! fp = fs w !! fp /\
  (forall p, out_path_of ds fp od <> Some p -> fs w' !! p = fs w !! p) /\
  (dirs w' = dirs w \/
   exists out, out_path_of ds fp od = Some out /\
     dirs w' = add_entry out (dirs w)).
Proof.
  cbv zeta.
  destruct (out_path_of ds fp od) as [out|] eqn:Eout.
  - destruct (process_file_effect ds idx fp od out w Eout)
      as (w' & evs & e & Hrun & (Hfs & Hdirs & _) & _).
    rewrite Hrun. simpl. split; [|split].
    + apply Hfs. apply out_path_of_fresh in Eout as [Hne _]. congruence.
    + intros p Hp. apply Hfs. congruence.
    + destruct Hdirs as [Hd|Hd]; [by left | right; by exists out].
  - apply out_path_of_None in Eout.
    unfold process_file. rewrite bind_logger.
    rewrite (proj2 (make_output_name_None ds fp) Eout). simpl.
    split; [done|]. split; [done|]. by left.
Qed.

(** In a directory that is listed the output file appears in the
    listing. *)
Example output_is_listed :
  let r := process_directory false NANCI_INDICES (T "reformat_nanci.py") (T "data")
             (Some [T ".xyz"]) None listed_world in
  dirs r.2 !! T "data" =
    Some [T "b.xyz"; T "notes.txt"; T "a.xyz"; T "a_reformat.xyz"; T "b_reformat.xyz"].
Proof. by vm_compute. Qed.

(** ** The count that is reported *)

(** When no operation fails and positions are selected, a pass ends
    without an exception. *)
Lemma body_quiet_ok idx fp out fin bc w :
  quiet w -> idx <> [] -> exists c, (body idx fp out fin bc w).1 = Ok c.
Proof.
  intros Hq Hidx.
  destruct (readline_at fin) as [first fin1] eqn:H1.
  destruct (decide (first = [])) as [->|Hf].
  { rewrite (body_eof idx fp out fin bc w Hq fin1 H1). eauto. }
  destruct (decide (strip first = [])) as [Hs|Hs].
  { rewrite (body_blank idx fp out fin bc w Hq first fin1 H1 Hf Hs). eauto. }
  destruct (int_ (strip first)) as [n|] eqn:Hn.
  2:{ rewrite (body_count idx fp out fin bc w Hq first fin1 H1 Hs Hn). eauto. }
  destruct (readline_at fin1) as [meta fin2] eqn:H2.
  destruct (decide (meta = [])) as [->|Hm].
  { rewrite (body_meta_eof idx fp out fin bc w Hq first fin1 n H1 Hn fin2 H2). eauto. }
  destruct idx as [|i idx'] eqn:Ei; [done|]. rewrite <- Ei.
  destruct (decide (length (split_ws (strip meta)) <= foldl Nat.max i idx'))
    as [Hfew|Hmany].
  { rewrite (body_tokens idx fp out fin bc w Hq first fin1 n H1 Hn meta fin2
               i idx' H2 Hm Ei Hfew). eauto. }
  assert (foldl Nat.max i idx' < length (split_ws (strip meta))) as Hmx by lia.
  destruct (select_is_Some i idx' _ Hmx) as [vals Hv]. rewrite <- Ei in Hv.
  destruct (lines_read (Z.to_nat n) fin2 []) as [[atom_lines|] fin3] eqn:Hr.
  2:{ rewrite (body_atoms_eof idx fp out fin bc w Hq first fin1 n H1 Hn meta fin2
                 i idx' vals fin3 H2 Hm Ei Hmx Hv Hr). eauto. }
  rewrite (body_emit idx fp out fin bc w Hq first fin1 n H1 Hn meta fin2
             i idx' vals atom_lines fin3 H2 Hm Ei Hmx Hv Hr). eauto.
Qed.

Lemma while_true_quiet_ok idx fp out fuel :
  idx <> [] ->
  forall fin bc w e, quiet w -> (while_true idx fuel fp out fin bc w).1 <> Raise e.
Proof.
  intros Hidx. induction fuel as [|fuel IH]; intros fin bc w e Hq; [done|].
  simpl. unfold bind.
  destruct (body_quiet_ok idx fp out fin bc w Hq Hidx) as [c Hc].
  pose proof (body_quiet_cases idx fp out fin bc w Hq) as [Hq' _].
  destruct (body idx fp out fin bc w) as [r w1]. simpl in Hc, Hq'. subst r.
  destruct c as [bc'|fin' bc']; [done|]. by apply IH.
Qed.

Lemma process_blocks_quiet_ok idx fp out fin bc w :
  quiet w -> idx <> [] -> exists n, (process_blocks idx fp out fin bc w).1 = Ok n.
Proof.
  intros Hq Hidx.
  pose proof (safe_process_blocks idx fp out fin bc w) as Hsafe.
  pose proof (while_true_quiet_ok idx fp out (S (length fin)) Hidx fin bc w) as Hraise.
  unfold process_blocks in *.
  destruct (while_true idx (S (length fin)) fp out fin bc w) as [[n|e|] w1];
    simpl in *; [eauto | | done].
  by destruct (Hraise e Hq).
Qed.

(** X11.  When no file operation fails and positions are selected,
    [process_file] ends without a failure on every text: what it leaves
    in the output file is a sequence of blocks read from the input, and
    the count in the last entry of the log is the number of these
    blocks; the entries between the first and the last are warnings. *)
Theorem process_file_reports_count ds idx fp od out w content :
  quiet w -> idx <> [] ->
  fs w !! fp = Some content -> out_path_of ds fp od = Some out ->
  exists blocks evs w',
    process_file ds idx fp od w = (Ok tt, w') /\
    fs w' !! out = Some (concat (map render blocks)) /\
    Forall (emitted_from idx content) blocks /\
    log w' = log w ++ InfoProcessing fp :: evs ++
             [InfoFinished fp (length blocks) out] /\
    Forall is_warning evs.
Proof.
  intros Hq Hidx Hfp Hout.
  destruct (process_blocks_emits idx fp out content (length content) content
              (Nat.le_refl _) 0 0 (opened fp out w))
    as (blocks & Hfs & Hall & Hbc); try done.
  { rewrite opened_out. eauto. }
  destruct (process_blocks_quiet_ok idx fp out content 0 (opened fp out w))
    as [n Hn]; try done.
  pose proof (touches_process_blocks idx fp out content 0 (opened fp out w))
    as (_ & _ & _ & evs & Hlog & Hevs).
  specialize (Hbc n Hn). simpl in Hbc. subst n.
  rewrite (process_file_quiet _ _ _ _ _ _ _ Hq Hfp Hout).
  unfold try_except, bind.
  destruct (process_blocks idx fp out content 0 (opened fp out w)) as [r w1].
  simpl in Hn, Hfs, Hlog. subst r.
  exists blocks, evs, (add_log (InfoFinished fp (length blocks) out) w1).
  split; [reflexivity|]. simpl. rewrite Hfs. simpl.
  rewrite !lookup_insert_eq. simpl. repeat split; try done.
  rewrite Hlog. simpl. by rewrite <- !app_assoc.
Qed.

Lemma process_file_reports_count_witness :
  let w := one_file sample_path (input_text [water]) in
  exists blocks evs w',
    process_file false NANCI_INDICES sample_path None w = (Ok tt, w') /\
    fs w' !! sample_out = Some (concat (map render blocks)) /\
    Forall (emitted_from NANCI_INDICES (input_text [water])) blocks /\
    log w' = log w ++ InfoProcessing sample_path :: evs ++
             [InfoFinished sample_path (length blocks) sample_out] /\
    Forall is_warning evs.
Proof.
  apply (process_file_reports_count false NANCI_INDICES sample_path None sample_out
           (one_file sample_path (input_text [water])) (input_text [water])).
  - reflexivity.
  - done.
  - by_compute.
  - by_compute.
Defined.

(** ** The order of a pass over a directory *)

Lemma text_leb_total a b : text_leb a b = false -> text_leb b a = true.
Proof.
  revert b. induction a as [|x a IH]; intros [|y b]; simpl; try done.
  destruct (nat_of_ascii x <? nat_of_ascii y) eqn:Hlt; [done|].
  apply Nat.ltb_ge in Hlt.
  destruct (nat_of_ascii x =? nat_of_ascii y) eqn:Heq.
  - apply Nat.eqb_eq in Heq. rewrite Heq, Nat.ltb_irrefl, Nat.eqb_refl. apply IH.
  - apply Nat.eqb_neq in Heq. intros _.
    assert ((nat_of_ascii y <? nat_of_ascii x) = true) as ->; [|done].
    apply Nat.ltb_lt. lia.
Qed.

Lemma insert_sorted_perm x l : insert_sorted x l ≡ₚ x :: l.
Proof.
  induction l as [|y l IH]; simpl; [done|].
  destruct (text_leb x y); [done|]. rewrite IH. apply Permutation_swap.
Qed.

Lemma sorted_perm l : sorted l ≡ₚ l.
Proof.
  induction l as [|x l IH]; simpl; [done|].
  change (foldr insert_sorted [] l) with (sorted l).
  by rewrite insert_sorted_perm, IH.
Qed.

Lemma insert_sorted_ascending x l :
  Sorted (fun a b => text_leb a b = true) l ->
  Sorted (fun a b => text_leb a b = true) (insert_sorted x l).
Proof.
  induction 1 as [|y l Hl IH Hy]; simpl.
  - by repeat constructor.
  - destruct (text_leb x y) eqn:Hxy.
    + constructor; [by constructor|]. by constructor.
    + constructor; [exact IH|].
      apply text_leb_total in Hxy.
      destruct l as [|z l]; simpl; [by constructor|].
      inversion Hy; subst.
      destruct (text_leb x z); by constructor.
Qed.

Lemma sorted_ascending l : Sorted (fun a b => text_leb a b = true) (sorted l).
Proof.
  induction l as [|x l IH]; simpl; [constructor|].
  by apply insert_sorted_ascending.
Qed.

Lemma started_app evs evs' : started (evs ++ evs') = started evs ++ started evs'.
Proof. unfold started. apply omap_app. Qed.

Lemma started_warnings evs : Forall is_warning evs -> started evs = [].
Proof.
  induction 1 as [|e evs He _ IH]; [reflexivity|].
  destruct e; try done; exact IH.
Qed.

Lemma started_closing fp out cl : closing fp out cl -> started cl = [].
Proof. by intros [(n & ->)|[(x & ->)|(n & ->)]]. Qed.

Section Pass_in_order.

Variable ds : bool.
Variable idx : list nat.
Variable script : text.
Variable target : text.
Variable patterns : option (list text).
Variable od : option text.

(** The names of a listing on which a pass starts [process_file]. *)
Local Abbreviation eligible :=
  (filter (fun n => n <> script /\ selected patterns n = true)).

Lemma for_each_name_effect names :
  Forall (fun n => n <> []) names ->
  forall w,
    (forall n, n ∈ names -> is_Some (fs w !! mkPath target n)) ->
    stats w = [] ->
    exists w' evs,
      for_each_name ds idx script target patterns od names w = (Ok tt, w') /\
      (forall p, parent p <> default target od -> fs w' !! p = fs w !! p) /\
      log w' = log w ++ evs /\
      started evs = map (mkPath target) (eligible names).
Proof using Type.
  induction 1 as [|fname names Hne Hnames IH]; intros w Hfiles Hstats.
  { exists w, []. rewrite app_nil_r. by repeat split. }
  assert (is_Some (fs w !! mkPath target fname)) as Hfile
    by (apply Hfiles; by left).
  simpl for_each_name. unfold bind at 1. rewrite is_file_steady by done.
  rewrite bool_decide_true by done. cbn [negb].
  set (step := if bool_decide (fname = script) then ret tt
               else if negb (selected patterns fname) then ret tt
               else process_file ds idx (mkPath target fname) od).
  assert (exists w1 evs1,
            step w = (Ok tt, w1) /\ extends w w1 /\ stats w1 = [] /\
            (forall p, parent p <> default target od -> fs w1 !! p = fs w !! p) /\
            log w1 = log w ++ evs1 /\
            started evs1 = map (mkPath target) (eligible [fname]))
    as (w1 & evs1 & Hstep & Hext & Hstats1 & Hframe & Hlog & Hst).
  { unfold step. rewrite filter_cons, filter_nil.
    case_bool_decide as Hs.
    { exists w, []. rewrite app_nil_r, decide_False by tauto.
      split; [done|]. split; [apply extends_refl|]. by repeat split. }
    destruct (selected patterns fname) eqn:Hsel; cbn [negb].
    2:{ exists w, []. rewrite app_nil_r, decide_False by (intros [_ ?]; done).
        split; [done|]. split; [apply extends_refl|]. by repeat split. }
    rewrite decide_True by done.
    destruct (out_path_of ds (mkPath target fname) od) as [out|] eqn:Eout;
      [|by apply out_path_of_None in Eout].
    destruct (process_file_effect ds idx (mkPath target fname) od out w Eout)
      as (w1 & evs & cl & Hrun & (Hfs & _ & Hs1 & _) & Hlog & Hevs & Hcl).
    exists w1, (InfoProcessing (mkPath target fname) :: evs ++ cl).
    split; [exact Hrun|].
    split; [|split; [by rewrite Hs1|split; [|split; [exact Hlog|]]]].
    - pose proof (grows_process_file ds idx (mkPath target fname) od w) as Hg.
      by rewrite Hrun in Hg.
    - intros p Hp. apply Hfs. intros ->.
      apply out_path_of_fresh in Eout as [_ Hpar]. by rewrite Hpar in Hp.
    - change (started (InfoProcessing ?p :: ?l)) with (p :: started l).
      rewrite started_app, (started_warnings evs Hevs), (started_closing _ _ _ Hcl).
      reflexivity. }
  unfold bind. rewrite Hstep.
  destruct (IH w1) as (w' & evs & Hrun & Hframe' & Hlog' & Hst'); [|done|].
  { intros n Hn. destruct Hext as (_ & Hfs & _). apply Hfs, Hfiles. by right. }
  exists w', (evs1 ++ evs). split; [exact Hrun|].
  split; [|split].
  - intros p Hp. by rewrite Hframe', Hframe.
  - by rewrite Hlog', Hlog, app_assoc.
  - rewrite started_app, Hst, Hst'.
    change (fname :: names) with ([fname] ++ names).
    by rewrite filter_app, map_app.
Qed.

(** X12.  A pass over a directory of regular files whose listing
    succeeds and in which no look of [is_file] at a file fails returns,
    whatever file operation fails, and starts [process_file] once on
    each listed name that is not the script's own and that the filter
    lets through, in ascending order of the names by code points and on
    no other path. *)
Theorem process_directory_order w names :
  dirs w !! target = Some names -> Forall (fun n => n <> []) names ->
  (forall n, n ∈ names -> is_Some (fs w !! mkPath target n)) ->
  stats w = [] ->
  sorted names ≡ₚ names /\
  Sorted (fun a b => text_leb a b = true) (sorted names) /\
  exists w' evs,
    process_directory ds idx script target patterns od w = (Ok tt, w') /\
    log w' = log w ++ evs /\
    started evs = map (mkPath target) (eligible (sorted names)).
Proof using Type.
  intros Hdir Hne Hfiles Hstats.
  split; [apply sorted_perm|]. split; [apply sorted_ascending|].
  unfold process_directory, listdir, bind. rewrite Hdir.
  destruct (for_each_name_effect (sorted names)) with (w := w)
    as (w' & evs & Hrun & _ & Hlog & Hst).
  - rewrite Forall_forall in *. intros n Hn. apply Hne. by apply sorted_elem.
  - intros n Hn. apply Hfiles. by apply sorted_elem.
  - done.
  - by exists w', evs.
Qed.

Lemma process_file_others fp w p :
  out_path_of ds fp od <> Some p ->
  fs (process_file ds idx fp od w).2 !! p = fs w !! p.
Proof using Type.
  intros Hp. destruct (out_path_of ds fp od) as [out|] eqn:Eout.
  - destruct (process_file_effect ds idx fp od out w Eout)
      as (w' & evs & e & Hrun & (Hfs & _) & _).
    rewrite Hrun. apply Hfs. congruence.
  - apply out_path_of_None in Eout.
    unfold process_file. rewrite bind_logger.
    by rewrite (proj2 (make_output_name_None ds fp) Eout).
Qed.

Lemma outside_refl d w : outside d w w.
Proof using Type. by intros p Hp. Qed.

Lemma outside_trans d w1 w2 w3 :
  outside d w1 w2 -> outside d w2 w3 -> outside d w1 w3.
Proof using Type. intros H1 H2 p Hp. by rewrite H2, H1. Qed.

Lemma outside_for_each_name names :
  within (outside (default target od))
    (for_each_name ds idx script target patterns od names).
Proof using Type.
  induction names as [|fname names IH]; simpl.
  { apply within_ret, outside_refl. }
  apply within_bind; [apply outside_trans | |].
  { intros w p Hp. unfold is_file. by destruct (stats w) as [|[] sl], ds. }
  intros _ regular _ _.
  apply within_bind; [apply outside_trans | | intros; exact IH].
  destruct (negb regular); [apply within_ret, outside_refl|].
  case_bool_decide; [apply within_ret, outside_refl|].
  destruct (negb (selected patterns fname)); [apply within_ret, outside_refl|].
  intros w p Hp. apply process_file_others. intros Eout.
  apply out_path_of_fresh in Eout as [_ Hpar]. by rewrite Hpar in Hp.
Qed.

(** X13.  A pass over a directory, whatever it holds and whatever fails
    in it, changes no file outside the directory it writes to; so with
    an output directory other than the one it reads, it changes none of
    the files it reads. *)
Theorem process_directory_frame w p :
  parent p <> default target od ->
  fs (process_directory ds idx script target patterns od w).2 !! p = fs w !! p.
Proof using Type.
  revert w p.
  change (within (outside (default target od))
            (process_directory ds idx script target patterns od)).
  unfold process_directory.
  apply within_bind; [apply outside_trans | | intros; apply outside_for_each_name].
  intros w p Hp. unfold listdir. by destruct (dirs w !! target).
Qed.

End Pass_in_order.

Lemma process_directory_order_witness :
  sorted [T "b.xyz"; T "notes.txt"; T "a.xyz"] ≡ₚ [T "b.xyz"; T "notes.txt"; T "a.xyz"] /\
  Sorted (fun a b => text_leb a b = true) (sorted [T "b.xyz"; T "notes.txt"; T "a.xyz"]) /\
  exists w' evs,
    process_directory false NANCI_INDICES (T "reformat_nanci.py") (T "data")
      (Some [T ".xyz"]) None listed_world = (Ok tt, w') /\
    log w' = log listed_world ++ evs /\
    started evs = [mkPath (T "data") (T "a.xyz"); mkPath (T "data") (T "b.xyz")].
Proof.
  apply (process_directory_order false NANCI_INDICES (T "reformat_nanci.py")
           (T "data") (Some [T ".xyz"]) None listed_world
           [T "b.xyz"; T "notes.txt"; T "a.xyz"]).
  - by_compute.
  - by_compute.
  - intros n Hn. repeat (apply elem_of_cons in Hn as [->|Hn]; [by_compute|]).
    by apply elem_of_nil in Hn.
  - reflexivity.
Defined.

Lemma process_directory_frame_witness :
  let p := mkPath (T "data") (T "a.xyz") in
  parent p <> default (T "data") (Some (T "out")) /\
  fs (process_directory false NANCI_INDICES (T "reformat_nanci.py") (T "data")
        None (Some (T "out")) listed_world).2 !! p = fs listed_world !! p.
Proof.
  assert (parent (mkPath (T "data") (T "a.xyz")) <>
          default (T "data") (Some (T "out"))) as H by by_compute.
  split; [exact H|].
  exact (process_directory_frame false NANCI_INDICES (T "reformat_nanci.py")
           (T "data") None (Some (T "out")) listed_world _ H).
Defined.

(** ** [reformat]: how it ends *)

Lemma same_log_refl w : same_log w w.
Proof. reflexivity. Qed.

Lemma same_log_trans w1 w2 w3 : same_log w1 w2 -> same_log w2 w3 -> same_log w1 w3.
Proof. unfold same_log. congruence. Qed.

Lemma same_log_then {A B} (m : M A) (k : A -> M B) :
  within same_log m -> (forall a, within same_log (k a)) ->
  within same_log (bind m k).
Proof.
  intros Hm Hk. apply within_bind; [apply same_log_trans | exact Hm |].
  intros; apply Hk.
Qed.

Lemma same_log_io : within same_log io.
Proof. apply within_io; [apply same_log_refl | by intros w fl]. Qed.

Lemma same_log_readline f : within same_log (readline f).
Proof.
  apply same_log_then; [apply same_log_io|]. intros _.
  apply within_ret, same_log_refl.
Qed.

Lemma same_log_write p s : within same_log (write p s).
Proof. apply same_log_then; [apply same_log_io|]. by intros _ w. Qed.

Lemma same_log_read_atoms n f acc : within same_log (read_atoms n f acc).
Proof.
  revert f acc. induction n as [|n IH]; intros f acc; simpl.
  - apply within_ret, same_log_refl.
  - apply same_log_then; [apply same_log_readline|]. intros p. apply IH.
Qed.

(** One pass of the loop of [reformat] logs nothing. *)
Lemma same_log_reformat_block b f : within same_log (reformat_block b f).
Proof.
  unfold reformat_block.
  apply same_log_then; [apply same_log_readline|]. intros [line f1].
  apply same_log_then; [apply within_lift, same_log_refl|]. intros n.
  apply same_log_then; [apply same_log_readline|]. intros [line2 f2].
  apply same_log_then; [apply same_log_read_atoms|]. intros [atoms f3].
  apply same_log_then; [apply same_log_write|]. intros _.
  apply same_log_then; [apply within_lift, same_log_refl|]. intros values.
  apply same_log_then; [apply within_lift, same_log_refl|]. intros header.
  apply same_log_then; [apply same_log_write|]. intros _.
  apply same_log_then; [apply same_log_write|]. intros _.
  apply within_ret, same_log_refl.
Qed.

Lemma safe_read_atoms n f acc : safe (read_atoms n f acc).
Proof.
  revert f acc. induction n as [|n IH]; intros f acc; simpl.
  - apply safe_ret.
  - apply safe_bind; [apply safe_readline|]. intros p. apply IH.
Qed.

Lemma safe_reformat_block b f : safe (reformat_block b f).
Proof.
  unfold reformat_block.
  apply safe_bind; [apply safe_readline|]. intros [line f1].
  apply safe_bind; [apply safe_lift|]. intros n.
  apply safe_bind; [apply safe_readline|]. intros [line2 f2].
  apply safe_bind; [apply safe_read_atoms|]. intros [atoms f3].
  apply safe_bind; [apply safe_write|]. intros _.
  apply safe_bind; [apply safe_lift|]. intros values.
  apply safe_bind; [apply safe_lift|]. intros header.
  apply safe_bind; [apply safe_write|]. intros _.
  apply safe_bind; [apply safe_write|]. intros _.
  apply safe_ret.
Qed.

Lemma post_read_atoms n f acc :
  post (read_atoms n f acc) (fun p => length p.2 <= length f).
Proof.
  revert f acc. induction n as [|n IH]; intros f acc; simpl.
  - by apply post_ret.
  - eapply post_bind; [apply post_readline|]. intros p ->.
    pose proof (readline_at_length f) as Hlen.
    intros w a w' H. apply IH in H. lia.
Qed.

Lemma int_nonempty l n : int_ l = Some n -> l <> [].
Proof. by intros H ->. Qed.

(** A pass that ends without an exception has read at least one
    character. *)
Lemma reformat_block_progress b f :
  post (reformat_block b f) (fun f' => length f' < length f).
Proof.
  unfold reformat_block.
  eapply post_bind; [apply post_readline|]. intros p ->.
  pose proof (readline_at_length f) as Hlen.
  destruct (readline_at f) as [line f1]. simpl in Hlen.
  destruct (int_ line) as [n|] eqn:Hn; [|by intros w a w' H].
  apply int_nonempty in Hn.
  assert (length f1 < length f) as Hlt by (destruct line; [done | simpl in Hlen; lia]).
  simpl lift. eapply post_bind; [apply post_true|]. intros n' _.
  eapply post_bind; [apply post_readline|]. intros p ->.
  pose proof (readline_at_length f1) as Hlen1.
  destruct (readline_at f1) as [line2 f2]. simpl in Hlen1.
  eapply post_bind; [apply post_read_atoms|]. intros [atoms f3] Hf3. simpl in Hf3.
  eapply post_bind; [apply post_true|]. intros _ _.
  eapply post_bind; [apply post_true|]. intros values _.
  eapply post_bind; [apply post_true|]. intros header _.
  eapply post_bind; [apply post_true|]. intros _ _.
  eapply post_bind; [apply post_true|]. intros _ _.
  apply post_ret. lia.
Qed.

(** The loop of [reformat] has one way out: an exception, which it
    prints.  The steps granted are enough for every stream. *)
Lemma reformat_loop_ends addr b fuel :
  forall f w, length f < fuel ->
    exists e w',
      reformat_loop fuel addr b f w = (Ok tt, w') /\
      log w' = log w ++ [PrintError addr e].
Proof.
  induction fuel as [|fuel IH]; intros f w Hlen; [lia|].
  cbn [reformat_loop]. unfold bind at 1. unfold try_except, bind at 1.
  pose proof (same_log_reformat_block b f w) as Hlog.
  pose proof (safe_reformat_block b f w) as Hsafe.
  pose proof (reformat_block_progress b f w) as Hprog.
  destruct (reformat_block b f w) as [[f'|e|] w1]; simpl in Hlog, Hsafe; [| |done].
  - specialize (Hprog f' w1 eq_refl). simpl.
    destruct (IH f' w1) as (e & w' & Hrun & Hl); [lia|].
    exists e, w'. split; [exact Hrun|]. by rewrite Hl, Hlog.
  - simpl. exists e, (add_log (PrintError addr e) w1).
    split; [reflexivity|]. simpl. by rewrite Hlog.
Qed.

Lemma reformat_unfold addr w :
  reformat addr w =
  (b <- lift IndexError (reformat_address addr) ;;
   open_w (Path_of_str b) ;;
   finally
     (f <- open_r (Path_of_str addr) ;;
      finally (reformat_loop (S (length f)) addr (Path_of_str b) f) close)
     close) w.
Proof. reflexivity. Qed.

(** Without a failure [reformat] comes down to its loop, run on the
    text of the file. *)
Lemma reformat_quiet addr b content w :
  quiet w -> reformat_address addr = Some b ->
  fs (create (Path_of_str b) w) !! Path_of_str addr = Some content ->
  reformat addr w =
  reformat_loop (S (length content)) addr (Path_of_str b) content
    (create (Path_of_str b) w).
Proof.
  intros Hq Hb Hfile. rewrite reformat_unfold, Hb, bind_lift_some.
  rewrite bind_open_w by done.
  by rewrite (reformat_with_quiet _ _ _ content).
Qed.

Lemma open_w_result p w :
  exists r w', open_w p w = (r, w') /\ log w' = log w /\
    (r = Ok tt \/ r = Raise OSError).
Proof.
  unfold open_w, bind, io. destruct (faults w) as [|[] fl]; eauto 10.
Qed.

Lemma open_r_result p w :
  exists r w', open_r p w = (r, w') /\ log w' = log w /\
    ((exists content, r = Ok content) \/ r = Raise OSError).
Proof.
  unfold open_r, bind, io.
  destruct (faults w) as [|[] fl]; simpl; try destruct (fs w !! p); eauto 10.
Qed.

Lemma printed_once_finally addr l0 (m : M unit) w :
  printed_once addr l0 (m w).1 (log (m w).2) ->
  printed_once addr l0 (finally m close w).1 (log (finally m close w).2).
Proof.
  intros H. destruct (finally_close_cases m w) as (fl & r & E & Hr).
  rewrite E. simpl. destruct Hr as [->| ->]; [done|].
  right. split; [done|]. destruct H as [[_ H]|[_ H]]; auto.
Qed.

(** The part of [reformat] after the address of the output is made. *)
Lemma reformat_with_ends addr pb w :
  let m := (open_w pb ;;
            finally
              (f <- open_r (Path_of_str addr) ;;
               finally (reformat_loop (S (length f)) addr pb f) close)
              close) in
  printed_once addr (log w) (m w).1 (log (m w).2).
Proof.
  cbv zeta. rewrite bind_run.
  destruct (open_w_result pb w) as (r & wc & -> & Hc & [->| ->]).
  2:{ right. simpl. auto. }
  rewrite <- Hc. apply printed_once_finally. rewrite bind_run.
  destruct (open_r_result (Path_of_str addr) wc)
    as (r & wa & -> & Ha & [[content ->]| ->]).
  2:{ right. simpl. auto. }
  rewrite <- Ha. apply printed_once_finally.
  destruct (reformat_loop_ends addr pb (S (length content)) content wa)
    as (e & w' & -> & Hl); [lia|].
  left. simpl. eauto.
Qed.

(** X14.  When the address has two dots or more, [reformat], whatever
    file operations fail, either returns and has printed exactly one
    error, or raises [OSError]: from an open, with nothing printed, or
    from closing a file, after the one error was printed.  When no
    operation fails and the file exists it returns: its loop has no way
    out but an exception, so it ends with an error message also on an
    input without a flaw. *)
Theorem reformat_prints_one_error addr b w :
  reformat_address addr = Some b ->
  ((exists e w',
      reformat addr w = (Ok tt, w') /\
      log w' = log w ++ [PrintError addr e]) \/
   (exists w',
      reformat addr w = (Raise OSError, w') /\
      (log w' = log w \/ exists e, log w' = log w ++ [PrintError addr e]))) /\
  (quiet w -> is_Some (fs w !! Path_of_str addr) ->
   exists e w',
     reformat addr w = (Ok tt, w') /\
     log w' = log w ++ [PrintError addr e]).
Proof.
  intros Hb. split.
  - rewrite reformat_unfold, Hb, bind_lift_some.
    pose proof (reformat_with_ends addr (Path_of_str b) w) as H. cbv zeta in H.
    destruct ((open_w (Path_of_str b) ;; _) w) as [r w']. simpl in H.
    destruct H as [[-> [e He]]|[-> H]].
    + left. by exists e, w'.
    + right. by exists w'.
  - intros Hq Hfile.
    assert (exists content,
              fs (create (Path_of_str b) w) !! Path_of_str addr = Some content)
      as [content Hc].
    { simpl. destruct (decide (Path_of_str b = Path_of_str addr)) as [->|Hne].
      - rewrite lookup_insert_eq. eauto.
      - rewrite lookup_insert_ne by done. exact Hfile. }
    rewrite (reformat_quiet addr b content) by done.
    destruct (reformat_loop_ends addr (Path_of_str b) (S (length content)) content
                (create (Path_of_str b) w))
      as (e & w' & Hrun & Hlog); [lia|].
    exists e, w'. split; [exact Hrun|]. exact Hlog.
Qed.

Lemma reformat_prints_one_error_witness :
  let addr := T "nenci.part.xyz" in
  let w := one_file (mkPath [dot] addr) (input_text [water]) in
  ((exists e w',
      reformat addr w = (Ok tt, w') /\
      log w' = log w ++ [PrintError addr e]) \/
   (exists w',
      reformat addr w = (Raise OSError, w') /\
      (log w' = log w \/ exists e, log w' = log w ++ [PrintError addr e]))) /\
  exists e w',
    reformat addr w = (Ok tt, w') /\
    log w' = log w ++ [PrintError addr e].
Proof.
  cbv zeta.
  destruct (reformat_prints_one_error (T "nenci.part.xyz") (T "nenci.part_reformat.xyz")
              (one_file (mkPath [dot] (T "nenci.part.xyz")) (input_text [water])))
    as [Hany Hquiet]; [by_compute|].
  split; [exact Hany|]. apply Hquiet; [reflexivity | by_compute].
Defined.

(** A run of [reformat] in which closing the output file fails: the
    error of the loop is printed, and [OSError] leaves [reformat]. *)
Example reformat_close_failure :
  let addr := T "data/nenci.part.xyz" in
  let w := mkWorld {[ mkPath (T "data") (T "nenci.part.xyz") := input_text [water] ]}
             ∅ (replicate 12 false ++ [true]) [] [] in
  let r := reformat addr w in
  r.1 = Raise OSError /\
  log r.2 = [PrintError addr ValueError] /\
  fs r.2 !! mkPath (T "data") (T "nenci.part_reformat.xyz")
    = Some (output_block NANCI_INDICES water).
Proof. vm_compute. repeat split. Qed.

(** ** [reformat]: blocks that [process_file] would not write *)

Lemma reformat_run addr b content w :
  quiet w -> reformat_address addr = Some b ->
  Path_of_str b <> Path_of_str addr ->
  fs w !! Path_of_str addr = Some content ->
  reformat addr w =
  reformat_loop (S (length content)) addr (Path_of_str b) content
    (create (Path_of_str b) w).
Proof.
  intros Hq Hb Hne Hfile. apply reformat_quiet; try done.
  simpl. by rewrite lookup_insert_ne.
Qed.

Lemma bind_atoms_read {B} n f acc (k : text * text -> M B) w :
  quiet w -> bind (read_atoms n f acc) k w = k (atoms_read n f acc) w.
Proof.
  intros Hq. revert f acc. induction n as [|n IH]; intros f acc; [reflexivity|].
  cbn [read_atoms atoms_read]. rewrite bind_assoc, bind_readline by done.
  apply IH.
Qed.

Lemma atoms_read_short n f acc :
  line_count f <= n -> atoms_read n f acc = (acc ++ f, []).
Proof.
  revert f acc. induction n as [|n IH]; intros f acc Hn.
  - destruct f as [|c f]; [by rewrite app_nil_r|].
    rewrite (line_count_readline (c :: f)) in Hn by done. lia.
  - cbn [atoms_read]. destruct f as [|c f].
    { simpl. rewrite IH by (simpl; lia). by rewrite !app_nil_r. }
    rewrite (line_count_readline (c :: f)) in Hn by done.
    rewrite IH by lia. rewrite <- app_assoc. by rewrite readline_at_app.
Qed.

(** The first two lines of a block, as [reformat] reads them. *)
Lemma reformat_block_head out count n meta tail w :
  quiet w -> nlfree count -> int_ count = Some n -> nlfree meta ->
  reformat_block out (count ++ nl :: meta ++ nl :: tail) w =
  (let data := split_on space (meta ++ [nl]) in
   let p := atoms_read (Z.to_nat n) tail [] in
   write out (str_Z n ++ [nl]) ;;
   values <- lift IndexError (mapM (fun i => data !! i) NANCI_INDICES) ;;
   header <- lift TypeError (percent REFORMAT_TEMPLATE values) ;;
   write out header ;;
   write out p.1 ;;
   ret p.2) w.
Proof.
  intros Hq Hc Hn Hm. unfold reformat_block.
  rewrite bind_readline, readline_at_line by done.
  cbv beta iota. rewrite int_nl, Hn, bind_lift_some.
  rewrite bind_readline, readline_at_line by done.
  cbv beta iota. rewrite bind_atoms_read by done.
  cbv zeta. by destruct (atoms_read (Z.to_nat n) tail []).
Qed.

Lemma short_data (data : list text) :
  length data <= 34 -> mapM (fun i => data !! i) NANCI_INDICES = None.
Proof.
  intros Hlen. destruct (mapM _ _) as [vals|] eqn:E; [|reflexivity].
  exfalso. assert (is_Some (data !! 34)) as Hs.
  { apply mapM_Some_1 in E. unfold NANCI_INDICES in E.
    repeat match goal with
           | H : Forall2 _ (_ :: _) _ |- _ =>
               apply Forall2_cons_inv_l in H as (? & ? & ? & H & ->)
           end.
    eauto. }
  apply lookup_lt_is_Some in Hs. lia.
Qed.

(** X15.  A block whose metadata line has fewer than thirty-five fields
    between single spaces makes [reformat] stop with [IndexError] after
    it has written the count line of this block: the file it leaves
    ends with a count that no header and no atom line follow. *)
Theorem reformat_short_metadata addr b bs count n meta tail w :
  quiet w -> reformat_address addr = Some b ->
  Path_of_str b <> Path_of_str addr ->
  Forall plain_block bs ->
  nlfree count -> int_ count = Some n -> nlfree meta ->
  length (split_on space (meta ++ [nl])) <= 34 ->
  fs w !! Path_of_str addr =
    Some (input_text bs ++ count ++ nl :: meta ++ nl :: tail) ->
  exists w',
    reformat addr w = (Ok tt, w') /\
    fs w' = <[Path_of_str b :=
                concat (map (output_block NANCI_INDICES) bs) ++ str_Z n ++ [nl]]>
              (fs w) /\
    log w' = log w ++ [PrintError addr IndexError].
Proof.
  intros Hq Hb Hne Hbs Hc Hn Hm Hshort Hfile.
  rewrite (reformat_run _ _ _ _ Hq Hb Hne Hfile).
  set (out := Path_of_str b).
  set (w1 := create out w).
  set (bad := count ++ nl :: meta ++ nl :: tail).
  pose proof (input_text_length bs) as Hlen.
  replace (S (length (input_text bs ++ bad)))
    with (length bs + S (length (input_text bs ++ bad) - length bs))
    by (rewrite length_app; lia).
  rewrite reformat_loop_blocks; try done.
  2:{ unfold w1. simpl. rewrite lookup_insert_eq. eauto. }
  set (w2 := append_file out (concat (map (output_block NANCI_INDICES) bs)) w1).
  assert (quiet w2) as Hq2 by done.
  cbn [reformat_loop]. unfold bind at 1. unfold try_except, bind at 1.
  unfold bad. rewrite (reformat_block_head out count n meta tail w2) by done.
  cbv zeta.
  rewrite bind_write by done. rewrite short_data by done.
  simpl. eexists. split; [reflexivity|]. simpl. split; [|done].
  rewrite !lookup_insert_eq. simpl. by rewrite !insert_insert_eq.
Qed.

Lemma reformat_short_metadata_witness :
  let addr := T "nenci.part.xyz" in
  let content := input_text [water] ++ T "2" ++ nl :: T "a b c" ++ nl :: T "H 0 0 0" ++ [nl] in
  let w := one_file (mkPath [dot] addr) content in
  exists w',
    reformat addr w = (Ok tt, w') /\
    fs w' = <[mkPath [dot] (T "nenci.part_reformat.xyz") :=
                output_block NANCI_INDICES water ++ T "2" ++ [nl]]> (fs w) /\
    log w' = [PrintError addr IndexError].
Proof.
  cbv zeta.
  destruct (reformat_short_metadata (T "nenci.part.xyz") (T "nenci.part_reformat.xyz")
              [water] (T "2") 2 (T "a b c") (T "H 0 0 0" ++ [nl])
              (one_file (mkPath [dot] (T "nenci.part.xyz"))
                 (input_text [water] ++ T "2" ++ nl :: T "a b c" ++ nl :: T "H 0 0 0" ++ [nl])))
    as (w' & Hrun & Hfs & Hlog).
  - reflexivity.
  - by_compute.
  - by_compute.
  - constructor; [exact plain_water | constructor].
  - by_compute.
  - by_compute.
  - by_compute.
  - vm_compute. lia.
  - by_compute.
  - exists w'. split; [exact Hrun|]. split; [|exact Hlog].
    rewrite Hfs. cbn [map concat]. by rewrite app_nil_r.
Defined.

Lemma reformat_loop_step addr out fuel f f' w w' :
  reformat_block out f w = (Ok f', w') ->
  reformat_loop (S fuel) addr out f w = reformat_loop fuel addr out f' w'.
Proof.
  intros H. cbn [reformat_loop]. unfold bind at 1. unfold try_except, bind at 1.
  by rewrite H.
Qed.

Lemma reformat_loop_raise addr out fuel f e w w' :
  reformat_block out f w = (Raise e, w') ->
  reformat_loop (S fuel) addr out f w = (Ok tt, add_log (PrintError addr e) w').
Proof.
  intros H. cbn [reformat_loop]. unfold bind at 1. unfold try_except, bind at 1.
  by rewrite H.
Qed.

(** X16.  When the file ends inside the atom lines of a block,
    [reformat] writes the block all the same, with the atom lines there
    are, and then stops at the end of the file: it leaves a block whose
    count is larger than the number of its atom lines. *)
Theorem reformat_writes_partial_block addr b bs count n toks tail w :
  quiet w -> reformat_address addr = Some b ->
  Path_of_str b <> Path_of_str addr ->
  Forall plain_block bs ->
  nlfree count -> int_ count = Some n ->
  Forall token toks -> 36 <= length toks ->
  line_count tail < Z.to_nat n ->
  fs w !! Path_of_str addr =
    Some (input_text bs ++ count ++ nl :: join [space] toks ++ nl :: tail) ->
  exists w',
    reformat addr w = (Ok tt, w') /\
    fs w' = <[Path_of_str b :=
                concat (map (output_block NANCI_INDICES) bs) ++
                str_Z n ++ [nl] ++
                header_of NANCI_INDICES (join [space] toks) ++ [nl] ++ tail]>
              (fs w) /\
    log w' = log w ++ [PrintError addr ValueError].
Proof.
  intros Hq Hb Hne Hbs Hc Hn Htoks Hlen36 Hshort Hfile.
  rewrite (reformat_run _ _ _ _ Hq Hb Hne Hfile).
  set (out := Path_of_str b).
  set (w1 := create out w).
  set (meta := join [space] toks).
  set (bad := count ++ nl :: meta ++ nl :: tail).
  assert (2 <= length bad) as Hbad.
  { unfold bad. rewrite length_app. simpl. rewrite length_app. simpl. lia. }
  pose proof (input_text_length bs) as Hlen.
  replace (S (length (input_text bs ++ bad)))
    with (length bs + S (S (length (input_text bs ++ bad) - length bs - 1)))
    by (rewrite length_app; lia).
  rewrite reformat_loop_blocks; try done.
  2:{ unfold w1. simpl. rewrite lookup_insert_eq. eauto. }
  set (w2 := append_file out (concat (map (output_block NANCI_INDICES) bs)) w1).
  assert (quiet w2) as Hq2 by done.
  destruct (plain_header toks Htoks Hlen36) as (vals & Hsel & Hdata & Hpct).
  assert (header_of NANCI_INDICES meta = make_header vals) as Hhd.
  { unfold header_of, meta. by rewrite split_ws_join, Hsel. }
  set (w3 := append_file out tail
               (append_file out (make_header vals ++ [nl])
                  (append_file out (str_Z n ++ [nl]) w2))).
  assert (reformat_block out bad w2 = (Ok [], w3)) as Hblock.
  { unfold bad.
    rewrite (reformat_block_head out count n meta tail w2);
      [ | done | done | done | by apply join_tokens_nlfree ].
    cbv zeta. rewrite bind_write by done. unfold meta at 1.
    rewrite Hdata, bind_lift_some, Hpct, bind_lift_some.
    rewrite bind_write by done. rewrite bind_write by done.
    by rewrite atoms_read_short by lia. }
  rewrite (reformat_loop_step _ _ _ _ _ _ _ Hblock).
  rewrite reformat_loop_end by done.
  eexists. split; [reflexivity|]. simpl. split; [|done].
  rewrite !lookup_insert_eq. simpl. rewrite !insert_insert_eq.
  rewrite Hhd. f_equal. by rewrite <- !app_assoc.
Qed.

Lemma reformat_writes_partial_block_witness :
  let addr := T "nenci.part.xyz" in
  let content := T "3" ++ nl :: join [space] (split_ws meta36) ++ nl :: T "O 0.0 0.0 0.0" ++ [nl] in
  let w := one_file (mkPath [dot] addr) content in
  exists w',
    reformat addr w = (Ok tt, w') /\
    fs w' = <[mkPath [dot] (T "nenci.part_reformat.xyz") :=
                T "3" ++ [nl] ++ sample_header ++ [nl] ++ T "O 0.0 0.0 0.0" ++ [nl]]> (fs w) /\
    log w' = [PrintError addr ValueError].
Proof.
  cbv zeta.
  destruct (reformat_writes_partial_block (T "nenci.part.xyz")
              (T "nenci.part_reformat.xyz") [] (T "3") 3 (split_ws meta36)
              (T "O 0.0 0.0 0.0" ++ [nl])
              (one_file (mkPath [dot] (T "nenci.part.xyz"))
                 (T "3" ++ nl :: join [space] (split_ws meta36) ++ nl ::
                  T "O 0.0 0.0 0.0" ++ [nl])))
    as (w' & Hrun & Hfs & Hlog).
  - reflexivity.
  - by_compute.
  - by_compute.
  - constructor.
  - by_compute.
  - by_compute.
  - by_compute.
  - vm_compute. lia.
  - vm_compute. lia.
  - by_compute.
  - exists w'. split; [exact Hrun|]. split; [|exact Hlog].
    rewrite Hfs. f_equal.
Defined.

Lemma split_on_join_last ts t tail :
  Forall token (ts ++ [t]) -> space ∉ tail ->
  split_on space (join [space] (ts ++ [t]) ++ tail) = ts ++ [t ++ tail].
Proof.
  intros Htoks Htail. induction ts as [|t0 ts IH].
  - simpl in *. rewrite Forall_singleton in Htoks. apply split_on_free.
    rewrite elem_of_app. intros [H|H]; [by apply token_nospace in H | done].
  - apply Forall_cons in Htoks as [Ht0 Htoks].
    assert (join [space] ((t0 :: ts) ++ [t]) = t0 ++ space :: join [space] (ts ++ [t]))
      as -> by (simpl; by destruct ts).
    rewrite <- app_assoc. cbn [app].
    rewrite split_on_cons_free by (by apply token_nospace).
    by rewrite IH.
Qed.

Lemma atoms_read_unlines ls rest acc :
  Forall nlfree ls ->
  atoms_read (length ls) (unlines ls ++ rest) acc = (acc ++ unlines ls, rest).
Proof.
  intros Hls. revert acc. induction Hls as [|l ls Hl Hls IH]; intros acc.
  - simpl. by rewrite app_nil_r.
  - cbn [length atoms_read]. rewrite unlines_cons. rewrite <- app_assoc. cbn [app].
    rewrite readline_at_line by done. cbn [fst snd].
    rewrite IH. by rewrite <- !app_assoc.
Qed.

(** With thirty-five tokens the last value [reformat] takes is the last
    field of the line, newline included. *)
Lemma last_field_header ts t :
  Forall token (ts ++ [t]) -> length ts = 34 ->
  exists vs h,
    select NANCI_INDICES (ts ++ [t]) = Some (vs ++ [t]) /\
    mapM (fun i => split_on space (join [space] (ts ++ [t]) ++ [nl]) !! i)
      NANCI_INDICES = Some (vs ++ [t ++ [nl]]) /\
    make_header (vs ++ [t]) = h ++ PROPERTIES /\
    percent REFORMAT_TEMPLATE (vs ++ [t ++ [nl]]) =
      Some (h ++ [nl] ++ PROPERTIES ++ [nl]).
Proof.
  intros Htoks Hlen.
  rewrite split_on_join_last by (done || by_compute).
  unfold select, NANCI_INDICES.
  destruct (ts !! 16) as [v0|] eqn:E0; [|apply lookup_ge_None in E0; lia].
  destruct (ts !! 18) as [v1|] eqn:E1; [|apply lookup_ge_None in E1; lia].
  destruct (ts !! 20) as [v2|] eqn:E2; [|apply lookup_ge_None in E2; lia].
  destruct (ts !! 22) as [v3|] eqn:E3; [|apply lookup_ge_None in E3; lia].
  destruct (ts !! 24) as [v4|] eqn:E4; [|apply lookup_ge_None in E4; lia].
  destruct (ts !! 26) as [v5|] eqn:E5; [|apply lookup_ge_None in E5; lia].
  destruct (ts !! 28) as [v6|] eqn:E6; [|apply lookup_ge_None in E6; lia].
  destruct (ts !! 30) as [v7|] eqn:E7; [|apply lookup_ge_None in E7; lia].
  destruct (ts !! 32) as [v8|] eqn:E8; [|apply lookup_ge_None in E8; lia].
  assert (forall (x : text) i v, ts !! i = Some v -> (ts ++ [x]) !! i = Some v) as Hl.
  { intros x i v H. by apply lookup_app_l_Some. }
  assert (forall x : text, (ts ++ [x]) !! 34 = Some x) as Hlast.
  { intros x. rewrite lookup_app_r by lia. by rewrite Hlen. }
  exists [v0; v1; v2; v3; v4; v5; v6; v7; v8].
  exists (T "CCSD(T)/CBS=" ++ v0 ++ T " CCSD(T)/haTZ=" ++ v1 ++
          T " MP2/haTZ=" ++ v2 ++ T " MP2/CBS=" ++ v3 ++ T " MP2/aTZ=" ++ v4 ++
          T " MP2/aQZ=" ++ v5 ++ T " HF/haTZ=" ++ v6 ++ T " HF/aTZ=" ++ v7 ++
          T " HF/aQZ=" ++ v8 ++ T " SAPT2+/aDZTot=" ++ t).
  split; [|split; [|split]].
  - cbn [mapM]. rewrite !(Hl t _ _ E0), !(Hl t _ _ E1), !(Hl t _ _ E2),
      !(Hl t _ _ E3), !(Hl t _ _ E4), !(Hl t _ _ E5), !(Hl t _ _ E6),
      !(Hl t _ _ E7), !(Hl t _ _ E8), Hlast. reflexivity.
  - cbn [mapM]. rewrite !(Hl _ _ _ E0), !(Hl _ _ _ E1), !(Hl _ _ _ E2),
      !(Hl _ _ _ E3), !(Hl _ _ _ E4), !(Hl _ _ _ E5), !(Hl _ _ _ E6),
      !(Hl _ _ _ E7), !(Hl _ _ _ E8), Hlast. reflexivity.
  - unfold make_header, PROPERTIES. cbn. repeat (rewrite <- app_assoc; cbn [app]).
    reflexivity.
  - unfold PROPERTIES. cbn. repeat (rewrite <- app_assoc; cbn [app]).
    reflexivity.
Qed.

(** X17.  A block whose metadata line has exactly thirty-five tokens is
    written by [process_file] with a header of one line, but [reformat]
    takes the last value with the newline that ends the line: the header
    it writes is broken in two lines after the last value, the
    properties standing on a line of their own. *)
Theorem reformat_breaks_header addr b count n ts t atom_lines w :
  quiet w -> reformat_address addr = Some b ->
  Path_of_str b <> Path_of_str addr ->
  nlfree count -> int_ count = Some n ->
  Z.to_nat n = length atom_lines -> Forall nlfree atom_lines ->
  Forall token (ts ++ [t]) -> length ts = 34 ->
  fs w !! Path_of_str addr =
    Some (count ++ nl :: join [space] (ts ++ [t]) ++ nl :: unlines atom_lines) ->
  exists h w',
    header_of NANCI_INDICES (join [space] (ts ++ [t])) = h ++ PROPERTIES /\
    reformat addr w = (Ok tt, w') /\
    fs w' = <[Path_of_str b :=
                str_Z n ++ [nl] ++ h ++ [nl] ++ PROPERTIES ++ [nl] ++
                unlines atom_lines]> (fs w) /\
    log w' = log w ++ [PrintError addr ValueError].
Proof.
  intros Hq Hb Hne Hc Hn Hlen Hat Htoks H34 Hfile.
  destruct (last_field_header ts t Htoks H34) as (vs & h & Hsel & Hdata & Hh & Hpct).
  exists h. eexists.
  rewrite (reformat_run _ _ _ _ Hq Hb Hne Hfile).
  set (out := Path_of_str b).
  set (w1 := create out w).
  set (meta := join [space] (ts ++ [t])).
  set (w3 := append_file out (unlines atom_lines)
               (append_file out (h ++ [nl] ++ PROPERTIES ++ [nl])
                  (append_file out (str_Z n ++ [nl]) w1))).
  assert (quiet w1) as Hq1 by done.
  assert (reformat_block out (count ++ nl :: meta ++ nl :: unlines atom_lines) w1 =
          (Ok [], w3)) as Hblock.
  { rewrite (reformat_block_head out count n meta (unlines atom_lines) w1);
      [ | done | done | done | by apply join_tokens_nlfree ].
    cbv zeta. rewrite bind_write by done. unfold meta at 1.
    rewrite Hdata, bind_lift_some, Hpct, bind_lift_some.
    rewrite bind_write by done. rewrite bind_write by done.
    rewrite Hlen. rewrite <- (app_nil_r (unlines atom_lines)) at 1 2.
    by rewrite atoms_read_unlines. }
  split.
  { unfold header_of, meta. by rewrite split_ws_join, Hsel. }
  split.
  - cbn [length]. rewrite (reformat_loop_step _ _ _ _ _ _ _ Hblock).
    assert (exists k, length (count ++ nl :: meta ++ nl :: unlines atom_lines) = S k)
      as [k ->].
    { rewrite length_app. simpl. exists (length count + length (meta ++ nl :: unlines atom_lines)).
      lia. }
    by rewrite reformat_loop_end.
  - simpl. split; [|done].
    rewrite !lookup_insert_eq. simpl. rewrite !insert_insert_eq.
    f_equal. by rewrite <- !app_assoc.
Qed.

Lemma reformat_breaks_header_witness :
  let addr := T "nenci.part.xyz" in
  let content := T "1" ++ nl :: meta35 ++ nl :: T "H 0 0 0" ++ [nl] in
  let w := one_file (mkPath [dot] addr) content in
  exists h w',
    header_of NANCI_INDICES meta35 = h ++ PROPERTIES /\
    reformat addr w = (Ok tt, w') /\
    fs w' = <[mkPath [dot] (T "nenci.part_reformat.xyz") :=
                T "1" ++ [nl] ++ h ++ [nl] ++ PROPERTIES ++ [nl] ++
                T "H 0 0 0" ++ [nl]]> (fs w) /\
    log w' = [PrintError addr ValueError].
Proof.
  cbv zeta.
  apply (reformat_breaks_header (T "nenci.part.xyz") (T "nenci.part_reformat.xyz")
           (T "1") 1 (split_ws meta34) (T "34") [T "H 0 0 0"]
           (one_file (mkPath [dot] (T "nenci.part.xyz"))
              (T "1" ++ nl :: meta35 ++ nl :: T "H 0 0 0" ++ [nl]))).
  - reflexivity.
  - by_compute.
  - by_compute.
  - by_compute.
  - by_compute.
  - reflexivity.
  - by_compute.
  - by_compute.
  - reflexivity.
  - by_compute.
Defined.
